(** * Check_Matie: the search, evaluation and transposition-table core of
    [Engine/engine.cpp], embedded shallowly.

    The engine is written against the header-only library [chess.hpp]
    (board representation, move generation, make/unmake, hashing), which is
    not part of the sources.  Its operations are taken as the fields of the
    class [ChessLib]; the properties of the library that a proof relies on
    are collected in [ChessLaws].  C++ [int] values are modelled in [Z]
    (signed overflow is undefined in C++ and does not occur on the values
    handled here); [size_t] and [uint64_t] are 64-bit with the wrap-around
    written out. *)

From Stdlib Require Import ZArith Lia List String Sorted Permutation.
From stdpp Require Import base list pretty.

Local Open Scope Z_scope.

(** ** Enumerations of [chess.hpp] used by the engine *)

Inductive Color := WHITE | BLACK.

(** [PieceType::internal()] numbers the piece types 0..6 in this order. *)
Inductive PieceType := PAWN | KNIGHT | BISHOP | ROOK | QUEEN | KING | PT_NONE.

Inductive Piece := Piece_NONE | MkPiece (c : Color) (t : PieceType).

Inductive GameResultReason :=
  | CHECKMATE | STALEMATE | INSUFFICIENT_MATERIAL | FIFTY_MOVE_RULE
  | THREEFOLD_REPETITION | NONE.

Inductive MoveType := NORMAL | PROMOTION | ENPASSANT | CASTLING.

#[global] Instance Color_eq_dec : EqDecision Color.
Proof. solve_decision. Defined.
#[global] Instance PieceType_eq_dec : EqDecision PieceType.
Proof. solve_decision. Defined.
#[global] Instance Piece_eq_dec : EqDecision Piece.
Proof. solve_decision. Defined.
#[global] Instance GameResultReason_eq_dec : EqDecision GameResultReason.
Proof. solve_decision. Defined.
#[global] Instance MoveType_eq_dec : EqDecision MoveType.
Proof. solve_decision. Defined.

(** [piece.type()]; [Piece::NONE] has type [PieceType::NONE]. *)
Definition piece_type (p : Piece) : PieceType :=
  match p with Piece_NONE => PT_NONE | MkPiece _ t => t end.

(** [piece.color()], [None] standing for [Color::NONE]. *)
Definition piece_color (p : Piece) : option Color :=
  match p with Piece_NONE => None | MkPiece c _ => Some c end.

(** A square is its index 0..63, as in [Square square(sq)]. *)
Definition Square := Z.

(** ** The interface of [chess.hpp] and of [std::sort]

    [Move] stands for the 16 move bits: [operator==] of the library compares
    only those, and the ordering score that [setScore] writes next to them is
    carried separately (see [order_moves]). *)
Class ChessLib (Board Move : Type) := {
  Move_eq_dec :: EqDecision Move;
  NO_MOVE : Move;
  move_from : Move -> Square;
  move_to : Move -> Square;
  typeOf : Move -> MoveType;
  promotionType : Move -> PieceType;
  moveToUci : Move -> string;
  sq_file : Square -> Z;
  sq_rank : Square -> Z;
  sideToMove : Board -> Color;
  at_sq : Board -> Square -> Piece;
  (** [board.isGameOver().first] *)
  isGameOver : Board -> GameResultReason;
  isHalfMoveDraw : Board -> bool;
  isRepetition : Board -> bool;
  inCheck : Board -> bool;
  hasNonPawnMaterial : Board -> Color -> bool;
  isCapture : Board -> Move -> bool;
  (** [board.pieces(PieceType::PAWN, c).count()] *)
  pawn_count : Board -> Color -> Z;
  kingSq : Board -> Color -> Square;
  hash : Board -> Z;
  (** [movegen::legalmoves(moves, board)] *)
  legalmoves : Board -> list Move;
  (** [movegen::legalmoves<movegen::MoveGenType::CAPTURE>(moves, board)] *)
  legalmoves_CAPTURE : Board -> list Move;
  makeMove : Board -> Move -> Board;
  unmakeMove : Board -> Move -> Board;
  makeNullMove : Board -> Board;
  unmakeNullMove : Board -> Board;
  (** [std::sort] with the comparator [a.score() > b.score()]; the order of
      moves of equal score is left to the implementation. *)
  sort_by_score : list (Move * Z) -> list (Move * Z);
}.

(** ** Machine integers *)

Definition wrap_size_t (z : Z) : Z := z mod 2 ^ 64.

(** [std::int16_t], the type of the ordering score of a [Move]. *)
Definition wrap_int16 (z : Z) : Z := (z + 2 ^ 15) mod 2 ^ 16 - 2 ^ 15.

(** ** Constants *)

Definition MATE_VALUE : Z := 30000.
Definition DRAW_VALUE : Z := 0.
Definition INF : Z := 32000.

(** ** Transposition table *)

Inductive TTFlag := TT_EXACT | TT_ALPHA | TT_BETA.

#[global] Instance TTFlag_eq_dec : EqDecision TTFlag.
Proof. solve_decision. Defined.

Section Engine.
Context {Board Move : Type} `{!ChessLib Board Move}.

Record TTEntry := {
  tte_key : Z;
  tte_best_move : Move;
  tte_depth : Z;
  tte_score : Z;
  tte_flag : TTFlag;
}.

(** [TTEntry()] *)
Definition TTEntry_default : TTEntry :=
  {| tte_key := 0; tte_best_move := NO_MOVE; tte_depth := 0;
     tte_score := 0; tte_flag := TT_EXACT |}.

Record TranspositionTable := {
  table : list TTEntry;
  size_mask : Z;
}.

(** [while (actual_size < size) actual_size <<= 1;] on [size_t].  The loop
    runs until the test fails; [fuel] bounds the number of tests. *)
Fixpoint grow_actual_size (fuel : nat) (size actual_size : Z) : option Z :=
  match fuel with
  | O => None
  | S fuel' =>
      if actual_size <? size
      then grow_actual_size fuel' size (wrap_size_t (Z.shiftl actual_size 1))
      else Some actual_size
  end.

(** The constructor [TranspositionTable(size_t size_mb)].  [sizeof_TTEntry]
    is [sizeof(TTEntry)], fixed by the layout of [Move] in [chess.hpp] and
    by the ABI.  A [size_t] has 64 bits, so 65 tests of the loop condition
    are enough whenever the loop ends at all.  The allocation in
    [table.resize] is taken to succeed. *)
Definition TranspositionTable_new (sizeof_TTEntry size_mb : Z)
  : option TranspositionTable :=
  let size := wrap_size_t (wrap_size_t (size_mb * 1024) * 1024) / sizeof_TTEntry in
  match grow_actual_size 65 size 1 with
  | Some actual_size =>
      Some {| table := replicate (Z.to_nat actual_size) TTEntry_default;
              size_mask := wrap_size_t (actual_size - 1) |}
  | None => None
  end.

(** [size_t index = key & size_mask] *)
Definition tt_index (t : TranspositionTable) (key : Z) : Z :=
  Z.land key (size_mask t).

(** The test guarding the write in [store]. *)
Definition store_replaces (entry : TTEntry) (key depth : Z) : bool :=
  (tte_key entry =? 0) || (tte_depth entry <=? depth) || (tte_key entry =? key).

(** [store].  [table[index]] out of range is undefined in C++; it does not
    happen on a table built by the constructor ([tt_wf]) and is modelled as
    no write. *)
Definition store (t : TranspositionTable) (key : Z) (move : Move)
    (depth score : Z) (flag : TTFlag) : TranspositionTable :=
  let index := tt_index t key in
  match table t !! Z.to_nat index with
  | Some entry =>
      if store_replaces entry key depth
      then {| table := <[Z.to_nat index :=
                           {| tte_key := key; tte_best_move := move;
                              tte_depth := depth; tte_score := score;
                              tte_flag := flag |}]> (table t);
              size_mask := size_mask t |}
      else t
  | None => t
  end.

(** [probe]: the entry of the indexed slot, or [nullptr]. *)
Definition probe (t : TranspositionTable) (key : Z) : option TTEntry :=
  let index := tt_index t key in
  match table t !! Z.to_nat index with
  | Some entry => if tte_key entry =? key then Some entry else None
  | None => None
  end.

(** [clear] *)
Definition clear (t : TranspositionTable) : TranspositionTable :=
  {| table := replicate (length (table t)) TTEntry_default;
     size_mask := size_mask t |}.

(** The shape the constructor establishes: a power-of-two length and the
    matching mask. *)
Definition tt_wf (t : TranspositionTable) : Prop :=
  exists k, 0 <= k /\ Z.of_nat (length (table t)) = 2 ^ k /\ size_mask t = 2 ^ k - 1.

Definition is_pow2 (n : Z) : Prop := exists k, 0 <= k /\ n = 2 ^ k.

(** ** Evaluation *)

(** [static_cast<int>(piece_type.internal())] *)
Definition PieceType_internal (t : PieceType) : Z :=
  match t with
  | PAWN => 0 | KNIGHT => 1 | BISHOP => 2 | ROOK => 3 | QUEEN => 4
  | KING => 5 | PT_NONE => 6
  end.

(** A read [a[i]] of a constant table; the indices used are in range. *)
Definition tbl (a : list Z) (i : Z) : Z := nth (Z.to_nat i) a 0.

Definition piece_values : list Z := [100; 320; 330; 500; 900; 20000; 0].

Definition pst_pawn : list Z :=
  [  0;  0;  0;  0;  0;  0;  0;  0;
    50; 50; 50; 50; 50; 50; 50; 50;
    10; 10; 20; 30; 30; 20; 10; 10;
     5;  5; 10; 25; 25; 10;  5;  5;
     0;  0;  0; 20; 20;  0;  0;  0;
     5; -5;-10;  0;  0;-10; -5;  5;
     5; 10; 10;-20;-20; 10; 10;  5;
     0;  0;  0;  0;  0;  0;  0;  0 ].

Definition pst_knight : list Z :=
  [ -50;-40;-30;-30;-30;-30;-40;-50;
    -40;-20;  0;  0;  0;  0;-20;-40;
    -30;  0; 10; 15; 15; 10;  0;-30;
    -30;  5; 15; 20; 20; 15;  5;-30;
    -30;  0; 15; 20; 20; 15;  0;-30;
    -30;  5; 10; 15; 15; 10;  5;-30;
    -40;-20;  0;  5;  5;  0;-20;-40;
    -50;-40;-30;-30;-30;-30;-40;-50 ].

Definition pst_bishop : list Z :=
  [ -20;-10;-10;-10;-10;-10;-10;-20;
    -10;  0;  0;  0;  0;  0;  0;-10;
    -10;  0;  5; 10; 10;  5;  0;-10;
    -10;  5;  5; 10; 10;  5;  5;-10;
    -10;  0; 10; 10; 10; 10;  0;-10;
    -10; 10; 10; 10; 10; 10; 10;-10;
    -10;  5;  0;  0;  0;  0;  5;-10;
    -20;-10;-10;-10;-10;-10;-10;-20 ].

Definition pst_rook : list Z :=
  [  0;  0;  0;  0;  0;  0;  0;  0;
     5; 10; 10; 10; 10; 10; 10;  5;
    -5;  0;  0;  0;  0;  0;  0; -5;
    -5;  0;  0;  0;  0;  0;  0; -5;
    -5;  0;  0;  0;  0;  0;  0; -5;
    -5;  0;  0;  0;  0;  0;  0; -5;
    -5;  0;  0;  0;  0;  0;  0; -5;
     0;  0;  0;  5;  5;  0;  0;  0 ].

Definition pst_queen : list Z :=
  [ -20;-10;-10; -5; -5;-10;-10;-20;
    -10;  0;  0;  0;  0;  0;  0;-10;
    -10;  0;  5;  5;  5;  5;  0;-10;
     -5;  0;  5;  5;  5;  5;  0; -5;
      0;  0;  5;  5;  5;  5;  0; -5;
    -10;  5;  5;  5;  5;  5;  0;-10;
    -10;  0;  5;  0;  0;  0;  0;-10;
    -20;-10;-10; -5; -5;-10;-10;-20 ].

Definition pst_king : list Z :=
  [ -30;-40;-40;-50;-50;-40;-40;-30;
    -30;-40;-40;-50;-50;-40;-40;-30;
    -30;-40;-40;-50;-50;-40;-40;-30;
    -30;-40;-40;-50;-50;-40;-40;-30;
    -20;-30;-30;-40;-40;-30;-30;-20;
    -10;-20;-20;-20;-20;-20;-20;-10;
     20; 20;  0;  0;  0;  0; 20; 20;
     20; 30; 10;  0;  0; 10; 30; 20 ].

Definition pst_pawn_endgame : list Z :=
  [  0;  0;  0;  0;  0;  0;  0;  0;
    80; 80; 80; 80; 80; 80; 80; 80;
    60; 60; 60; 60; 60; 60; 60; 60;
    40; 40; 40; 40; 40; 40; 40; 40;
    20; 20; 20; 20; 20; 20; 20; 20;
    10; 10; 10; 10; 10; 10; 10; 10;
    10; 10; 10; 10; 10; 10; 10; 10;
     0;  0;  0;  0;  0;  0;  0;  0 ].

Definition pst_king_endgame : list Z :=
  [ -50;-30;-30;-30;-30;-30;-30;-50;
    -30;-30;  0;  0;  0;  0;-30;-30;
    -30;-10; 20; 30; 30; 20;-10;-30;
    -30;-10; 30; 40; 40; 30;-10;-30;
    -30;-10; 30; 40; 40; 30;-10;-30;
    -30;-10; 20; 30; 30; 20;-10;-30;
    -30;-20;-10;  0;  0;-10;-20;-30;
    -50;-40;-30;-20;-20;-30;-40;-50 ].

(** The squares [0 .. 63] visited by [for (int sq = 0; sq < 64; ++sq)]. *)
Definition all_squares : list Z := map Z.of_nat (seq 0 64).

(** [count_pieces] *)
Definition count_pieces (b : Board) : Z :=
  fold_left
    (fun count sq =>
       let piece := at_sq b sq in
       if bool_decide (piece <> Piece_NONE)
          && bool_decide (piece_type piece <> PAWN)
          && bool_decide (piece_type piece <> KING)
       then count + 1 else count)
    all_squares 0.

(** [calculate_mobility] *)
Definition calculate_mobility (b : Board) (color : Color) : Z :=
  fold_left
    (fun mobility move =>
       let piece := at_sq b (move_from move) in
       if bool_decide (piece_color piece = Some color)
       then mobility + 1 else mobility)
    (legalmoves b) 0.

(** [calculate_king_distance_evaluation] *)
Definition calculate_king_distance_evaluation
    (friendly_king_sq opponent_king_sq : Square) : Z :=
  let friendly_file := sq_file friendly_king_sq in
  let friendly_rank := sq_rank friendly_king_sq in
  let opponent_file := sq_file opponent_king_sq in
  let opponent_rank := sq_rank opponent_king_sq in
  let opponentKingDstToCentreFile := Z.max (3 - opponent_file) (opponent_file - 4) in
  let opponentKingDstToCentreRank := Z.max (3 - opponent_rank) (opponent_rank - 4) in
  let opponentKingDstFromCentre :=
    opponentKingDstToCentreFile + opponentKingDstToCentreRank in
  let dstBetweenKingsFile := Z.abs (friendly_file - opponent_file) in
  let dstBetweenKingsRank := Z.abs (friendly_rank - opponent_rank) in
  let dstBetweenKings := dstBetweenKingsFile + dstBetweenKingsRank in
  let evaluation := 0 in
  let evaluation := evaluation + opponentKingDstFromCentre in
  let evaluation := evaluation + (14 - dstBetweenKings) in
  evaluation * 10.

(** One iteration of the square loop of [evaluate] (lines 177-229). *)
Definition evaluate_square (b : Board) (is_endgame : bool) (score sq : Z) : Z :=
  let piece := at_sq b sq in
  match piece with
  | Piece_NONE => score
  | MkPiece piece_color piece_type =>
      let piece_value := tbl piece_values (PieceType_internal piece_type) in
      let sq_index := if bool_decide (piece_color = WHITE) then sq else 63 - sq in
      let positional_value :=
        match piece_type with
        | PAWN => if is_endgame then tbl pst_pawn_endgame sq_index
                  else tbl pst_pawn sq_index
        | KNIGHT => tbl pst_knight sq_index
        | BISHOP => tbl pst_bishop sq_index
        | ROOK => tbl pst_rook sq_index
        | QUEEN => tbl pst_queen sq_index
        | KING => if is_endgame then tbl pst_king_endgame sq_index
                  else tbl pst_king sq_index
        | PT_NONE => 0
        end in
      let total_value := piece_value + positional_value in
      if bool_decide (piece_color = WHITE) then score + total_value
      else score - total_value
  end.

(** The running [score] of [evaluate] when line 250 is reached: material and
    piece-square terms, pawn count, mobility, and the endgame king term. *)
Definition evaluate_score_before_check (b : Board) : Z :=
  let score := 0 in
  let stm := sideToMove b in
  let piece_count := count_pieces b in
  let is_endgame := piece_count <=? 6 in
  let score := fold_left (evaluate_square b is_endgame) all_squares score in
  let score := score + (pawn_count b WHITE * 10 - pawn_count b BLACK * 10) in
  let white_mobility := calculate_mobility b WHITE in
  let black_mobility := calculate_mobility b BLACK in
  let score := score + (white_mobility - black_mobility) * 5 in
  if is_endgame then
    let white_king_sq := kingSq b WHITE in
    let black_king_sq := kingSq b BLACK in
    if bool_decide (stm = WHITE)
    then score + calculate_king_distance_evaluation white_king_sq black_king_sq
    else score + calculate_king_distance_evaluation black_king_sq white_king_sq
  else score.

(** The running [score] when line 254 is reached (lines 250-252 applied). *)
Definition evaluate_score (b : Board) : Z :=
  let score := evaluate_score_before_check b in
  if inCheck b
  then score + (if bool_decide (sideToMove b = WHITE) then -20 else 20)
  else score.

(** [evaluate] *)
Definition evaluate (b : Board) : Z :=
  if bool_decide (isGameOver b <> NONE) then
    if bool_decide (isGameOver b = CHECKMATE) then
      if bool_decide (sideToMove b = WHITE) then - MATE_VALUE else MATE_VALUE
    else DRAW_VALUE
  else
    let score := evaluate_score b in
    if bool_decide (sideToMove b = WHITE) then score else - score.

(** ** Move ordering *)

(** The key computed for one move by the loop body of [order_moves]
    (lines 259-277), before [setScore] narrows it to [int16_t]. *)
Definition order_key (b : Board) (tt_move move : Move) : Z :=
  let score :=
    if bool_decide (move = tt_move) then 10000
    else if isCapture b move then
      let captured := at_sq b (move_to move) in
      let moving := at_sq b (move_from move) in
      tbl piece_values (PieceType_internal (piece_type captured))
      - tbl piece_values (PieceType_internal (piece_type moving)) + 1000
    else if bool_decide (typeOf move = PROMOTION) then
      tbl piece_values (PieceType_internal (promotionType move)) + 500
    else 0 in
  let temp_board := makeMove b move in
  if inCheck temp_board then score + 100 else score.

(** [order_moves]: each move paired with the score [setScore] stored in it,
    then sorted. *)
Definition order_moves (b : Board) (moves : list Move) (tt_move : Move)
  : list (Move * Z) :=
  sort_by_score (map (fun move => (move, wrap_int16 (order_key b tt_move move))) moves).

(** ** The engine state

    The members of [ChessEngine], together with the part of the process the
    search acts on: the steady clock and the two output streams.  The clock
    is the sequence of values that successive calls of
    [std::chrono::steady_clock::now()] return, counted in ticks
    ([steady_clock_readings n] is the value of the [n]-th call). *)
Record ChessEngine := {
  board : Board;
  tt : TranspositionTable;
  stop_search : bool;
  nodes_searched : Z;
  search_start : Z;
  time_limit : Z;
  steady_clock_readings : nat -> Z;
  steady_clock_calls : nat;
  cout : list string;
  cerr : list string;
}.

(** Ticks of the steady clock in one millisecond (the clock counts
    nanoseconds); [time_limit] is kept in milliseconds. *)
Definition ticks_per_ms : Z := 1000000.

Definition set_board (f : Board -> Board) (s : ChessEngine) : ChessEngine :=
  {| board := f (board s); tt := tt s; stop_search := stop_search s;
     nodes_searched := nodes_searched s; search_start := search_start s;
     time_limit := time_limit s;
     steady_clock_readings := steady_clock_readings s;
     steady_clock_calls := steady_clock_calls s;
     cout := cout s; cerr := cerr s |}.

Definition set_tt (f : TranspositionTable -> TranspositionTable)
    (s : ChessEngine) : ChessEngine :=
  {| board := board s; tt := f (tt s); stop_search := stop_search s;
     nodes_searched := nodes_searched s; search_start := search_start s;
     time_limit := time_limit s;
     steady_clock_readings := steady_clock_readings s;
     steady_clock_calls := steady_clock_calls s;
     cout := cout s; cerr := cerr s |}.

Definition set_stop_search (v : bool) (s : ChessEngine) : ChessEngine :=
  {| board := board s; tt := tt s; stop_search := v;
     nodes_searched := nodes_searched s; search_start := search_start s;
     time_limit := time_limit s;
     steady_clock_readings := steady_clock_readings s;
     steady_clock_calls := steady_clock_calls s;
     cout := cout s; cerr := cerr s |}.

Definition set_nodes_searched (f : Z -> Z) (s : ChessEngine) : ChessEngine :=
  {| board := board s; tt := tt s; stop_search := stop_search s;
     nodes_searched := f (nodes_searched s); search_start := search_start s;
     time_limit := time_limit s;
     steady_clock_readings := steady_clock_readings s;
     steady_clock_calls := steady_clock_calls s;
     cout := cout s; cerr := cerr s |}.

Definition set_search_start (v : Z) (s : ChessEngine) : ChessEngine :=
  {| board := board s; tt := tt s; stop_search := stop_search s;
     nodes_searched := nodes_searched s; search_start := v;
     time_limit := time_limit s;
     steady_clock_readings := steady_clock_readings s;
     steady_clock_calls := steady_clock_calls s;
     cout := cout s; cerr := cerr s |}.

Definition set_time_limit (ms : Z) (s : ChessEngine) : ChessEngine :=
  {| board := board s; tt := tt s; stop_search := stop_search s;
     nodes_searched := nodes_searched s; search_start := search_start s;
     time_limit := ms;
     steady_clock_readings := steady_clock_readings s;
     steady_clock_calls := steady_clock_calls s;
     cout := cout s; cerr := cerr s |}.

Definition tick_clock (s : ChessEngine) : ChessEngine :=
  {| board := board s; tt := tt s; stop_search := stop_search s;
     nodes_searched := nodes_searched s; search_start := search_start s;
     time_limit := time_limit s;
     steady_clock_readings := steady_clock_readings s;
     steady_clock_calls := S (steady_clock_calls s);
     cout := cout s; cerr := cerr s |}.

Definition put_cout (line : string) (s : ChessEngine) : ChessEngine :=
  {| board := board s; tt := tt s; stop_search := stop_search s;
     nodes_searched := nodes_searched s; search_start := search_start s;
     time_limit := time_limit s;
     steady_clock_readings := steady_clock_readings s;
     steady_clock_calls := steady_clock_calls s;
     cout := cout s ++ [line]; cerr := cerr s |}.

Definition put_cerr (line : string) (s : ChessEngine) : ChessEngine :=
  {| board := board s; tt := tt s; stop_search := stop_search s;
     nodes_searched := nodes_searched s; search_start := search_start s;
     time_limit := time_limit s;
     steady_clock_readings := steady_clock_readings s;
     steady_clock_calls := steady_clock_calls s;
     cout := cout s; cerr := cerr s ++ [line] |}.

(** ** The monad of engine methods: state passing, [None] when the fuel that
    bounds the recursion is used up. *)
Definition M (A : Type) : Type := ChessEngine -> option (A * ChessEngine).

Definition ret {A} (a : A) : M A := fun s => Some (a, s).

Definition bind {A B} (m : M A) (k : A -> M B) : M B :=
  fun s => match m s with Some (a, s') => k a s' | None => None end.

Definition out_of_fuel {A} : M A := fun _ => None.

Definition gets {A} (f : ChessEngine -> A) : M A := fun s => Some (f s, s).

Definition modify (f : ChessEngine -> ChessEngine) : M unit :=
  fun s => Some (Datatypes.tt, f s).

Notation "x <- m ;; k" := (bind m (fun x => k))
  (at level 100, m at next level, right associativity).
Notation "m ;;; k" := (bind m (fun _ => k))
  (at level 100, right associativity).

(** Specifications of methods.  [wlp m s Q]: if [m] run from [s] returns,
    its result and final state satisfy [Q].  [wp m s Q]: [m] run from [s]
    returns, and they satisfy [Q]. *)
Definition wlp {A} (m : M A) (s : ChessEngine)
    (Q : A -> ChessEngine -> Prop) : Prop :=
  forall a s', m s = Some (a, s') -> Q a s'.

Definition wp {A} (m : M A) (s : ChessEngine)
    (Q : A -> ChessEngine -> Prop) : Prop :=
  exists a s', m s = Some (a, s') /\ Q a s'.

(** [std::chrono::steady_clock::now()] *)
Definition now : M Z :=
  fun s => Some (steady_clock_readings s (steady_clock_calls s), tick_clock s).

(** The node count and time poll shared by [quiescence] (lines 290-297) and
    [negamax] (lines 330-337); the result tells whether the time limit was
    found exceeded, in which case [stop_search] has been set. *)
Definition count_node_and_poll : M bool :=
  modify (set_nodes_searched (fun n => n + 1)) ;;;
  n <- gets nodes_searched ;;
  if Z.rem n 1024 =? 0 then
    t <- now ;;
    start <- gets search_start ;;
    limit <- gets time_limit ;;
    if t - start >? limit * ticks_per_ms then
      modify (set_stop_search true) ;;; ret true
    else ret false
  else ret false.

(** ** Quiescence search *)

(** The capture loop of [quiescence] (lines 309-320); [rec alpha beta] is the
    recursive call [quiescence(alpha, beta, depth + 1)]. *)
Fixpoint quiescence_moves (rec : Z -> Z -> M Z) (moves : list Move)
    (alpha beta : Z) : M Z :=
  match moves with
  | [] => ret alpha
  | move :: rest =>
      modify (set_board (fun b => makeMove b move)) ;;;
      r <- rec (- beta) (- alpha) ;;
      let score := - r in
      modify (set_board (fun b => unmakeMove b move)) ;;;
      stop <- gets stop_search ;;
      if stop then ret alpha
      else if score >=? beta then ret beta
      else quiescence_moves rec rest (if score >? alpha then score else alpha) beta
  end.

(** The body of [quiescence], the recursive call abstracted as [rec]. *)
Definition quiescence_body (rec : Z -> Z -> Z -> M Z) (alpha beta depth : Z)
  : M Z :=
  if depth >? 10 then b <- gets board ;; ret (evaluate b)
  else
    expired <- count_node_and_poll ;;
    if expired then ret alpha
    else
      b <- gets board ;;
      let stand_pat := evaluate b in
      if stand_pat >=? beta then ret beta
      else
        let alpha := if stand_pat >? alpha then stand_pat else alpha in
        let moves := order_moves b (legalmoves_CAPTURE b) NO_MOVE in
        quiescence_moves (fun a b => rec a b (depth + 1)) (map fst moves)
          alpha beta.

(** [quiescence]; [fuel] bounds the depth of the call stack. *)
Fixpoint quiescence (fuel : nat) (alpha beta depth : Z) : M Z :=
  match fuel with
  | O => out_of_fuel
  | S fuel' => quiescence_body (quiescence fuel') alpha beta depth
  end.

(** ** Negamax *)

(** The [return] statement through which a call of [negamax] leaves, by its
    line in [engine.cpp].  The tag is bookkeeping for the statements about
    return paths; callers use the score only. *)
Inductive Exit :=
  | Ret_stop_at_entry      (* 324: return alpha *)
  | Ret_quiescence         (* 327: return quiescence(alpha, beta) *)
  | Ret_stop_at_poll       (* 335: return alpha *)
  | Ret_tt_exact           (* 345: return tt_entry->score *)
  | Ret_tt_alpha           (* 347: return alpha *)
  | Ret_tt_beta            (* 349: return beta *)
  | Ret_draw_shortcut      (* 358: return DRAW_VALUE *)
  | Ret_checkmate          (* 364: return -MATE_VALUE + nodes_searched *)
  | Ret_game_over_draw     (* 366: return DRAW_VALUE *)
  | Ret_null_cutoff        (* 376: return beta *)
  | Ret_no_moves_in_check  (* 385: return -MATE_VALUE + nodes_searched *)
  | Ret_no_moves_draw      (* 387: return DRAW_VALUE *)
  | Ret_stop_after_child   (* 413: return alpha *)
  | Ret_beta_cutoff        (* 422: return beta, after tt.store *)
  | Ret_best_score.        (* 432: return best_score, after tt.store *)

(** The search of the move of index [i] (lines 401-409), first with the
    full window, later ones with a null window and a re-search;
    [rec alpha beta] is the recursive call
    [negamax(depth - 1, alpha, beta, true)]. *)
Definition negamax_child (rec : Z -> Z -> M Z) (i alpha beta : Z) : M Z :=
  if i =? 0 then
    r <- rec (- beta) (- alpha) ;; ret (- r)
  else
    r <- rec (- alpha - 1) (- alpha) ;;
    let score := - r in
    if (score >? alpha) && (score <? beta) then
      r' <- rec (- beta) (- alpha) ;; ret (- r')
    else ret score.

(** The move loop of [negamax] (lines 396-432) from index [i] on, with the
    current values of the locals. *)
Fixpoint negamax_moves (rec : Z -> Z -> M Z) (key depth beta : Z)
    (moves : list Move) (i : Z) (alpha best_score : Z) (best_move : Move)
    (flag : TTFlag) : M (Exit * Z) :=
  match moves with
  | [] =>
      modify (set_tt (fun t => store t key best_move depth best_score flag)) ;;;
      ret (Ret_best_score, best_score)
  | move :: rest =>
      modify (set_board (fun b => makeMove b move)) ;;;
      score <- negamax_child rec i alpha beta ;;
      modify (set_board (fun b => unmakeMove b move)) ;;;
      stop <- gets stop_search ;;
      if stop then ret (Ret_stop_after_child, alpha)
      else
        let best_move := if score >? best_score then move else best_move in
        let best_score := if score >? best_score then score else best_score in
        if score >=? beta then
          modify (set_tt (fun t => store t key best_move depth beta TT_BETA)) ;;;
          ret (Ret_beta_cutoff, beta)
        else
          let flag := if score >? alpha then TT_EXACT else flag in
          let alpha := if score >? alpha then score else alpha in
          negamax_moves rec key depth beta rest (i + 1) alpha best_score
            best_move flag
  end.

(** The early return on a table hit (lines 343-351), if there is one. *)
Definition tt_cutoff (tt_entry : option TTEntry) (depth alpha beta : Z)
  : option (Exit * Z) :=
  match tt_entry with
  | Some e =>
      if tte_depth e >=? depth then
        if bool_decide (tte_flag e = TT_EXACT) then Some (Ret_tt_exact, tte_score e)
        else if bool_decide (tte_flag e = TT_ALPHA) && (tte_score e <=? alpha)
        then Some (Ret_tt_alpha, alpha)
        else if bool_decide (tte_flag e = TT_BETA) && (tte_score e >=? beta)
        then Some (Ret_tt_beta, beta)
        else None
      else None
  | None => None
  end.

(** Lines 380-432: move generation, the empty-list returns, ordering and the
    move loop. *)
Definition negamax_search_moves (rec : Z -> Z -> Z -> bool -> M Z)
    (key depth alpha beta : Z) (tt_move : Move) : M (Exit * Z) :=
  b <- gets board ;;
  let moves := legalmoves b in
  match moves with
  | [] =>
      if inCheck b then
        n <- gets nodes_searched ;; ret (Ret_no_moves_in_check, - MATE_VALUE + n)
      else ret (Ret_no_moves_draw, DRAW_VALUE)
  | _ =>
      let moves := order_moves b moves tt_move in
      negamax_moves (fun a b => rec (depth - 1) a b true) key depth beta
        (map fst moves) 0 alpha (- INF) NO_MOVE TT_ALPHA
  end.

(** The body of [negamax]; [quiesce alpha beta] is the call
    [quiescence(alpha, beta)] and [rec] the recursive call. *)
Definition negamax_body (quiesce : Z -> Z -> M Z)
    (rec : Z -> Z -> Z -> bool -> M Z)
    (depth alpha beta : Z) (null_move_allowed : bool) : M (Exit * Z) :=
  stop <- gets stop_search ;;
  if stop then ret (Ret_stop_at_entry, alpha)
  else if depth <=? 0 then
    r <- quiesce alpha beta ;; ret (Ret_quiescence, r)
  else
    expired <- count_node_and_poll ;;
    if expired then ret (Ret_stop_at_poll, alpha)
    else
      b <- gets board ;;
      let key := hash b in
      t <- gets tt ;;
      let tt_entry := probe t key in
      match tt_cutoff tt_entry depth alpha beta with
      | Some r => ret r
      | None =>
          let tt_move :=
            match tt_entry with Some e => tte_best_move e | None => NO_MOVE end in
          if isHalfMoveDraw b || isRepetition b then
            ret (Ret_draw_shortcut, DRAW_VALUE)
          else if bool_decide (isGameOver b <> NONE) then
            if bool_decide (isGameOver b = CHECKMATE) then
              n <- gets nodes_searched ;; ret (Ret_checkmate, - MATE_VALUE + n)
            else ret (Ret_game_over_draw, DRAW_VALUE)
          else if null_move_allowed && (depth >=? 3) && negb (inCheck b)
                  && hasNonPawnMaterial b (sideToMove b) then
            modify (set_board makeNullMove) ;;;
            r <- rec (depth - 1 - 2) (- beta) (- beta + 1) false ;;
            let null_score := - r in
            modify (set_board unmakeNullMove) ;;;
            if null_score >=? beta then ret (Ret_null_cutoff, beta)
            else negamax_search_moves rec key depth alpha beta tt_move
          else negamax_search_moves rec key depth alpha beta tt_move
      end.

(** [negamax] with the tag of its return statement; [fuel] bounds the depth
    of the call stack, shared with [quiescence]. *)
Fixpoint negamax_tagged (fuel : nat) (depth alpha beta : Z)
    (null_move_allowed : bool) : M (Exit * Z) :=
  match fuel with
  | O => out_of_fuel
  | S fuel' =>
      negamax_body
        (fun a b => quiescence fuel' a b 0)
        (fun d a b n => r <- negamax_tagged fuel' d a b n ;; ret (snd r))
        depth alpha beta null_move_allowed
  end.

(** [negamax] *)
Definition negamax (fuel : nat) (depth alpha beta : Z)
    (null_move_allowed : bool) : M Z :=
  r <- negamax_tagged fuel depth alpha beta null_move_allowed ;; ret (snd r).

(** The returns that write the table before leaving. *)
Definition storing_exit (ex : Exit) : bool :=
  match ex with
  | Ret_beta_cutoff | Ret_best_score => true
  | _ => false
  end.

(** What each return statement returns, for a call
    [negamax(depth, alpha, beta, _)] entered in state [s] and left in state
    [s'] with the score [r]. *)
Definition negamax_exit_spec (depth alpha beta : Z) (s : ChessEngine)
    (ex : Exit) (r : Z) (s' : ChessEngine) : Prop :=
  match ex with
  | Ret_stop_at_entry => stop_search s = true /\ r = alpha /\ s' = s
  | Ret_stop_at_poll =>
      stop_search s' = true /\ r = alpha /\ tt s' = tt s /\ board s' = board s
  | Ret_stop_after_child =>
      stop_search s' = true /\ alpha <= r /\ (alpha < beta -> r < beta)
  | Ret_quiescence => alpha < beta -> alpha <= r <= beta
  | Ret_tt_exact =>
      exists e, probe (tt s) (hash (board s)) = Some e
                /\ tte_depth e >= depth /\ tte_flag e = TT_EXACT
                /\ r = tte_score e
  | Ret_tt_alpha => r = alpha
  | Ret_tt_beta => r = beta
  | Ret_null_cutoff => r = beta
  | Ret_draw_shortcut | Ret_game_over_draw | Ret_no_moves_draw => r = DRAW_VALUE
  | Ret_checkmate | Ret_no_moves_in_check =>
      r = - MATE_VALUE + nodes_searched s'
  | Ret_beta_cutoff => r = beta
  | Ret_best_score => r < beta \/ r = - INF
  end.

(** ** Search driver *)

(** [is_move_legal] *)
Definition is_move_legal (b : Board) (move : Move) : bool :=
  existsb (fun legal_move => bool_decide (legal_move = move)) (legalmoves b).

(** [get_first_legal_move] *)
Definition get_first_legal_move (b : Board) : Move :=
  match legalmoves b with
  | m :: _ => m
  | [] => NO_MOVE
  end.

(** The line printed after a completed iteration (lines 454-458). *)
Definition info_line (depth score nodes ms : Z) (best_move : Move) : string :=
  ("info depth " ++ pretty depth ++ " score cp " ++ pretty score
   ++ " nodes " ++ pretty nodes ++ " time " ++ pretty ms
   ++ " pv " ++ moveToUci best_move)%string.

(** The iterative-deepening loop of [search] (lines 442-460) from [depth]
    on; [fuel] bounds the number of tests of the loop condition and the call
    stack of each [negamax]. *)
Fixpoint search_loop (fuel : nat) (depth max_depth : Z) (best_move : Move)
  : M Move :=
  match fuel with
  | O => out_of_fuel
  | S fuel' =>
      stop <- gets stop_search ;;
      if (depth <=? max_depth) && negb stop then
        score <- negamax fuel' depth (- INF) INF true ;;
        stop <- gets stop_search ;;
        best_move <-
          (if negb stop then
             b <- gets board ;;
             t <- gets tt ;;
             let best_move :=
               match probe t (hash b) with
               | Some entry =>
                   if bool_decide (tte_best_move entry <> NO_MOVE)
                   then tte_best_move entry else best_move
               | None => best_move
               end in
             t1 <- now ;;
             start <- gets search_start ;;
             let ms := Z.quot (t1 - start) ticks_per_ms in
             n <- gets nodes_searched ;;
             modify (put_cout (info_line depth score n ms best_move)) ;;;
             ret best_move
           else ret best_move) ;;
        search_loop fuel' (depth + 1) max_depth best_move
      else ret best_move
  end.

(** [search] *)
Definition search (fuel : nat) (max_depth : Z) : M Move :=
  modify (set_stop_search false) ;;;
  modify (set_nodes_searched (fun _ => 0)) ;;;
  t0 <- now ;;
  modify (set_search_start t0) ;;;
  best_move <- search_loop fuel 1 max_depth NO_MOVE ;;
  b <- gets board ;;
  if bool_decide (best_move = NO_MOVE) || negb (is_move_legal b best_move)
  then ret (get_first_legal_move b)
  else ret best_move.

(** ** Protocol loop: the end of the [go] command (lines 696-708), once its
    parameters have been read. *)
Definition uci_go (fuel : nat) (depth : Z) : M unit :=
  best_move <- search fuel depth ;;
  best_move <-
    (if bool_decide (best_move = NO_MOVE) then
       modify (put_cerr "No legal move found!") ;;;
       b <- gets board ;; ret (get_first_legal_move b)
     else ret best_move) ;;
  if bool_decide (best_move <> NO_MOVE) then
    modify (put_cout ("bestmove " ++ moveToUci best_move)%string)
  else
    modify (put_cerr "No legal moves available!") ;;;
    modify (put_cout "bestmove 0000").

End Engine.

Arguments TTEntry : clear implicits.
Arguments TranspositionTable : clear implicits.
Arguments ChessEngine : clear implicits.
Arguments M : clear implicits.

(** ** The ordering key as the specification words it

    The capture key is [piece_value[captured] - piece_value[mover] + 1000]
    for every capture, with the piece that the move takes off the board as
    [captured]; an en-passant capture takes a pawn of the side not to
    move. *)
Section Spec_order_key.
Context {Board Move : Type} `{!ChessLib Board Move}.

Definition opposite (c : Color) : Color :=
  match c with WHITE => BLACK | BLACK => WHITE end.

Definition captured_piece (b : Board) (move : Move) : Piece :=
  if bool_decide (typeOf move = ENPASSANT)
  then MkPiece (opposite (sideToMove b)) PAWN
  else at_sq b (move_to move).

Definition spec_order_key (b : Board) (tt_move move : Move) : Z :=
  (if bool_decide (move = tt_move) then 10000
   else if isCapture b move then
     tbl piece_values (PieceType_internal (piece_type (captured_piece b move)))
     - tbl piece_values (PieceType_internal (piece_type (at_sq b (move_from move))))
     + 1000
   else if bool_decide (typeOf move = PROMOTION) then
     tbl piece_values (PieceType_internal (promotionType move)) + 500
   else 0)
  + (if inCheck (makeMove b move) then 100 else 0).

End Spec_order_key.

(** ** The contract of the library

    What the proofs below use of [chess.hpp] and of [std::sort]: unmaking a
    legal move (or a null move) restores the position, captures are legal
    moves, the sentinel [NO_MOVE] is never generated, and the sort returns a
    permutation ordered by descending score. *)
Class ChessLaws (Board Move : Type) `{!ChessLib Board Move} : Prop := {
  unmake_make : forall (b : Board) (m : Move),
    In m (legalmoves b) -> unmakeMove (makeMove b m) m = b;
  unmake_make_null : forall b : Board, unmakeNullMove (makeNullMove b) = b;
  captures_legal : forall (b : Board) (m : Move),
    In m (legalmoves_CAPTURE b) -> In m (legalmoves b);
  NO_MOVE_not_legal : forall b : Board, ~ In NO_MOVE (legalmoves b);
  sort_by_score_perm : forall l : list (Move * Z), Permutation (sort_by_score l) l;
  sort_by_score_sorted : forall l : list (Move * Z),
    Sorted (fun x y => snd x >= snd y) (sort_by_score l);
}.

(** ** A small instance of the interface

    Positions are the nodes of a finite game tree, each carrying what the
    library reports about it; the board is the current node and the stack of
    the nodes above it, which [makeMove] pushes and [unmakeMove] pops. *)
Module Toy.

Record Move := {
  m_from : Square;
  m_to : Square;
  m_type : MoveType;
  m_promotion : PieceType;
}.

#[global] Instance Move_eq_dec : EqDecision Move.
Proof. solve_decision. Defined.

(** The library encodes [Move::NO_MOVE] as the move word 0. *)
Definition no_move : Move :=
  {| m_from := 0; m_to := 0; m_type := NORMAL; m_promotion := KNIGHT |}.

Record Info := {
  i_hash : Z;
  i_sideToMove : Color;
  i_result : GameResultReason;
  i_inCheck : bool;
  i_halfMoveDraw : bool;
  i_repetition : bool;
  i_pieces : list (Square * Piece);
}.

#[local] Unset Elimination Schemes.
Inductive Tree :=
  | Node (info : Info) (children : list (Move * Tree)) (null_child : option Tree).
#[local] Set Elimination Schemes.

Definition info (t : Tree) : Info := match t with Node i _ _ => i end.
Definition children (t : Tree) : list (Move * Tree) :=
  match t with Node _ c _ => c end.
Definition null_child (t : Tree) : option Tree :=
  match t with Node _ _ n => n end.

Record Board := {
  current : Tree;
  above : list Tree;
}.

Definition piece_at (b : Board) (sq : Square) : Piece :=
  match find (fun p => fst p =? sq) (i_pieces (info (current b))) with
  | Some p => snd p
  | None => Piece_NONE
  end.

Definition count_of (b : Board) (p : Piece) : Z :=
  Z.of_nat (length (List.filter (fun q => bool_decide (snd q = p))
                           (i_pieces (info (current b))))).

Definition king_square (b : Board) (c : Color) : Square :=
  match find (fun q => bool_decide (snd q = MkPiece c KING))
             (i_pieces (info (current b))) with
  | Some q => fst q
  | None => 64
  end.

Definition has_non_pawn_material (b : Board) (c : Color) : bool :=
  existsb (fun q => bool_decide (snd q = MkPiece c KNIGHT)
                    || bool_decide (snd q = MkPiece c BISHOP)
                    || bool_decide (snd q = MkPiece c ROOK)
                    || bool_decide (snd q = MkPiece c QUEEN))
          (i_pieces (info (current b))).

(** [Board::isCapture] of the library: a piece stands on the destination
    square (castling apart, which the library writes as king takes rook), or
    the move is an en-passant capture, whose destination square is empty. *)
Definition is_capture (b : Board) (m : Move) : bool :=
  (bool_decide (piece_at b (m_to m) <> Piece_NONE)
   && bool_decide (m_type m <> CASTLING))
  || bool_decide (m_type m = ENPASSANT).

Definition legal (b : Board) : list Move :=
  List.filter (fun m => bool_decide (m <> no_move)) (map fst (children (current b))).

Definition captures (b : Board) : list Move :=
  List.filter (is_capture b) (legal b).

(** [makeMove] descends to the child reached by the move and remembers the
    position left; [unmakeMove] returns to it. *)
Definition make (b : Board) (m : Move) : Board :=
  {| current :=
       match find (fun c => bool_decide (fst c = m)) (children (current b)) with
       | Some c => snd c
       | None => current b
       end;
     above := current b :: above b |}.

Definition unmake (b : Board) (m : Move) : Board :=
  match above b with
  | t :: rest => {| current := t; above := rest |}
  | [] => b
  end.

Definition make_null (b : Board) : Board :=
  {| current := match null_child (current b) with
                | Some t => t
                | None => current b
                end;
     above := current b :: above b |}.

Definition unmake_null (b : Board) : Board :=
  match above b with
  | t :: rest => {| current := t; above := rest |}
  | [] => b
  end.

(** Coordinate notation, [0000] for the sentinel. *)
Definition square_name (sq : Square) : string :=
  String (Ascii.ascii_of_N (Z.to_N (97 + Z.land sq 7)))
    (String (Ascii.ascii_of_N (Z.to_N (49 + Z.shiftr sq 3))) EmptyString).

Definition to_uci (m : Move) : string :=
  if bool_decide (m = no_move) then "0000"%string
  else (square_name (m_from m) ++ square_name (m_to m)
        ++ match m_type m, m_promotion m with
           | PROMOTION, KNIGHT => "n"
           | PROMOTION, BISHOP => "b"
           | PROMOTION, ROOK => "r"
           | PROMOTION, QUEEN => "q"
           | _, _ => ""
           end)%string.

(** Insertion sort by descending score. *)
Fixpoint insert_by_score (x : Move * Z) (l : list (Move * Z)) : list (Move * Z) :=
  match l with
  | [] => [x]
  | y :: l' => if snd x >? snd y then x :: l else y :: insert_by_score x l'
  end.

Definition insertion_sort (l : list (Move * Z)) : list (Move * Z) :=
  fold_right insert_by_score [] l.

#[global] Instance lib : ChessLib Board Move := {|
  NO_MOVE := no_move;
  move_from := m_from;
  move_to := m_to;
  typeOf := m_type;
  promotionType := m_promotion;
  moveToUci := to_uci;
  sq_file := fun sq => Z.land sq 7;
  sq_rank := fun sq => Z.shiftr sq 3;
  sideToMove := fun b => i_sideToMove (info (current b));
  at_sq := piece_at;
  isGameOver := fun b => i_result (info (current b));
  isHalfMoveDraw := fun b => i_halfMoveDraw (info (current b));
  isRepetition := fun b => i_repetition (info (current b));
  inCheck := fun b => i_inCheck (info (current b));
  hasNonPawnMaterial := has_non_pawn_material;
  isCapture := is_capture;
  pawn_count := fun b c => count_of b (MkPiece c PAWN);
  kingSq := king_square;
  hash := fun b => i_hash (info (current b)) mod 2 ^ 64;
  legalmoves := legal;
  legalmoves_CAPTURE := captures;
  makeMove := make;
  unmakeMove := unmake;
  makeNullMove := make_null;
  unmakeNullMove := unmake_null;
  sort_by_score := insertion_sort;
|}.

(** *** Positions

    Squares are numbered from a1 = 0 to h8 = 63, file first. *)

Definition mv (from to : Square) : Move :=
  {| m_from := from; m_to := to; m_type := NORMAL; m_promotion := KNIGHT |}.

Definition leaf (i : Info) : Tree := Node i [] None.

Definition at_root (t : Tree) : Board := {| current := t; above := [] |}.

(** [R5k1/5ppp/8/8/8/8/5PPP/6K1 b - - 0 1]: Black, to move, is mated on the
    back rank. *)
Definition back_rank_mate : Tree :=
  leaf {| i_hash := 1001; i_sideToMove := BLACK; i_result := CHECKMATE;
          i_inCheck := true; i_halfMoveDraw := false; i_repetition := false;
          i_pieces := [ (6, MkPiece WHITE KING); (13, MkPiece WHITE PAWN);
                        (14, MkPiece WHITE PAWN); (15, MkPiece WHITE PAWN);
                        (56, MkPiece WHITE ROOK); (62, MkPiece BLACK KING);
                        (53, MkPiece BLACK PAWN); (54, MkPiece BLACK PAWN);
                        (55, MkPiece BLACK PAWN) ] |}.

(** [4k3/8/8/8/8/8/4R3/4K3 b - - 0 1]: Black, to move, is in check from the
    rook and has the four king moves d8, f8, d7, f7. *)
Definition king_after (sq : Square) : Tree :=
  leaf {| i_hash := 2000 + sq; i_sideToMove := WHITE; i_result := NONE;
          i_inCheck := false; i_halfMoveDraw := false; i_repetition := false;
          i_pieces := [ (4, MkPiece WHITE KING); (12, MkPiece WHITE ROOK);
                        (sq, MkPiece BLACK KING) ] |}.

Definition rook_check : Tree :=
  Node {| i_hash := 2060; i_sideToMove := BLACK; i_result := NONE;
          i_inCheck := true; i_halfMoveDraw := false; i_repetition := false;
          i_pieces := [ (4, MkPiece WHITE KING); (12, MkPiece WHITE ROOK);
                        (60, MkPiece BLACK KING) ] |}
       [ (mv 60 59, king_after 59); (mv 60 61, king_after 61);
         (mv 60 51, king_after 51); (mv 60 53, king_after 53) ]
       None.

(** [4k3/8/8/3pP3/8/8/8/4K3 w - d6 0 1]: White may capture the pawn on d5
    en passant, moving e5 to the empty square d6.  The tree is cut off below
    the positions reached by White's seven moves. *)
Definition en_passant_move : Move :=
  {| m_from := 36; m_to := 43; m_type := ENPASSANT; m_promotion := KNIGHT |}.

Definition after_white (hash_ : Z) (pieces : list (Square * Piece)) : Tree :=
  leaf {| i_hash := hash_; i_sideToMove := BLACK; i_result := NONE;
          i_inCheck := false; i_halfMoveDraw := false; i_repetition := false;
          i_pieces := pieces |}.

Definition after_white_king (sq : Square) : Tree :=
  after_white (3000 + sq)
    [ (sq, MkPiece WHITE KING); (36, MkPiece WHITE PAWN);
      (35, MkPiece BLACK PAWN); (60, MkPiece BLACK KING) ].

Definition en_passant_position : Tree :=
  Node {| i_hash := 3100; i_sideToMove := WHITE; i_result := NONE;
          i_inCheck := false; i_halfMoveDraw := false; i_repetition := false;
          i_pieces := [ (4, MkPiece WHITE KING); (36, MkPiece WHITE PAWN);
                        (35, MkPiece BLACK PAWN); (60, MkPiece BLACK KING) ] |}
       [ (mv 4 3, after_white_king 3); (mv 4 5, after_white_king 5);
         (mv 4 11, after_white_king 11); (mv 4 12, after_white_king 12);
         (mv 4 13, after_white_king 13);
         (mv 36 44, after_white 3144
            [ (4, MkPiece WHITE KING); (44, MkPiece WHITE PAWN);
              (35, MkPiece BLACK PAWN); (60, MkPiece BLACK KING) ]);
         (en_passant_move, after_white 3143
            [ (4, MkPiece WHITE KING); (43, MkPiece WHITE PAWN);
              (60, MkPiece BLACK KING) ]) ]
       None.

(** [7k/5Q2/6K1/8/8/8/8/8 b - - 0 1]: Black, to move, is stalemated. *)
Definition stalemate : Tree :=
  leaf {| i_hash := 4001; i_sideToMove := BLACK; i_result := STALEMATE;
          i_inCheck := false; i_halfMoveDraw := false; i_repetition := false;
          i_pieces := [ (46, MkPiece WHITE KING); (53, MkPiece WHITE QUEEN);
                        (63, MkPiece BLACK KING) ] |}.

(** [8/8/4k3/8/8/4K3/4R3/8 w - - 100 80]: the fifty-move rule applies.  The
    search returns before it generates the moves of this position, which are
    left out. *)
Definition fifty_move_draw : Tree :=
  leaf {| i_hash := 5001; i_sideToMove := WHITE; i_result := FIFTY_MOVE_RULE;
          i_inCheck := false; i_halfMoveDraw := true; i_repetition := false;
          i_pieces := [ (20, MkPiece WHITE KING); (12, MkPiece WHITE ROOK);
                        (44, MkPiece BLACK KING) ] |}.

(** [7K/8/8/8/8/8/1Q6/k7 b - - 0 1]: Black is in check from the unprotected
    queen and has the single legal move a1xb2, after which only the kings
    remain and the game is drawn for insufficient material. *)
Definition bare_kings : Tree :=
  leaf {| i_hash := 6009; i_sideToMove := WHITE;
          i_result := INSUFFICIENT_MATERIAL;
          i_inCheck := false; i_halfMoveDraw := false; i_repetition := false;
          i_pieces := [ (63, MkPiece WHITE KING); (9, MkPiece BLACK KING) ] |}.

Definition forced_capture : Tree :=
  Node {| i_hash := 6000; i_sideToMove := BLACK; i_result := NONE;
          i_inCheck := true; i_halfMoveDraw := false; i_repetition := false;
          i_pieces := [ (63, MkPiece WHITE KING); (9, MkPiece WHITE QUEEN);
                        (0, MkPiece BLACK KING) ] |}
       [ (mv 0 9, bare_kings) ]
       None.

(** A table of 16 empty slots. *)
Definition empty_table : TranspositionTable Move :=
  {| table := replicate 16 TTEntry_default; size_mask := 15 |}.

(** An engine on the given position: a table of 16 empty slots, the default
    time limit, and a clock that advances one millisecond per reading. *)
Definition engine_on (t : Tree) : ChessEngine Board Move :=
  {| board := at_root t;
     tt := empty_table;
     stop_search := false;
     nodes_searched := 0;
     search_start := 0;
     time_limit := 5000;
     steady_clock_readings := fun n => Z.of_nat n * ticks_per_ms;
     steady_clock_calls := 0;
     cout := [];
     cerr := [] |}.

(** The table after a depth-3 entry for key 2060 went into slot 12. *)
Definition table_with_entry : TranspositionTable Move :=
  store empty_table 2060 (mv 60 59) 3 50 TT_EXACT.

(** The engine of the en-passant position with an exact depth-5 entry of
    score 50 for that position in its table. *)
Definition engine_with_exact_entry : ChessEngine Board Move :=
  set_tt (fun t => store t 3100 (mv 36 44) 5 50 TT_EXACT)
         (engine_on en_passant_position).

(** The engine of the en-passant position four nodes before a poll, with a
    time limit that has run out. *)
Definition engine_out_of_time : ChessEngine Board Move :=
  set_nodes_searched (fun _ => 1020)
    (set_time_limit (-1) (engine_on en_passant_position)).

End Toy.


(** ** Position set-up through the protocol

    [uci::uciToMove] of the library, which [ChessEngine::make_move] calls
    inside its [try] block: the move it returns, or the message of the
    exception it throws. *)
Class UciLib (Board Move : Type) := {
  uciToMove : Board -> string -> Move + string;
}.

Section Engine_methods.
Context {Board Move : Type} `{!ChessLib Board Move} `{!UciLib Board Move}.

(** [ChessEngine::make_move] (lines 112-138) *)
Definition make_move (move_str : string) (s : ChessEngine Board Move)
  : ChessEngine Board Move :=
  match uciToMove (board s) move_str with
  | inl move =>
      if bool_decide (move <> NO_MOVE) then
        let legal_moves := legalmoves (board s) in
        let is_legal :=
          existsb (fun legal_move => bool_decide (legal_move = move)) legal_moves in
        if is_legal then set_board (fun b => makeMove b move) s
        else put_cerr ("Illegal move attempted: " ++ move_str)%string s
      else put_cerr ("Invalid move format: " ++ move_str)%string s
  | inr what => put_cerr ("Error making move: " ++ what)%string s
  end.

(** The loop [while (iss >> move) engine.make_move(move);] of the [position]
    command (lines 653-655 and 670-672), over the tokens it reads. *)
Definition make_moves (moves : list string) (s : ChessEngine Board Move)
  : ChessEngine Board Move :=
  fold_left (fun s move => make_move move s) moves s.

(** [ChessEngine::stop] *)
Definition stop (s : ChessEngine Board Move) : ChessEngine Board Move :=
  set_stop_search true s.

(** [ChessEngine::new_game] (lines 98-101), given the position [startpos]
    that [board.setFen(constants::STARTPOS)] sets up. *)
Definition new_game (startpos : Board) (s : ChessEngine Board Move)
  : ChessEngine Board Move :=
  set_tt clear (set_board (fun _ => startpos) s).

(** A line of play: each move is legal where it is made. *)
Inductive legal_line : Board -> list Move -> Board -> Prop :=
  | legal_line_nil (b : Board) : legal_line b [] b
  | legal_line_cons (b : Board) (m : Move) (ms : list Move) (b' : Board) :
      In m (legalmoves b) -> legal_line (makeMove b m) ms b' ->
      legal_line b (m :: ms) b'.

(** Every entry with a non-zero key sits in the slot its key indexes. *)
Definition tt_home (t : TranspositionTable Move) : Prop :=
  forall (i : nat) (e : TTEntry Move),
    table t !! i = Some e -> tte_key e <> 0 ->
    Z.to_nat (tt_index t (tte_key e)) = i.

(** The clock reads not accounted for by the node count, one read being due
    at every multiple of 1024 nodes. *)
Definition clock_reads_beyond_polls (s : ChessEngine Board Move) : Z :=
  Z.of_nat (steady_clock_calls s) - nodes_searched s / 1024.

(** What a search leaves alone or only moves one way: the output streams,
    the time settings and the clock's own course are untouched, the node and
    clock-call counters do not decrease, the table keeps its mask and length,
    [stop_search] is not cleared, and the clock is read once for every
    multiple of 1024 that the node count reaches. *)
Definition search_frame (s s' : ChessEngine Board Move) : Prop :=
  cout s' = cout s /\ cerr s' = cerr s
  /\ time_limit s' = time_limit s /\ search_start s' = search_start s
  /\ steady_clock_readings s' = steady_clock_readings s
  /\ nodes_searched s <= nodes_searched s'
  /\ (steady_clock_calls s <= steady_clock_calls s')%nat
  /\ size_mask (tt s') = size_mask (tt s)
  /\ length (table (tt s')) = length (table (tt s))
  /\ (stop_search s = true -> stop_search s' = true)
  /\ clock_reads_beyond_polls s' = clock_reads_beyond_polls s.

(** What a call [negamax(depth, alpha, beta, _)] on the position [b] hands
    to [tt.store] before the return [ex] with the score [r] (lines 417-422
    and 430-431): the best move [bm] and the flag [fl]. *)
Definition stored_entry_spec (b : Board) (alpha beta : Z) (ex : Exit) (r : Z)
    (bm : Move) (fl : TTFlag) : Prop :=
  match ex with
  | Ret_beta_cutoff => fl = TT_BETA /\ r = beta /\ In bm (legalmoves b)
  | Ret_best_score =>
      (fl = TT_EXACT /\ alpha < r < beta /\ In bm (legalmoves b))
      \/ (fl = TT_ALPHA /\ r <= alpha
          /\ (bm = NO_MOVE /\ r = - INF \/ In bm (legalmoves b)))
  | _ => False
  end.

End Engine_methods.

(** The protocol side of the small instance: a string is read as the legal
    move of the position with that coordinate notation, and as the sentinel
    when there is none; the empty string is refused with an exception. *)
Module ToyUci.

Definition uci_to_move (b : Toy.Board) (str : string) : Toy.Move + string :=
  if String.eqb str "" then inr "empty move"%string
  else
    match find (fun m => String.eqb (Toy.to_uci m) str) (Toy.legal b) with
    | Some m => inl m
    | None => inl Toy.no_move
    end.

#[global] Instance uci_lib : UciLib Toy.Board Toy.Move := {|
  uciToMove := uci_to_move;
|}.

End ToyUci.

(** * Properties *)

(** ** Transposition table *)

Section TT_properties.
Context {Board Move : Type} `{!ChessLib Board Move}.

Lemma land_mask_mod (key k : Z) : 0 <= k -> Z.land key (2 ^ k - 1) = key mod 2 ^ k.
Proof.
  intros Hk. rewrite <- Z.land_ones by assumption.
  now rewrite Z.ones_equiv, <- Z.sub_1_r.
Qed.

Lemma tt_index_in_range (t : TranspositionTable Move) (key : Z) :
  tt_wf t -> (Z.to_nat (tt_index t key) < length (table t))%nat.
Proof.
  intros (k & Hk & Hlen & Hmask). unfold tt_index. rewrite Hmask, land_mask_mod by assumption.
  assert (0 <= key mod 2 ^ k < 2 ^ k) by (apply Z.mod_pos_bound; lia).
  lia.
Qed.

Lemma tt_wf_store (t : TranspositionTable Move) key (move : Move) depth score flag :
  tt_wf t -> tt_wf (store t key move depth score flag).
Proof.
  intros (k & Hk & Hlen & Hmask). exists k. unfold store.
  destruct (table t !! _); [destruct (store_replaces _ _ _)|]; cbn;
    rewrite ?length_insert; auto.
Qed.

Lemma tt_wf_clear (t : TranspositionTable Move) : tt_wf t -> tt_wf (clear t).
Proof.
  intros (k & Hk & Hlen & Hmask). exists k. cbn. now rewrite length_replicate.
Qed.

Lemma store_replaces_spec (entry : TTEntry Move) (key depth : Z) :
  store_replaces entry key depth = true <->
  tte_key entry = 0 \/ tte_depth entry <= depth \/ tte_key entry = key.
Proof.
  unfold store_replaces. rewrite !orb_true_iff, !Z.eqb_eq, Z.leb_le. tauto.
Qed.

(** The doubling loop started at [2 ^ k] ends at the least power of two that
    reaches [size], without overflow, as long as [size <= 2 ^ 63]. *)
Lemma grow_actual_size_spec (fuel : nat) : forall (k size : Z),
  0 <= k -> size <= 2 ^ 63 -> (k = 0 \/ 2 ^ (k - 1) < size) ->
  64 - k < Z.of_nat fuel ->
  exists j, k <= j <= 63 /\ grow_actual_size fuel size (2 ^ k) = Some (2 ^ j)
            /\ size <= 2 ^ j /\ (j = 0 \/ 2 ^ (j - 1) < size).
Proof.
  induction fuel as [|fuel IH]; intros k size Hk Hsize Hprev Hfuel.
  - assert (k <= 63); [|lia].
    destruct Hprev as [->|Hprev]; [lia|].
    apply Z.lt_succ_r. replace (Z.succ 63) with (63 + 1) by lia.
    apply Z.lt_sub_lt_add_r. apply (Z.pow_lt_mono_r_iff 2); lia.
  - cbn [grow_actual_size]. destruct (Z.ltb_spec (2 ^ k) size) as [Hlt|Hge].
    + assert (k < 63) by (apply (Z.pow_lt_mono_r_iff 2); lia).
      assert (Hsh : wrap_size_t (Z.shiftl (2 ^ k) 1) = 2 ^ (k + 1)).
      { rewrite Z.shiftl_mul_pow2 by lia. unfold wrap_size_t.
        rewrite <- Z.pow_add_r by lia. apply Z.mod_small.
        split; [apply Z.pow_nonneg; lia|apply Z.pow_lt_mono_r; lia]. }
      rewrite Hsh.
      destruct (IH (k + 1) size) as (j & Hj & Hrun & Hle & Hmin); try lia.
      { right. now replace (k + 1 - 1) with k by lia. }
      exists j. repeat split; try lia; assumption.
    + exists k. repeat split; try lia; try assumption.
      destruct Hprev as [->|Hprev]; [lia|].
      assert (k - 1 < 63) by (apply (Z.pow_lt_mono_r_iff 2); lia). lia.
Qed.

(** C4: [store] overwrites the slot [key & size_mask] with the new entry
    exactly when the slot is empty (key 0), or its depth is at most the new
    depth, or it holds the same key; otherwise that slot keeps its entry.
    Every other slot, the mask and the length are unchanged in both cases. *)
Theorem store_replacement_policy (t : TranspositionTable Move) (key : Z)
    (move : Move) (depth score : Z) (flag : TTFlag) :
  tt_wf t ->
  let index := Z.to_nat (Z.land key (size_mask t)) in
  let new := {| tte_key := key; tte_best_move := move; tte_depth := depth;
                tte_score := score; tte_flag := flag |} in
  let t' := store t key move depth score flag in
  exists old,
    table t !! index = Some old
    /\ (tte_key old = 0 \/ tte_depth old <= depth \/ tte_key old = key ->
        table t' !! index = Some new)
    /\ (~ (tte_key old = 0 \/ tte_depth old <= depth \/ tte_key old = key) ->
        t' = t)
    /\ (forall j : nat, j <> index -> table t' !! j = table t !! j)
    /\ size_mask t' = size_mask t
    /\ length (table t') = length (table t).
Proof.
  intros Hwf index new t'.
  pose proof (tt_index_in_range t key Hwf) as Hrange. fold index in Hrange.
  destruct (lookup_lt_is_Some_2 (table t) index Hrange) as [old Hold].
  exists old. subst t'. unfold store. fold index. unfold tt_index. fold index.
  rewrite Hold.
  destruct (store_replaces old key depth) eqn:Hrep; cbn.
  - apply store_replaces_spec in Hrep.
    repeat split; intros; try tauto.
    + now apply list_lookup_insert_eq.
    + now apply list_lookup_insert_ne.
    + apply length_insert.
  - assert (Hn : ~ (tte_key old = 0 \/ tte_depth old <= depth \/ tte_key old = key)).
    { rewrite <- store_replaces_spec, Hrep. discriminate. }
    repeat split; intros; try tauto.
Qed.

Lemma store_keeps_shape (t : TranspositionTable Move) key (move : Move)
    depth score flag :
  size_mask (store t key move depth score flag) = size_mask t
  /\ length (table (store t key move depth score flag)) = length (table t).
Proof.
  unfold store. destruct (table t !! _); [destruct (store_replaces _ _ _)|];
    cbn; rewrite ?length_insert; auto.
Qed.

Lemma requested_entries_bound (sizeof_TTEntry size_mb : Z) :
  2 <= sizeof_TTEntry ->
  0 <= wrap_size_t (wrap_size_t (size_mb * 1024) * 1024) / sizeof_TTEntry <= 2 ^ 63.
Proof.
  intros Hsz. unfold wrap_size_t.
  set (x := ((size_mb * 1024) mod 2 ^ 64 * 1024) mod 2 ^ 64).
  assert (0 <= x < 2 ^ 64) by (apply Z.mod_pos_bound; lia).
  split; [apply Z.div_pos; lia|].
  apply Z.lt_le_incl, Z.div_lt_upper_bound; lia.
Qed.

(** The table the constructor builds: [2 ^ j] default entries and the mask
    [2 ^ j - 1], with [2 ^ j] the least power of two reaching the number of
    entries asked for. *)
Lemma TranspositionTable_new_shape (sizeof_TTEntry size_mb : Z) :
  2 <= sizeof_TTEntry ->
  let size := (size_mb * 1024 * 1024) mod 2 ^ 64 / sizeof_TTEntry in
  exists j, 0 <= j <= 63
    /\ TranspositionTable_new sizeof_TTEntry size_mb
       = Some {| table := replicate (Z.to_nat (2 ^ j)) TTEntry_default;
                 size_mask := 2 ^ j - 1 |}
    /\ size <= 2 ^ j /\ (j = 0 \/ 2 ^ (j - 1) < size).
Proof.
  intros Hsz size.
  pose proof (requested_entries_bound sizeof_TTEntry size_mb Hsz) as Hbound.
  assert (Hsize : wrap_size_t (wrap_size_t (size_mb * 1024) * 1024) / sizeof_TTEntry = size).
  { unfold size, wrap_size_t. f_equal.
    rewrite Z.mul_mod_idemp_l by lia. reflexivity. }
  rewrite Hsize in Hbound.
  destruct (grow_actual_size_spec 65 0 size) as (j & Hj & Hrun & Hle & Hmin);
    try lia.
  change (2 ^ 0) with 1 in Hrun.
  exists j. split; [lia|]. split; [|split; assumption].
  unfold TranspositionTable_new. rewrite Hsize, Hrun.
  assert (Hpos : 0 < 2 ^ j) by (apply Z.pow_pos_nonneg; lia).
  assert (Hlt : 2 ^ j < 2 ^ 64) by (apply Z.pow_lt_mono_r; lia).
  unfold wrap_size_t. rewrite Z.mod_small by lia. reflexivity.
Qed.

(** Every table the constructor builds has the shape [tt_wf], which [store]
    and [clear] keep. *)
Lemma TranspositionTable_new_wf (sizeof_TTEntry size_mb : Z) (t : TranspositionTable Move) :
  2 <= sizeof_TTEntry ->
  TranspositionTable_new sizeof_TTEntry size_mb = Some t -> tt_wf t.
Proof.
  intros Hsz Hnew.
  destruct (TranspositionTable_new_shape sizeof_TTEntry size_mb Hsz)
    as (j & Hj & Hshape & _).
  rewrite Hshape in Hnew. injection Hnew as <-.
  exists j. cbn. rewrite length_replicate.
  assert (0 < 2 ^ j) by (apply Z.pow_pos_nonneg; lia).
  repeat split; lia.
Qed.

(** On a table of the constructor's shape [probe] reads, and [store] writes,
    the slot [key & (length - 1)] and no other. *)
Lemma tt_slot_of_length (t : TranspositionTable Move) (key : Z) :
  tt_wf t ->
  Z.to_nat (tt_index t key)
  = Z.to_nat (Z.land key (Z.of_nat (length (table t)) - 1)).
Proof.
  intros (k & Hk & Hlen & Hmask). unfold tt_index. now rewrite Hmask, Hlen.
Qed.

Lemma probe_store_slot (t : TranspositionTable Move) (key : Z) :
  tt_wf t ->
  let slot := Z.to_nat (Z.land key (Z.of_nat (length (table t)) - 1)) in
  exists old,
    table t !! slot = Some old
    /\ probe t key = (if tte_key old =? key then Some old else None)
    /\ (forall move depth score flag,
          let new := {| tte_key := key; tte_best_move := move;
                        tte_depth := depth; tte_score := score;
                        tte_flag := flag |} in
          let t' := store t key move depth score flag in
          table t' !! slot
          = Some (if store_replaces old key depth then new else old)
          /\ (forall j : nat, j <> slot -> table t' !! j = table t !! j)).
Proof.
  intros Hwf slot.
  pose proof (tt_index_in_range t key Hwf) as Hrange.
  pose proof (tt_slot_of_length t key Hwf) as Hslot. fold slot in Hslot.
  rewrite Hslot in Hrange.
  destruct (lookup_lt_is_Some_2 (table t) slot Hrange) as [old Hold].
  exists old. split; [exact Hold|]. split.
  - unfold probe. rewrite Hslot, Hold. reflexivity.
  - intros move depth score flag new t'. subst t'. unfold store.
    rewrite Hslot, Hold.
    destruct (store_replaces old key depth); cbn [table].
    + split; [now apply list_lookup_insert_eq|].
      intros j Hj. now apply list_lookup_insert_ne.
    + split; [exact Hold|reflexivity].
Qed.

(** C9: for a budget of [size_mb] megabytes the constructor builds a table
    whose length is the least power of two that is at least
    [(size_mb * 1024 * 1024) / sizeof(TTEntry)], the product being taken in
    [size_t] as the constructor takes it (it is the exact product for every
    budget below [2 ^ 44] megabytes); the mask is the length minus one.  On
    every table [u] of that length and mask, which is what [store] and
    [clear] leave behind, [probe u key] reads the slot [key & (length - 1)]
    (the entry there when its key is [key], a miss otherwise), and
    [store u key ...] writes that slot (the new entry when the replacement
    test passes, the old one otherwise) and no other, keeping the length
    and the mask. *)
Theorem TranspositionTable_new_length (sizeof_TTEntry size_mb : Z) :
  2 <= sizeof_TTEntry -> 0 <= size_mb < 2 ^ 64 ->
  let size := (size_mb * 1024 * 1024) mod 2 ^ 64 / sizeof_TTEntry in
  exists t : TranspositionTable Move,
    TranspositionTable_new sizeof_TTEntry size_mb = Some t
    /\ (size_mb < 2 ^ 44 -> size = size_mb * 1024 * 1024 / sizeof_TTEntry)
    /\ let len := Z.of_nat (length (table t)) in
       is_pow2 len
       /\ size <= len
       /\ (forall p, is_pow2 p -> size <= p -> len <= p)
       /\ size_mask t = len - 1
       /\ (forall key, tt_index t key = Z.land key (len - 1))
       /\ (forall key move depth score flag,
             let t' := store t key move depth score flag in
             size_mask t' = len - 1 /\ Z.of_nat (length (table t')) = len)
       /\ (forall u : TranspositionTable Move,
             length (table u) = length (table t) -> size_mask u = size_mask t ->
             forall key,
               let slot := Z.to_nat (Z.land key (len - 1)) in
               exists old,
                 table u !! slot = Some old
                 /\ probe u key = (if tte_key old =? key then Some old else None)
                 /\ (forall move depth score flag,
                       let new := {| tte_key := key; tte_best_move := move;
                                     tte_depth := depth; tte_score := score;
                                     tte_flag := flag |} in
                       let u' := store u key move depth score flag in
                       table u' !! slot
                       = Some (if store_replaces old key depth then new else old)
                       /\ (forall j : nat, j <> slot ->
                             table u' !! j = table u !! j)
                       /\ length (table u') = length (table t)
                       /\ size_mask u' = size_mask t)
                 /\ length (table (clear u)) = length (table t)
                 /\ size_mask (clear u) = size_mask t).
Proof.
  intros Hsz Hmb size.
  destruct (TranspositionTable_new_shape sizeof_TTEntry size_mb Hsz)
    as (j & Hj & Hshape & Hle & Hmin).
  fold size in Hle, Hmin.
  eexists. split; [exact Hshape|]. split.
  { intros Hsmall. unfold size. rewrite Z.mod_small; [reflexivity|lia]. }
  assert (Hpos : 0 < 2 ^ j) by (apply Z.pow_pos_nonneg; lia).
  cbn [table size_mask]. rewrite length_replicate, Z2Nat.id by lia.
  split; [exists j; split; [lia|reflexivity]|].
  split; [exact Hle|].
  split.
  { intros p (i & Hi & ->) Hp.
    destruct Hmin as [->|Hmin]; [change (2 ^ 0) with 1; pose proof (Z.pow_pos_nonneg 2 i); lia|].
    apply Z.pow_le_mono_r; [lia|].
    assert (j - 1 < i) by (apply (Z.pow_lt_mono_r_iff 2); lia). lia. }
  split; [reflexivity|].
  split; [reflexivity|].
  split.
  { intros key move depth score flag.
    pose proof (store_keeps_shape
      {| table := replicate (Z.to_nat (2 ^ j)) TTEntry_default;
         size_mask := 2 ^ j - 1 |} key move depth score flag) as [Hm Hl].
    cbv zeta. rewrite Hm, Hl. cbn [table size_mask].
    rewrite length_replicate. split; [reflexivity|lia]. }
  intros u Hlen Hmask key.
  assert (Hlen' : Z.of_nat (length (table u)) = 2 ^ j) by (rewrite Hlen; lia).
  assert (Hwf : tt_wf u) by (exists j; repeat split; [lia|exact Hlen'|exact Hmask]).
  destruct (probe_store_slot u key Hwf) as (old & Hold & Hprobe & Hstore).
  rewrite Hlen' in Hold, Hstore.
  exists old. split; [exact Hold|]. split; [exact Hprobe|]. split.
  - intros move depth score flag.
    destruct (Hstore move depth score flag) as [Hslot Hother].
    destruct (store_keeps_shape u key move depth score flag) as [Hm Hl].
    cbv zeta. split; [exact Hslot|]. split; [exact Hother|].
    split; [now rewrite Hl|now rewrite Hm].
  - cbn [clear table size_mask]. rewrite length_replicate. split; assumption.
Qed.

End TT_properties.

(** ** Evaluation *)

Section Evaluate_properties.
Context {Board Move : Type} `{!ChessLib Board Move}.

(** C2 (as the code has it): on a checkmate [evaluate] returns [-MATE_VALUE]
    when White is to move and [+MATE_VALUE] when Black is to move, so the
    mated side receives [-30000] from its own perspective only if it is
    White. *)
Theorem evaluate_checkmate (b : Board) :
  isGameOver b = CHECKMATE ->
  evaluate b = match sideToMove b with
               | WHITE => - MATE_VALUE
               | BLACK => MATE_VALUE
               end.
Proof.
  intros Hmate. unfold evaluate. rewrite Hmate.
  rewrite bool_decide_true by discriminate.
  rewrite bool_decide_true by reflexivity.
  destruct (sideToMove b); reflexivity.
Qed.

(** C3 (amended): outside game-over positions, when the side to move is in
    check the running white-perspective score changes by [-20] if White is
    to move and by [+20] if Black is to move; after the final negation for
    Black, the value returned is in both cases 20 below the value the other
    terms give from the side to move's perspective. *)
Theorem evaluate_in_check (b : Board) :
  isGameOver b = NONE -> inCheck b = true ->
  evaluate_score b
  = evaluate_score_before_check b
    + match sideToMove b with WHITE => -20 | BLACK => 20 end
  /\ evaluate b
     = match sideToMove b with
       | WHITE => evaluate_score_before_check b
       | BLACK => - evaluate_score_before_check b
       end - 20.
Proof.
  intros Hover Hcheck. unfold evaluate, evaluate_score.
  rewrite Hover, Hcheck.
  rewrite (bool_decide_false (NONE <> NONE)) by congruence.
  destruct (sideToMove b); cbv zeta; repeat case_bool_decide;
    try congruence; split; lia.
Qed.

End Evaluate_properties.

(** The failing input of C2: in the back-rank mate with Black to move,
    [evaluate] gives the mated side [+30000]. *)
Lemma evaluate_checkmate_black_to_move :
  isGameOver (Toy.at_root Toy.back_rank_mate) = CHECKMATE
  /\ evaluate (Toy.at_root Toy.back_rank_mate) = 30000.
Proof.
  split; [reflexivity|].
  exact (evaluate_checkmate (Toy.at_root Toy.back_rank_mate) eq_refl).
Defined.

(** On the same position [negamax] scores the mate against the side to
    move, as it does for either colour. *)
Lemma negamax_checkmate_black_to_move :
  exists s', negamax 20 1 (- INF) INF true (Toy.engine_on Toy.back_rank_mate)
             = Some (- MATE_VALUE + 1, s').
Proof. eexists. vm_compute. reflexivity. Qed.

(** C3 as stated fails: with Black to move and in check from the rook, the
    running white-perspective score is 20 above, not 20 below, the score
    before the check term (610 against 590). *)
Lemma evaluate_in_check_black_counterexample :
  isGameOver (Toy.at_root Toy.rook_check) = NONE
  /\ inCheck (Toy.at_root Toy.rook_check) = true
  /\ evaluate_score_before_check (Toy.at_root Toy.rook_check) = 590
  /\ evaluate_score (Toy.at_root Toy.rook_check) = 610
  /\ evaluate_score (Toy.at_root Toy.rook_check)
     <> evaluate_score_before_check (Toy.at_root Toy.rook_check) - 20.
Proof. repeat split; vm_compute; congruence. Qed.

Lemma evaluate_in_check_witness :
  evaluate_score (Toy.at_root Toy.rook_check)
  = evaluate_score_before_check (Toy.at_root Toy.rook_check)
    + match sideToMove (Toy.at_root Toy.rook_check) with WHITE => -20 | BLACK => 20 end
  /\ evaluate (Toy.at_root Toy.rook_check)
     = match sideToMove (Toy.at_root Toy.rook_check) with
       | WHITE => evaluate_score_before_check (Toy.at_root Toy.rook_check)
       | BLACK => - evaluate_score_before_check (Toy.at_root Toy.rook_check)
       end - 20.
Proof.
  apply (evaluate_in_check (Toy.at_root Toy.rook_check)); reflexivity.
Defined.

(** ** Move ordering *)

Section Order_properties.
Context {Board Move : Type} `{!ChessLib Board Move}.

Lemma piece_value_bounds (t : PieceType) :
  0 <= tbl piece_values (PieceType_internal t) <= 20000.
Proof. destruct t; vm_compute; split; discriminate. Qed.

Lemma order_key_bounds (b : Board) (tt_move move : Move) :
  -19000 <= order_key b tt_move move <= 21100.
Proof.
  unfold order_key.
  pose proof (piece_value_bounds (piece_type (at_sq b (move_to move)))).
  pose proof (piece_value_bounds (piece_type (at_sq b (move_from move)))).
  pose proof (piece_value_bounds (promotionType move)).
  destruct (inCheck _); repeat case_bool_decide;
    try destruct (isCapture _ _); lia.
Qed.

(** [setScore] keeps the key: it fits the 16 bits of the score field. *)
Lemma wrap_int16_order_key (b : Board) (tt_move move : Move) :
  wrap_int16 (order_key b tt_move move) = order_key b tt_move move.
Proof.
  pose proof (order_key_bounds b tt_move move). unfold wrap_int16.
  rewrite Z.mod_small; lia.
Qed.

(** The key the code computes agrees with the specified key on every move
    other than an en-passant capture that is not the table move. *)
Lemma order_key_spec (b : Board) (tt_move move : Move) :
  typeOf move <> ENPASSANT \/ move = tt_move ->
  order_key b tt_move move = spec_order_key b tt_move move.
Proof.
  intros Hep. unfold order_key, spec_order_key, captured_piece.
  destruct (inCheck _); repeat case_bool_decide; try tauto;
    destruct (isCapture _ _); lia.
Qed.

Lemma order_moves_keys (b : Board) (moves : list Move) (tt_move : Move) :
  map (fun move => (move, wrap_int16 (order_key b tt_move move))) moves
  = map (fun move => (move, order_key b tt_move move)) moves.
Proof. apply map_ext. intros. now rewrite wrap_int16_order_key. Qed.

(** The part of C7 that holds: [order_moves] returns the moves it was given,
    each with the key of [order_key], in descending order of the key. *)
Lemma order_moves_sorted `{!ChessLaws Board Move} (b : Board)
    (moves : list Move) (tt_move : Move) :
  Permutation (order_moves b moves tt_move)
              (map (fun move => (move, order_key b tt_move move)) moves)
  /\ Sorted (fun x y => snd x >= snd y) (order_moves b moves tt_move).
Proof.
  unfold order_moves. rewrite order_moves_keys. split.
  - apply sort_by_score_perm.
  - apply sort_by_score_sorted.
Qed.

Lemma order_moves_In `{!ChessLaws Board Move} (b : Board) (moves : list Move)
    (tt_move m : Move) :
  In m (map fst (order_moves b moves tt_move)) <-> In m moves.
Proof.
  destruct (order_moves_sorted b moves tt_move) as [Hperm _].
  assert (Hfst : Permutation (map fst (order_moves b moves tt_move)) moves).
  { rewrite Hperm. rewrite map_map. cbn. now rewrite map_id. }
  split; intros Hin.
  - eapply Permutation_in; [exact Hfst|exact Hin].
  - eapply Permutation_in; [symmetry; exact Hfst|exact Hin].
Qed.

End Order_properties.

(** The failing input of C7: for the en-passant capture e5xd6 the code reads
    the captured piece from the empty destination square and assigns the key
    [0 - 100 + 1000 = 900], where the specified key is
    [100 - 100 + 1000 = 1000]; the move is listed with 900. *)
Lemma order_moves_en_passant_key :
  let b := Toy.at_root Toy.en_passant_position in
  In Toy.en_passant_move (legalmoves b)
  /\ isCapture b Toy.en_passant_move = true
  /\ typeOf Toy.en_passant_move = ENPASSANT
  /\ at_sq b (move_to Toy.en_passant_move) = Piece_NONE
  /\ order_key b NO_MOVE Toy.en_passant_move = 900
  /\ spec_order_key b NO_MOVE Toy.en_passant_move = 1000
  /\ In (Toy.en_passant_move, 900) (order_moves b (legalmoves b) NO_MOVE).
Proof.
  cbv zeta. repeat split; try reflexivity.
  - vm_compute. tauto.
  - vm_compute. tauto.
Qed.

(** ** Reasoning about engine methods *)

Section Monad_rules.
Context {Board Move : Type} `{!ChessLib Board Move}.

Implicit Types s : ChessEngine Board Move.

Lemma wlp_ret {A} (a : A) s Q : Q a s -> wlp (ret a) s Q.
Proof. intros HQ a' s' [= <- <-]. exact HQ. Qed.

Lemma wlp_bind {A B} (m : M Board Move A) (k : A -> M Board Move B) s Q :
  wlp m s (fun a s1 => wlp (k a) s1 Q) -> wlp (bind m k) s Q.
Proof.
  intros Hm b s' Hrun. unfold bind in Hrun.
  destruct (m s) as [[a s1]|] eqn:Em; [|discriminate].
  exact (Hm a s1 Em b s' Hrun).
Qed.

Lemma wlp_gets {A} (f : ChessEngine Board Move -> A) s Q :
  Q (f s) s -> wlp (gets f) s Q.
Proof. intros HQ a' s' [= <- <-]. exact HQ. Qed.

Lemma wlp_modify (f : ChessEngine Board Move -> ChessEngine Board Move) s Q :
  Q Datatypes.tt (f s) -> wlp (modify f) s Q.
Proof. intros HQ a' s' [= <- <-]. exact HQ. Qed.

Lemma wlp_out_of_fuel {A} s (Q : A -> ChessEngine Board Move -> Prop) :
  wlp out_of_fuel s Q.
Proof. intros a s' [=]. Qed.

Lemma wlp_now s Q :
  Q (steady_clock_readings s (steady_clock_calls s)) (tick_clock s) ->
  wlp now s Q.
Proof. intros HQ a' s' [= <- <-]. exact HQ. Qed.

Lemma wlp_weaken {A} (m : M Board Move A) s (Q Q' : A -> ChessEngine Board Move -> Prop) :
  wlp m s Q -> (forall a s', Q a s' -> Q' a s') -> wlp m s Q'.
Proof. intros Hm Himp a s' Hrun. apply Himp, Hm, Hrun. Qed.

Lemma wp_ret {A} (a : A) s Q : Q a s -> wp (ret a) s Q.
Proof. intros HQ. exists a, s. split; [reflexivity|exact HQ]. Qed.

Lemma wp_bind {A B} (m : M Board Move A) (k : A -> M Board Move B) s Q :
  wp m s (fun a s1 => wp (k a) s1 Q) -> wp (bind m k) s Q.
Proof.
  intros (a & s1 & Em & b & s' & Ek & HQ). exists b, s'.
  unfold bind. rewrite Em. split; assumption.
Qed.

Lemma wp_gets {A} (f : ChessEngine Board Move -> A) s Q :
  Q (f s) s -> wp (gets f) s Q.
Proof. intros HQ. exists (f s), s. split; [reflexivity|exact HQ]. Qed.

Lemma wp_modify (f : ChessEngine Board Move -> ChessEngine Board Move) s Q :
  Q Datatypes.tt (f s) -> wp (modify f) s Q.
Proof. intros HQ. exists Datatypes.tt, (f s). split; [reflexivity|exact HQ]. Qed.

Lemma wp_now s Q :
  Q (steady_clock_readings s (steady_clock_calls s)) (tick_clock s) ->
  wp now s Q.
Proof. intros HQ. eexists _, _. split; [reflexivity|exact HQ]. Qed.

Lemma wp_weaken {A} (m : M Board Move A) s (Q Q' : A -> ChessEngine Board Move -> Prop) :
  wp m s Q -> (forall a s', Q a s' -> Q' a s') -> wp m s Q'.
Proof. intros (a & s' & Em & HQ) Himp. exists a, s'. split; auto. Qed.

Lemma wp_wlp {A} (m : M Board Move A) s (Q Q' : A -> ChessEngine Board Move -> Prop) :
  wp m s Q -> wlp m s Q' -> wp m s (fun a s' => Q a s' /\ Q' a s').
Proof.
  intros (a & s' & Em & HQ) Hl. exists a, s'. repeat split; auto.
Qed.

End Monad_rules.

(** One step of symbolic execution of a method against [wlp] or [wp]. *)
Ltac wlp_rule :=
  lazymatch goal with
  | |- wlp (bind _ _) _ _ => apply wlp_bind
  | |- wlp (ret _) _ _ => apply wlp_ret
  | |- wlp (gets _) _ _ => apply wlp_gets
  | |- wlp (modify _) _ _ => apply wlp_modify
  | |- wlp now _ _ => apply wlp_now
  | |- wlp out_of_fuel _ _ => apply wlp_out_of_fuel
  | |- wlp (if ?c then _ else _) _ _ => destruct c eqn:?
  | |- wlp (match ?c with _ => _ end) _ _ => destruct c eqn:?
  end.

Ltac wp_rule :=
  lazymatch goal with
  | |- wp (bind _ _) _ _ => apply wp_bind
  | |- wp (ret _) _ _ => apply wp_ret
  | |- wp (gets _) _ _ => apply wp_gets
  | |- wp (modify _) _ _ => apply wp_modify
  | |- wp now _ _ => apply wp_now
  | |- wp (if ?c then _ else _) _ _ => destruct c eqn:?
  | |- wp (match ?c with _ => _ end) _ _ => destruct c eqn:?
  end.

Ltac wlp_step := wlp_rule; cbv beta.
Ltac wp_step := wp_rule; cbv beta.

(** Closing a goal about the fields of updated states. *)
Ltac use_implications :=
  repeat match goal with
         | H : (?a = ?b) -> _ |- _ =>
             let Ha := fresh in
             assert (Ha : a = b) by congruence; specialize (H Ha); clear Ha
         end.

Ltac state_facts :=
  cbn in *;
  repeat match goal with
         | |- _ /\ _ => split
         | |- _ -> _ => intro
         end;
  use_implications;
  solve [intuition (try congruence; try lia)].

(** Arithmetic goals with conditionals left in them. *)
Ltac arith :=
  repeat match goal with
         | |- context [if ?c then _ else _] => destruct c eqn:?
         | H : context [if ?c then _ else _] |- _ => destruct c eqn:?
         end;
  lia.

Section Quiescence_properties.
Context {Board Move : Type} `{!ChessLib Board Move}.

Implicit Types s : ChessEngine Board Move.
Implicit Types alpha beta depth : Z.

(** What the node count and poll leaves in place. *)
Lemma count_node_and_poll_wp s :
  wp count_node_and_poll s (fun expired s' =>
    board s' = board s /\ tt s' = tt s
    /\ nodes_searched s' = nodes_searched s + 1
    /\ stop_search s' = (expired || stop_search s)%bool).
Proof.
  unfold count_node_and_poll.
  repeat (wp_step; cbn); repeat split; auto.
Qed.

Lemma count_node_and_poll_wlp s :
  wlp count_node_and_poll s (fun expired s' =>
    board s' = board s /\ tt s' = tt s
    /\ nodes_searched s' = nodes_searched s + 1
    /\ stop_search s' = (expired || stop_search s)%bool).
Proof.
  destruct (count_node_and_poll_wp s) as (e & s1 & Hrun & H).
  intros e' s1' Hrun'. rewrite Hrun in Hrun'. now inversion Hrun'; subst.
Qed.

(** *** The table and the stop flag: [quiescence] writes neither *)

Lemma quiescence_moves_keeps_tt (rec : Z -> Z -> M Board Move Z) :
  (forall a b s, wlp (rec a b) s (fun _ s' =>
     tt s' = tt s /\ (stop_search s = true -> stop_search s' = true))) ->
  forall moves alpha beta s,
    wlp (quiescence_moves rec moves alpha beta) s (fun _ s' =>
      tt s' = tt s /\ (stop_search s = true -> stop_search s' = true)).
Proof.
  intros Hrec moves. induction moves as [|move rest IH]; intros alpha beta s;
    cbn [quiescence_moves].
  - wlp_step. split; auto.
  - do 3 wlp_step.
    eapply wlp_weaken; [apply Hrec|]. intros r s1 [Htt Hstop].
    repeat (wlp_step; cbn); try solve [state_facts].
    eapply wlp_weaken; [apply IH|]. intros r' s2 [Htt' Hstop']. state_facts.
Qed.

Lemma quiescence_body_keeps_tt (rec : Z -> Z -> Z -> M Board Move Z) :
  (forall a b d s, wlp (rec a b d) s (fun _ s' =>
     tt s' = tt s /\ (stop_search s = true -> stop_search s' = true))) ->
  forall alpha beta depth s,
    wlp (quiescence_body rec alpha beta depth) s (fun _ s' =>
      tt s' = tt s /\ (stop_search s = true -> stop_search s' = true)).
Proof.
  intros Hrec alpha beta depth s. unfold quiescence_body.
  wlp_step; [repeat wlp_step; auto|].
  wlp_step. eapply wlp_weaken; [apply count_node_and_poll_wlp|].
  intros expired s1 (Hb & Htt & Hn & Hstop).
  repeat (wlp_step; cbn); try solve [state_facts].
  eapply wlp_weaken; [apply quiescence_moves_keeps_tt; intros; apply Hrec|].
  intros r s2 [Htt' Hstop']. state_facts.
Qed.

Lemma quiescence_keeps_tt (fuel : nat) : forall alpha beta depth s,
  wlp (quiescence fuel alpha beta depth) s (fun _ s' =>
    tt s' = tt s /\ (stop_search s = true -> stop_search s' = true)).
Proof.
  induction fuel as [|fuel IH]; intros alpha beta depth s; cbn [quiescence].
  - wlp_step.
  - apply quiescence_body_keeps_tt. intros. apply IH.
Qed.

(** *** Fail-hard bounds of [quiescence] below the depth limit *)
Lemma quiescence_moves_bounds (rec : Z -> Z -> M Board Move Z) :
  forall moves alpha beta s, alpha < beta ->
    wlp (quiescence_moves rec moves alpha beta) s (fun r _ => alpha <= r <= beta).
Proof.
  intros moves. induction moves as [|move rest IH]; intros alpha beta s Hab;
    cbn [quiescence_moves].
  - wlp_step. lia.
  - do 3 wlp_step. intros r s1 _.
    repeat (wlp_step; cbn); try lia.
    eapply wlp_weaken; [apply IH|]; cbn; intros; arith.
Qed.

Lemma quiescence_bounds (fuel : nat) alpha beta depth s :
  alpha < beta -> depth <= 10 ->
  wlp (quiescence fuel alpha beta depth) s (fun r _ => alpha <= r <= beta).
Proof.
  intros Hab Hd. destruct fuel as [|fuel]; cbn [quiescence]; [wlp_step|].
  unfold quiescence_body.
  wlp_step; [lia|].
  wlp_step. intros expired s1 _.
  repeat (wlp_step; cbn); try lia.
  eapply wlp_weaken; [apply quiescence_moves_bounds|]; cbn; intros; arith.
Qed.

(** *** Termination *)
Lemma quiescence_moves_total (rec : Z -> Z -> M Board Move Z) :
  (forall a b s, wp (rec a b) s (fun _ _ => True)) ->
  forall moves alpha beta s,
    wp (quiescence_moves rec moves alpha beta) s (fun _ _ => True).
Proof.
  intros Hrec moves. induction moves as [|move rest IH]; intros alpha beta s;
    cbn [quiescence_moves].
  - wp_step. auto.
  - do 3 wp_step. eapply wp_weaken; [apply Hrec|]. intros r s1 _.
    repeat (wp_step; cbn); auto.
Qed.

Lemma quiescence_total (fuel : nat) : forall alpha beta depth s,
  (Z.to_nat (11 - depth) < fuel)%nat ->
  wp (quiescence fuel alpha beta depth) s (fun _ _ => True).
Proof.
  induction fuel as [|fuel IH]; intros alpha beta depth s Hfuel; [lia|].
  cbn [quiescence]. unfold quiescence_body.
  wp_step; [repeat wp_step; auto|].
  wp_step. eapply wp_weaken; [apply count_node_and_poll_wp|]. intros e s1 _.
  repeat (wp_step; cbn); auto.
  apply quiescence_moves_total. intros. apply IH. lia.
Qed.

(** *** Make/unmake balance *)

Lemma quiescence_moves_board `{!ChessLaws Board Move}
    (rec : Z -> Z -> M Board Move Z) :
  (forall a b s, wlp (rec a b) s (fun _ s' => board s' = board s)) ->
  forall moves alpha beta s,
    (forall m, In m moves -> In m (legalmoves (board s))) ->
    wlp (quiescence_moves rec moves alpha beta) s (fun _ s' => board s' = board s).
Proof.
  intros Hrec moves. induction moves as [|move rest IH]; intros alpha beta s Hlegal;
    cbn [quiescence_moves].
  - wlp_step. reflexivity.
  - assert (Hback : unmakeMove (makeMove (board s) move) move = board s)
      by (apply unmake_make, Hlegal; now left).
    do 3 wlp_step. eapply wlp_weaken; [apply Hrec|]. intros r s1 Hb.
    cbn in Hb.
    repeat (wlp_step; cbn); try congruence.
    eapply wlp_weaken; [apply IH|].
    + cbn. rewrite Hb, Hback. intros m Hm. apply Hlegal. now right.
    + cbn. intros _ s2 ->. congruence.
Qed.

Lemma quiescence_board `{!ChessLaws Board Move} (fuel : nat) :
  forall alpha beta depth s,
    wlp (quiescence fuel alpha beta depth) s (fun _ s' => board s' = board s).
Proof.
  induction fuel as [|fuel IH]; intros alpha beta depth s; cbn [quiescence];
    [wlp_step|].
  unfold quiescence_body.
  wlp_step; [repeat wlp_step; reflexivity|].
  wlp_step. eapply wlp_weaken; [apply count_node_and_poll_wlp|].
  intros expired s1 (Hb & _).
  repeat (wlp_step; cbn); try congruence.
  eapply wlp_weaken; [apply quiescence_moves_board|].
  - intros. apply IH.
  - intros m Hm. apply order_moves_In in Hm. now apply captures_legal.
  - cbn. intros; congruence.
Qed.

(** The recursive calls of the body are all at [depth + 1]. *)
Lemma quiescence_moves_ext (rec rec' : Z -> Z -> M Board Move Z) :
  (forall a b s, rec a b s = rec' a b s) ->
  forall moves alpha beta s,
    quiescence_moves rec moves alpha beta s = quiescence_moves rec' moves alpha beta s.
Proof.
  intros Hrec moves. induction moves as [|move rest IH]; intros alpha beta s;
    cbn [quiescence_moves]; [reflexivity|].
  unfold bind, modify, gets. rewrite Hrec.
  destruct (rec' _ _ _) as [[r s1]|]; [|reflexivity].
  destruct (stop_search _); [reflexivity|].
  destruct (_ >=? _); [reflexivity|]. apply IH.
Qed.

Lemma quiescence_body_ext (rec rec' : Z -> Z -> Z -> M Board Move Z)
    alpha beta depth s :
  (forall a b s, rec a b (depth + 1) s = rec' a b (depth + 1) s) ->
  quiescence_body rec alpha beta depth s = quiescence_body rec' alpha beta depth s.
Proof.
  intros Hrec. unfold quiescence_body.
  destruct (depth >? 10); [reflexivity|].
  unfold bind. destruct (count_node_and_poll s) as [[e s1]|]; [|reflexivity].
  destruct e; [reflexivity|]. unfold gets.
  destruct (_ >=? _); [reflexivity|].
  apply quiescence_moves_ext. intros. apply Hrec.
Qed.

(** C8: [quiescence] returns for every input.  A call with [depth > 10]
    returns [evaluate()] at once, without a recursive call and without
    touching the state; the body calls itself only with [depth + 1]; so a
    call at [depth] returns with at most [11 - depth] calls nested below it,
    which is at most 11 for every [depth >= 0], in particular for the calls
    [quiescence(alpha, beta)] at depth 0 that [negamax] makes. *)
Theorem quiescence_terminates :
  (forall fuel alpha beta depth s, 10 < depth ->
     quiescence (S fuel) alpha beta depth s = Some (evaluate (board s), s))
  /\ (forall (rec rec' : Z -> Z -> Z -> M Board Move Z) alpha beta depth s,
        (forall a b s1, rec a b (depth + 1) s1 = rec' a b (depth + 1) s1) ->
        quiescence_body rec alpha beta depth s
        = quiescence_body rec' alpha beta depth s)
  /\ (forall fuel alpha beta depth s,
        (Z.to_nat (11 - depth) < fuel)%nat ->
        exists r s', quiescence fuel alpha beta depth s = Some (r, s'))
  /\ (forall alpha beta depth s, 0 <= depth ->
        exists r s', quiescence (1 + 11) alpha beta depth s = Some (r, s')).
Proof.
  repeat split.
  - intros fuel alpha beta depth s Hd. cbn [quiescence]. unfold quiescence_body.
    destruct (Z.gtb_spec depth 10); [reflexivity|lia].
  - intros. now apply quiescence_body_ext.
  - intros fuel alpha beta depth s Hfuel.
    destruct (quiescence_total fuel alpha beta depth s Hfuel) as (r & s' & Hrun & _).
    eauto.
  - intros alpha beta depth s Hd.
    destruct (quiescence_total (1 + 11) alpha beta depth s) as (r & s' & Hrun & _);
      [cbn; lia|eauto].
Qed.

End Quiescence_properties.

(** ** Negamax *)

Section Negamax_properties.
Context {Board Move : Type} `{!ChessLib Board Move}.

Implicit Types s : ChessEngine Board Move.
Implicit Types alpha beta depth key : Z.

(** *** Termination *)

Lemma negamax_child_total (rec : Z -> Z -> M Board Move Z) i alpha beta s :
  (forall a b s, wp (rec a b) s (fun _ _ => True)) ->
  wp (negamax_child rec i alpha beta) s (fun _ _ => True).
Proof.
  intros Hrec. unfold negamax_child.
  wp_step.
  - wp_step. eapply wp_weaken; [apply Hrec|]. intros r s1 _. now wp_step.
  - wp_step. eapply wp_weaken; [apply Hrec|]. intros r s1 _.
    wp_step; [|now wp_step].
    wp_step. eapply wp_weaken; [apply Hrec|]. intros r' s2 _. now wp_step.
Qed.

Lemma negamax_moves_total (rec : Z -> Z -> M Board Move Z) key depth beta :
  (forall a b s, wp (rec a b) s (fun _ _ => True)) ->
  forall moves i alpha best_score best_move flag s,
    wp (negamax_moves rec key depth beta moves i alpha best_score best_move flag)
       s (fun _ _ => True).
Proof.
  intros Hrec moves. induction moves as [|move rest IH];
    intros i alpha best_score best_move flag s; cbn [negamax_moves].
  - repeat wp_step. auto.
  - do 3 wp_step.
    eapply wp_weaken; [apply negamax_child_total, Hrec|]. intros score s1 _.
    repeat (wp_step; cbn); auto.
Qed.

Lemma negamax_search_moves_total (rec : Z -> Z -> Z -> bool -> M Board Move Z)
    key depth alpha beta tt_move s :
  (forall a b n s, wp (rec (depth - 1) a b n) s (fun _ _ => True)) ->
  wp (negamax_search_moves rec key depth alpha beta tt_move) s (fun _ _ => True).
Proof.
  intros Hrec. unfold negamax_search_moves.
  repeat (wp_step; cbn); auto.
  apply negamax_moves_total. intros. apply Hrec.
Qed.

Lemma negamax_body_total (quiesce : Z -> Z -> M Board Move Z)
    (rec : Z -> Z -> Z -> bool -> M Board Move Z) depth alpha beta n s :
  (forall a b s, wp (quiesce a b) s (fun _ _ => True)) ->
  (0 < depth -> forall d a b n s, d <= depth - 1 ->
     wp (rec d a b n) s (fun _ _ => True)) ->
  wp (negamax_body quiesce rec depth alpha beta n) s (fun _ _ => True).
Proof.
  intros Hq Hrec. unfold negamax_body.
  do 3 wp_step; [now wp_step|].
  wp_step.
  { wp_step. eapply wp_weaken; [apply Hq|]. intros r s1 _. now wp_step. }
  assert (0 < depth) as Hd by lia. specialize (Hrec Hd).
  wp_step. eapply wp_weaken; [apply count_node_and_poll_wp|]. intros e s1 _.
  wp_step; [now wp_step|].
  do 5 wp_step; [now wp_step|].
  wp_step; [now wp_step|].
  wp_step; [repeat wp_step; auto|].
  wp_step; [|apply negamax_search_moves_total; intros; apply Hrec; lia].
  do 3 wp_step. eapply wp_weaken; [apply Hrec; lia|]. intros r s2 _.
  do 3 wp_step; [now wp_step|].
  apply negamax_search_moves_total; intros; apply Hrec; lia.
Qed.

Lemma negamax_tagged_total (fuel : nat) : forall depth alpha beta n s,
  (Z.to_nat depth + 12 < fuel)%nat ->
  wp (negamax_tagged fuel depth alpha beta n) s (fun _ _ => True).
Proof.
  induction fuel as [|fuel IH]; intros depth alpha beta n s Hfuel; [lia|].
  cbn [negamax_tagged]. apply negamax_body_total.
  - intros. apply quiescence_total. cbn. lia.
  - intros Hd d a b n' s1 Hle. wp_step.
    eapply wp_weaken; [apply IH; lia|]. intros r s2 _. now wp_step.
Qed.

Lemma negamax_total (fuel : nat) depth alpha beta n s :
  (Z.to_nat depth + 12 < fuel)%nat ->
  wp (negamax fuel depth alpha beta n) s (fun _ _ => True).
Proof.
  intros Hfuel. unfold negamax. wp_step.
  eapply wp_weaken; [now apply negamax_tagged_total|]. intros r s1 _. now wp_step.
Qed.

(** *** Make/unmake balance *)

Lemma negamax_child_board (rec : Z -> Z -> M Board Move Z) i alpha beta s :
  (forall a b s, wlp (rec a b) s (fun _ s' => board s' = board s)) ->
  wlp (negamax_child rec i alpha beta) s (fun _ s' => board s' = board s).
Proof.
  intros Hrec. unfold negamax_child.
  wlp_step.
  - wlp_step. eapply wlp_weaken; [apply Hrec|]. intros r s1 Hb. now wlp_step.
  - wlp_step. eapply wlp_weaken; [apply Hrec|]. intros r s1 Hb.
    wlp_step; [|now wlp_step].
    wlp_step. eapply wlp_weaken; [apply Hrec|]. intros r' s2 Hb'.
    wlp_step. congruence.
Qed.

Lemma negamax_moves_board `{!ChessLaws Board Move}
    (rec : Z -> Z -> M Board Move Z) key depth beta :
  (forall a b s, wlp (rec a b) s (fun _ s' => board s' = board s)) ->
  forall moves i alpha best_score best_move flag s,
    (forall m, In m moves -> In m (legalmoves (board s))) ->
    wlp (negamax_moves rec key depth beta moves i alpha best_score best_move flag)
        s (fun _ s' => board s' = board s).
Proof.
  intros Hrec moves. induction moves as [|move rest IH];
    intros i alpha best_score best_move flag s Hlegal; cbn [negamax_moves].
  - repeat wlp_step. reflexivity.
  - assert (Hback : unmakeMove (makeMove (board s) move) move = board s)
      by (apply unmake_make, Hlegal; now left).
    do 3 wlp_step.
    eapply wlp_weaken; [apply negamax_child_board, Hrec|]. intros score s1 Hb.
    cbn in Hb.
    repeat (wlp_step; cbn); try congruence.
    eapply wlp_weaken; [apply IH|].
    + cbn. rewrite Hb, Hback. intros m Hm. apply Hlegal. now right.
    + cbn. intros _ s2 ->. congruence.
Qed.

Lemma negamax_search_moves_board `{!ChessLaws Board Move}
    (rec : Z -> Z -> Z -> bool -> M Board Move Z) key depth alpha beta tt_move s :
  (forall d a b n s, wlp (rec d a b n) s (fun _ s' => board s' = board s)) ->
  wlp (negamax_search_moves rec key depth alpha beta tt_move) s
      (fun _ s' => board s' = board s).
Proof.
  intros Hrec. unfold negamax_search_moves.
  wlp_step. wlp_step. destruct (legalmoves (board s)) as [|m0 rest] eqn:Hmoves.
  - repeat wlp_step; reflexivity.
  - apply negamax_moves_board.
    + intros. apply Hrec.
    + intros m Hm. apply order_moves_In in Hm. now rewrite Hmoves.
Qed.

Lemma negamax_body_board `{!ChessLaws Board Move}
    (quiesce : Z -> Z -> M Board Move Z)
    (rec : Z -> Z -> Z -> bool -> M Board Move Z) depth alpha beta n s :
  (forall a b s, wlp (quiesce a b) s (fun _ s' => board s' = board s)) ->
  (forall d a b n s, wlp (rec d a b n) s (fun _ s' => board s' = board s)) ->
  wlp (negamax_body quiesce rec depth alpha beta n) s
      (fun _ s' => board s' = board s).
Proof.
  intros Hq Hrec. unfold negamax_body.
  do 3 wlp_step; [now wlp_step|].
  wlp_step.
  { wlp_step. eapply wlp_weaken; [apply Hq|]. intros r s1 Hb. now wlp_step. }
  wlp_step. eapply wlp_weaken; [apply count_node_and_poll_wlp|].
  intros e s1 (Hb & _).
  wlp_step; [now wlp_step|].
  do 5 wlp_step; [now wlp_step|].
  wlp_step; [now wlp_step|].
  wlp_step; [repeat wlp_step; auto|].
  assert (Hmoves : forall s2, board s2 = board s ->
            wlp (negamax_search_moves rec (hash (board s1)) depth alpha beta
                   match probe (tt s1) (hash (board s1)) with
                   | Some e0 => tte_best_move e0
                   | None => NO_MOVE
                   end) s2 (fun _ s' => board s' = board s)).
  { intros s2 Hb2. eapply wlp_weaken; [now apply negamax_search_moves_board|].
    cbn. intros; congruence. }
  wlp_step; [|now apply Hmoves].
  do 3 wlp_step. eapply wlp_weaken; [apply Hrec|]. intros r s2 Hb2. cbn in Hb2.
  assert (Hnull : board (set_board unmakeNullMove s2) = board s).
  { cbn. rewrite Hb2, unmake_make_null. exact Hb. }
  do 3 wlp_step; [now wlp_step|]. now apply Hmoves.
Qed.

Lemma negamax_tagged_board `{!ChessLaws Board Move} (fuel : nat) :
  forall depth alpha beta n s,
    wlp (negamax_tagged fuel depth alpha beta n) s (fun _ s' => board s' = board s).
Proof.
  induction fuel as [|fuel IH]; intros depth alpha beta n s;
    cbn [negamax_tagged]; [wlp_step|].
  apply negamax_body_board.
  - intros. apply quiescence_board.
  - intros d a b n' s1. wlp_step.
    eapply wlp_weaken; [apply IH|]. intros r s2 Hb. now wlp_step.
Qed.

Lemma negamax_board `{!ChessLaws Board Move} (fuel : nat) depth alpha beta n s :
  wlp (negamax fuel depth alpha beta n) s (fun _ s' => board s' = board s).
Proof.
  unfold negamax. wlp_step.
  eapply wlp_weaken; [apply negamax_tagged_board|]. intros r s1 Hb. now wlp_step.
Qed.

(** *** Return paths *)

Lemma negamax_child_stop (rec : Z -> Z -> M Board Move Z) i alpha beta s :
  (forall a b s, wlp (rec a b) s (fun _ s' =>
     stop_search s = true -> stop_search s' = true)) ->
  wlp (negamax_child rec i alpha beta) s (fun _ s' =>
    stop_search s = true -> stop_search s' = true).
Proof.
  intros Hrec. unfold negamax_child.
  wlp_step.
  - wlp_step. eapply wlp_weaken; [apply Hrec|]. intros r s1 Hs. now wlp_step.
  - wlp_step. eapply wlp_weaken; [apply Hrec|]. intros r s1 Hs.
    wlp_step; [|now wlp_step].
    wlp_step. eapply wlp_weaken; [apply Hrec|]. intros r' s2 Hs'.
    wlp_step. auto.
Qed.

Lemma negamax_moves_exit (rec : Z -> Z -> M Board Move Z) key depth beta :
  (forall a b s, wlp (rec a b) s (fun _ s' =>
     stop_search s = true -> stop_search s' = true)) ->
  forall moves i alpha best_score best_move flag s,
    (best_score < beta \/ best_score = - INF) ->
    wlp (negamax_moves rec key depth beta moves i alpha best_score best_move flag)
        s (fun x s' =>
             (stop_search s = true -> stop_search s' = true)
             /\ match fst x with
                | Ret_stop_after_child =>
                    stop_search s' = true /\ alpha <= snd x
                    /\ (alpha < beta -> snd x < beta)
                | Ret_beta_cutoff => snd x = beta /\ stop_search s' = false
                | Ret_best_score =>
                    (snd x < beta \/ snd x = - INF)
                    /\ (stop_search s' = false
                        \/ moves = [] /\ stop_search s' = stop_search s)
                | _ => False
                end).
Proof.
  intros Hrec moves. induction moves as [|move rest IH];
    intros i alpha best_score best_move flag s Hbest; cbn [negamax_moves].
  - repeat wlp_step. cbn. auto.
  - do 3 wlp_step.
    eapply wlp_weaken; [apply negamax_child_stop, Hrec|]. intros score s1 Hs.
    cbn in Hs.
    repeat (wlp_step; cbn); try solve [state_facts].
    eapply wlp_weaken; [apply IH; arith|]. intros [ex r] s2. cbn.
    intros [Hmono Hex]. split; [state_facts|].
    destruct ex; try tauto.
    + destruct Hex as (? & ? & ?). repeat split; auto; arith.
    + destruct Hex as [? [?|[_ Hsame]]]; split; auto; left; congruence.
Qed.

Lemma negamax_search_moves_exit
    (rec : Z -> Z -> Z -> bool -> M Board Move Z) key depth alpha beta tt_move s :
  (forall d a b n s, wlp (rec d a b n) s (fun _ s' =>
     stop_search s = true -> stop_search s' = true)) ->
  wlp (negamax_search_moves rec key depth alpha beta tt_move) s (fun x s' =>
    (stop_search s = true -> stop_search s' = true)
    /\ match fst x with
       | Ret_no_moves_in_check => snd x = - MATE_VALUE + nodes_searched s'
       | Ret_no_moves_draw => snd x = DRAW_VALUE
       | Ret_stop_after_child =>
           stop_search s' = true /\ alpha <= snd x
           /\ (alpha < beta -> snd x < beta)
       | Ret_beta_cutoff => snd x = beta /\ stop_search s' = false
       | Ret_best_score =>
           (snd x < beta \/ snd x = - INF)
           /\ (stop_search s' = false
               \/ exists b moves, moves <> [] /\ order_moves b moves tt_move = [])
       | _ => False
       end).
Proof.
  intros Hrec. unfold negamax_search_moves.
  wlp_step. wlp_step. destruct (legalmoves (board s)) as [|m0 rest] eqn:Hmoves.
  - repeat (wlp_step; cbn); auto.
  - eapply wlp_weaken.
    { apply negamax_moves_exit; [intros; apply Hrec|now right]. }
    intros [ex r] s'. cbn. intros [Hmono Hex]. split; [exact Hmono|].
    destruct ex; try tauto.
    destruct Hex as [Hr [Hstop|[Hnil _]]]; [tauto|].
    split; [exact Hr|]. right. exists (board s), (m0 :: rest).
    split; [discriminate|]. now apply map_eq_nil in Hnil.
Qed.

Lemma tt_cutoff_spec (tt_entry : option (TTEntry Move)) depth alpha beta ex r :
  tt_cutoff tt_entry depth alpha beta = Some (ex, r) ->
  match ex with
  | Ret_tt_exact =>
      exists e, tt_entry = Some e /\ tte_depth e >= depth
                /\ tte_flag e = TT_EXACT /\ r = tte_score e
  | Ret_tt_alpha => r = alpha
  | Ret_tt_beta => r = beta
  | _ => False
  end.
Proof.
  unfold tt_cutoff. destruct tt_entry as [e|]; [|discriminate].
  destruct (Z.geb_spec (tte_depth e) depth); [|discriminate].
  case_bool_decide.
  { intros [= <- <-]. exists e. repeat split; auto. lia. }
  destruct (_ && _); [now intros [= <- <-]|].
  destruct (_ && _); [now intros [= <- <-]|discriminate].
Qed.

Lemma negamax_body_exit (quiesce : Z -> Z -> M Board Move Z)
    (rec : Z -> Z -> Z -> bool -> M Board Move Z) depth alpha beta n s :
  (forall a b s, wlp (quiesce a b) s (fun r s' =>
     (a < b -> a <= r <= b)
     /\ (stop_search s = true -> stop_search s' = true))) ->
  (forall d a b n s, wlp (rec d a b n) s (fun _ s' =>
     stop_search s = true -> stop_search s' = true)) ->
  wlp (negamax_body quiesce rec depth alpha beta n) s (fun x s' =>
    negamax_exit_spec depth alpha beta s (fst x) (snd x) s'
    /\ (stop_search s = true -> stop_search s' = true)
    /\ (storing_exit (fst x) = true ->
        stop_search s' = false
        \/ exists b moves tt_move,
             moves <> [] /\ order_moves b moves tt_move = [])).
Proof.
  intros Hq Hrec. unfold negamax_body.
  do 3 wlp_step; [wlp_step; cbn; repeat split; auto; discriminate|].
  wlp_step.
  { wlp_step. eapply wlp_weaken; [apply Hq|]. intros r s1 [Hb Hs].
    wlp_step. cbn. split; [assumption|split; [congruence|discriminate]]. }
  wlp_step. eapply wlp_weaken; [apply count_node_and_poll_wlp|].
  intros e s1 (Hb & Htt & Hn & Hstop).
  wlp_step; [wlp_step; cbn; repeat split; auto; congruence|].
  rewrite Heqb in Hstop. cbn in Hstop.
  do 4 wlp_step.
  destruct (tt_cutoff _ _ _ _) as [[ex r]|] eqn:Hcut.
  { wlp_step. cbn.
    apply tt_cutoff_spec in Hcut. rewrite Hb, Htt in Hcut.
    destruct ex; try tauto; cbn; repeat split; auto; congruence. }
  wlp_step; [wlp_step; cbn; repeat split; congruence|].
  wlp_step; [repeat wlp_step; cbn; repeat split; congruence|].
  assert (Hmoves : forall s2,
            wlp (negamax_search_moves rec (hash (board s1)) depth alpha beta
                   match probe (tt s1) (hash (board s1)) with
                   | Some e0 => tte_best_move e0
                   | None => NO_MOVE
                   end) s2
                (fun x s' =>
                   negamax_exit_spec depth alpha beta s (fst x) (snd x) s'
                   /\ (false = true -> stop_search s' = true)
                   /\ (storing_exit (fst x) = true ->
                       stop_search s' = false
                       \/ exists b moves tt_move,
                            moves <> [] /\ order_moves b moves tt_move = []))).
  { intros s2. eapply wlp_weaken; [now apply negamax_search_moves_exit|].
    intros [ex r] s'. cbn. intros [_ Hex]. split; [|split; [congruence|]].
    - destruct ex; cbn; tauto.
    - destruct ex; cbn; try discriminate; intros _; [tauto|].
      destruct Hex as [_ [?|(b & moves & ? & ?)]]; [now left|right; eauto]. }
  wlp_step; [|apply Hmoves].
  do 3 wlp_step. eapply wlp_weaken; [apply Hrec|]. intros r s2 _.
  do 3 wlp_step; [wlp_step; cbn; repeat split; congruence|].
  apply Hmoves.
Qed.

Lemma negamax_tagged_exit (fuel : nat) :
  forall depth alpha beta n s,
    wlp (negamax_tagged fuel depth alpha beta n) s (fun x s' =>
      negamax_exit_spec depth alpha beta s (fst x) (snd x) s'
      /\ (stop_search s = true -> stop_search s' = true)
      /\ (storing_exit (fst x) = true ->
          stop_search s' = false
          \/ exists b moves tt_move,
               moves <> [] /\ order_moves b moves tt_move = [])).
Proof.
  induction fuel as [|fuel IH]; intros depth alpha beta n s;
    cbn [negamax_tagged]; [wlp_step|].
  apply negamax_body_exit.
  - intros a b s1 r s' Hrun. split.
    + intros Hab. now apply (quiescence_bounds fuel a b 0 s1 Hab ltac:(lia) r s').
    + now apply (quiescence_keeps_tt fuel a b 0 s1 r s').
  - intros d a b n' s1. wlp_step.
    eapply wlp_weaken; [apply IH|]. intros r s2 (_ & Hs & _). now wlp_step.
Qed.

Lemma order_moves_nonempty `{!ChessLaws Board Move} (b : Board)
    (moves : list Move) (tt_move : Move) :
  moves <> [] -> order_moves b moves tt_move <> [].
Proof.
  destruct moves as [|m0 rest]; [congruence|]. intros _ Hnil.
  assert (Hin : In m0 (map fst (order_moves b (m0 :: rest) tt_move)))
    by (apply order_moves_In; now left).
  rewrite Hnil in Hin. exact Hin.
Qed.

(** *** Writes of the table by one call *)

Lemma negamax_child_keeps_tt (rec : Z -> Z -> M Board Move Z) i alpha beta s :
  (forall a b s, wlp (rec a b) s (fun _ s' => tt s' = tt s)) ->
  wlp (negamax_child rec i alpha beta) s (fun _ s' => tt s' = tt s).
Proof.
  intros Hrec. unfold negamax_child.
  wlp_step.
  - wlp_step. eapply wlp_weaken; [apply Hrec|]. intros r s1 Hs. now wlp_step.
  - wlp_step. eapply wlp_weaken; [apply Hrec|]. intros r s1 Hs.
    wlp_step; [|now wlp_step].
    wlp_step. eapply wlp_weaken; [apply Hrec|]. intros r' s2 Hs'.
    wlp_step. congruence.
Qed.

Lemma negamax_moves_no_store (rec : Z -> Z -> M Board Move Z) key depth beta :
  (forall a b s, wlp (rec a b) s (fun _ s' => tt s' = tt s)) ->
  forall moves i alpha best_score best_move flag s,
    wlp (negamax_moves rec key depth beta moves i alpha best_score best_move flag)
        s (fun x s' => storing_exit (fst x) = false -> tt s' = tt s).
Proof.
  intros Hrec moves. induction moves as [|move rest IH];
    intros i alpha best_score best_move flag s; cbn [negamax_moves].
  - repeat wlp_step. cbn. discriminate.
  - do 3 wlp_step.
    eapply wlp_weaken; [apply negamax_child_keeps_tt, Hrec|]. intros score s1 Htt.
    cbn in Htt.
    repeat (wlp_step; cbn); try solve [state_facts].
    eapply wlp_weaken; [apply IH|]. intros x s2. state_facts.
Qed.

Lemma negamax_body_no_store (quiesce : Z -> Z -> M Board Move Z)
    (rec : Z -> Z -> Z -> bool -> M Board Move Z) depth alpha beta n s :
  (forall a b s, wlp (quiesce a b) s (fun _ s' => tt s' = tt s)) ->
  (forall d a b n s, wlp (rec d a b n) s (fun _ s' => tt s' = tt s)) ->
  wlp (negamax_body quiesce rec depth alpha beta n) s
      (fun x s' => storing_exit (fst x) = false -> tt s' = tt s).
Proof.
  intros Hq Hrec. unfold negamax_body.
  do 3 wlp_step; [now wlp_step|].
  wlp_step.
  { wlp_step. eapply wlp_weaken; [apply Hq|]. intros r s1 Htt. now wlp_step. }
  wlp_step. eapply wlp_weaken; [apply count_node_and_poll_wlp|].
  intros e s1 (_ & Htt & _).
  wlp_step; [now wlp_step|].
  do 5 wlp_step; [now wlp_step|].
  wlp_step; [now wlp_step|].
  wlp_step; [repeat wlp_step; auto|].
  assert (Hmoves : forall s2, tt s2 = tt s ->
            wlp (negamax_search_moves rec (hash (board s1)) depth alpha beta
                   match probe (tt s1) (hash (board s1)) with
                   | Some e0 => tte_best_move e0
                   | None => NO_MOVE
                   end) s2
                (fun x s' => storing_exit (fst x) = false -> tt s' = tt s)).
  { intros s2 Htt2. unfold negamax_search_moves.
    repeat (wlp_step; cbn); auto.
    eapply wlp_weaken; [apply negamax_moves_no_store; intros; apply Hrec|].
    cbn. intros x s' Hx Hex. rewrite Hx by exact Hex. exact Htt2. }
  wlp_step; [|now apply Hmoves].
  do 3 wlp_step. eapply wlp_weaken; [apply Hrec|]. intros r s2 Htt2. cbn in Htt2.
  do 3 wlp_step; [wlp_step; cbn; congruence|].
  apply Hmoves. cbn. congruence.
Qed.

(** A call entered with [stop_search] set returns [alpha] at once and leaves
    the whole state as it was. *)
Lemma negamax_tagged_stopped (fuel : nat) depth alpha beta n s :
  stop_search s = true ->
  negamax_tagged (S fuel) depth alpha beta n s = Some ((Ret_stop_at_entry, alpha), s).
Proof.
  intros Hstop. cbn [negamax_tagged]. unfold negamax_body, bind, gets.
  now rewrite Hstop.
Qed.

(** When the search of a move comes back with [stop_search] set, the loop
    unmakes the move and returns the current [alpha]; nothing else is done to
    the state the child left. *)
Lemma negamax_moves_stop_after_child (rec : Z -> Z -> M Board Move Z)
    key depth beta move rest i alpha best_score best_move flag s score c :
  negamax_child rec i alpha beta (set_board (fun b => makeMove b move) s)
  = Some (score, c) ->
  stop_search c = true ->
  negamax_moves rec key depth beta (move :: rest) i alpha best_score best_move
    flag s
  = Some ((Ret_stop_after_child, alpha),
          set_board (fun b => unmakeMove b move) c).
Proof.
  intros Hchild Hstop. cbn [negamax_moves]. unfold bind, modify, gets.
  rewrite Hchild. cbn. now rewrite Hstop.
Qed.

Lemma negamax_Some (fuel : nat) depth alpha beta n s r s' :
  negamax fuel depth alpha beta n s = Some (r, s') <->
  exists ex, negamax_tagged fuel depth alpha beta n s = Some ((ex, r), s').
Proof.
  unfold negamax, bind, ret.
  destruct (negamax_tagged fuel depth alpha beta n s) as [[[ex r0] s0]|]; cbn.
  - split.
    + intros [= <- <-]. now exists ex.
    + intros (ex' & [= _ <- <-]). reflexivity.
  - split; [discriminate|intros (? & [=])].
Qed.

(** C1 (amended): with [alpha < beta], the score [negamax] returns lies in
    [[alpha, beta]] when it leaves through a stop or time-out return, the
    return of [quiescence(alpha, beta)] at [depth <= 0], a table bound
    ([TT_ALPHA] or [TT_BETA]) return, the null-move cutoff or the beta
    cutoff.  The other returns hand back an unclamped value: the stored score
    of a [TT_EXACT] entry, [DRAW_VALUE], [-MATE_VALUE + nodes_searched], or
    [best_score], which is below [beta] (or still [-INF]) but can be below
    [alpha]. *)
Theorem negamax_window (fuel : nat) depth alpha beta n s r s' :
  alpha < beta ->
  negamax fuel depth alpha beta n s = Some (r, s') ->
  exists ex,
    negamax_tagged fuel depth alpha beta n s = Some ((ex, r), s')
    /\ match ex with
       | Ret_tt_exact =>
           exists e, probe (tt s) (hash (board s)) = Some e
                     /\ tte_depth e >= depth /\ tte_flag e = TT_EXACT
                     /\ r = tte_score e
       | Ret_draw_shortcut | Ret_game_over_draw | Ret_no_moves_draw =>
           r = DRAW_VALUE
       | Ret_checkmate | Ret_no_moves_in_check =>
           r = - MATE_VALUE + nodes_searched s'
       | Ret_best_score => r < beta \/ r = - INF
       | Ret_stop_at_entry | Ret_stop_at_poll | Ret_stop_after_child
       | Ret_quiescence | Ret_tt_alpha | Ret_tt_beta | Ret_null_cutoff
       | Ret_beta_cutoff => alpha <= r <= beta
       end.
Proof.
  intros Hab Hrun. apply negamax_Some in Hrun as [ex Hrun]. exists ex.
  split; [exact Hrun|].
  destruct (negamax_tagged_exit fuel depth alpha beta n s _ _ Hrun) as (Hex & _).
  cbn in Hex. destruct ex; cbn in Hex; try tauto; try lia.
Qed.

(** C5: a call of [negamax] that returns leaves the board, and so its hash,
    as it found it; and with fuel beyond [depth + 12] every call returns. *)
Theorem negamax_restores_board `{!ChessLaws Board Move}
    (fuel : nat) depth alpha beta n s :
  (forall r s', negamax fuel depth alpha beta n s = Some (r, s') ->
     board s' = board s /\ hash (board s') = hash (board s))
  /\ ((Z.to_nat depth + 12 < fuel)%nat ->
      exists r s', negamax fuel depth alpha beta n s = Some (r, s')).
Proof.
  split.
  - intros r s' Hrun.
    pose proof (negamax_board fuel depth alpha beta n s r s' Hrun) as Hb.
    cbn in Hb. now rewrite Hb.
  - intros Hfuel.
    destruct (negamax_total fuel depth alpha beta n s Hfuel) as (r & s' & Hrun & _).
    eauto.
Qed.

(** C10: a call entered with [stop_search] set returns [alpha] and changes
    nothing; a call that leaves through one of the three stop returns has
    [stop_search] set, returns [alpha] (its value at that point: the
    argument at entry and at the poll, in the move loop the argument or a
    score below [beta] that raised it) and, at entry and at the poll, leaves
    the table as it was; in the move loop the return after a child that came
    back stopped does nothing but unmake the move.  A call that writes the
    table leaves with [stop_search] clear, and a call that leaves through any
    other return writes nothing itself: its table is the one its callees
    left. *)
Theorem negamax_stop_paths `{!ChessLaws Board Move} :
  (forall fuel depth alpha beta n s,
     stop_search s = true ->
     negamax_tagged (S fuel) depth alpha beta n s
     = Some ((Ret_stop_at_entry, alpha), s))
  /\ (forall fuel depth alpha beta n s ex r s',
        negamax_tagged fuel depth alpha beta n s = Some ((ex, r), s') ->
        (ex = Ret_stop_at_entry \/ ex = Ret_stop_at_poll ->
         r = alpha /\ tt s' = tt s /\ stop_search s' = true)
        /\ (ex = Ret_stop_after_child ->
            alpha <= r /\ (alpha < beta -> r < beta) /\ stop_search s' = true)
        /\ (stop_search s' = true -> storing_exit ex = false))
  /\ (forall (rec : Z -> Z -> M Board Move Z) key depth beta move rest i alpha
             best_score best_move flag s score c,
        negamax_child rec i alpha beta (set_board (fun b => makeMove b move) s)
        = Some (score, c) ->
        stop_search c = true ->
        negamax_moves rec key depth beta (move :: rest) i alpha best_score
          best_move flag s
        = Some ((Ret_stop_after_child, alpha),
                set_board (fun b => unmakeMove b move) c))
  /\ (forall (quiesce : Z -> Z -> M Board Move Z)
             (rec : Z -> Z -> Z -> bool -> M Board Move Z)
             depth alpha beta n s ex r s',
        (forall a b s1 r1 s1', quiesce a b s1 = Some (r1, s1') -> tt s1' = tt s1) ->
        (forall d a b n1 s1 r1 s1',
           rec d a b n1 s1 = Some (r1, s1') -> tt s1' = tt s1) ->
        negamax_body quiesce rec depth alpha beta n s = Some ((ex, r), s') ->
        storing_exit ex = false -> tt s' = tt s).
Proof.
  split; [|split; [|split]].
  - intros. now apply negamax_tagged_stopped.
  - intros fuel depth alpha beta n s ex r s' Hrun.
    destruct (negamax_tagged_exit fuel depth alpha beta n s _ _ Hrun)
      as (Hex & Hmono & Hstore).
    cbn in Hex, Hstore. split; [|split].
    + intros [-> | ->]; cbn in Hex.
      * destruct Hex as (Hs & -> & ->). auto.
      * destruct Hex as (Hs & -> & Htt & _). auto.
    + intros ->. cbn in Hex. tauto.
    + intros Hstop. destruct (storing_exit ex) eqn:Hst; [|reflexivity].
      destruct (Hstore eq_refl) as [Hfalse|(b & moves & tt_move & Hne & Hnil)].
      * congruence.
      * exfalso. now apply (order_moves_nonempty b moves tt_move).
  - intros. now apply negamax_moves_stop_after_child with (score := score).
  - intros quiesce rec depth alpha beta n s ex r s' Hq Hrec Hrun Hex.
    refine (negamax_body_no_store quiesce rec depth alpha beta n s _ _ _ _ Hrun Hex).
    + intros a b s1 r1 s1'. apply Hq.
    + intros d a b n1 s1 r1 s1'. apply Hrec.
Qed.

End Negamax_properties.

(** ** Search driver and the [go] command *)

Section Search_properties.
Context {Board Move : Type} `{!ChessLib Board Move}.

Implicit Types s : ChessEngine Board Move.

Lemma is_move_legal_In (b : Board) (move : Move) :
  is_move_legal b move = true <-> In move (legalmoves b).
Proof.
  unfold is_move_legal. rewrite existsb_exists. split.
  - intros (m & Hin & Heq). apply bool_decide_eq_true in Heq. now subst.
  - intros Hin. exists move. split; [exact Hin|]. now apply bool_decide_eq_true.
Qed.

Lemma search_loop_wp `{!ChessLaws Board Move} (fuel : nat) :
  forall depth max_depth best_move s,
    1 <= depth -> (1 <= fuel)%nat ->
    2 * (max_depth - depth + 1) + depth + 13 <= Z.of_nat fuel ->
    wp (search_loop fuel depth max_depth best_move) s
       (fun _ s' => board s' = board s).
Proof.
  induction fuel as [|fuel IH]; intros depth max_depth best_move s Hd Hf Hfuel;
    [lia|].
  cbn [search_loop].
  do 2 wp_step. destruct (Z.leb_spec depth max_depth) as [Hle|Hgt]; cbn [andb].
  2: { wp_step. reflexivity. }
  wp_step; [|wp_step; reflexivity].
  wp_step.
  eapply wp_weaken.
  { apply wp_wlp; [apply negamax_total; lia|apply negamax_board]. }
  intros score s1 [_ Hb]. cbn in Hb.
  do 3 wp_step.
  assert (Hnext : forall best s2, board s2 = board s ->
            wp (search_loop fuel (depth + 1) max_depth best) s2
               (fun _ s' => board s' = board s)).
  { intros best s2 Hb2. eapply wp_weaken; [apply IH; lia|].
    cbn. intros; congruence. }
  wp_step.
  - repeat (wp_step; cbn). now apply Hnext.
  - wp_step. now apply Hnext.
Qed.

Lemma search_wp `{!ChessLaws Board Move} (fuel : nat) max_depth s :
  1 <= max_depth -> 2 * max_depth + 14 <= Z.of_nat fuel ->
  wp (search fuel max_depth) s (fun m s' =>
    board s' = board s
    /\ (legalmoves (board s) <> [] -> In m (legalmoves (board s)) /\ m <> NO_MOVE)
    /\ (legalmoves (board s) = [] -> m = NO_MOVE)).
Proof.
  intros Hmax Hfuel. unfold search.
  repeat wp_step.
  eapply wp_weaken; [apply search_loop_wp; lia|].
  intros best s1 Hb. cbn in Hb.
  do 2 wp_step. rewrite Hb.
  assert (Hfirst : (legalmoves (board s) <> [] ->
                    In (get_first_legal_move (board s)) (legalmoves (board s))
                    /\ get_first_legal_move (board s) <> NO_MOVE)
                   /\ (legalmoves (board s) = [] ->
                       get_first_legal_move (board s) = NO_MOVE)).
  { unfold get_first_legal_move.
    pose proof (NO_MOVE_not_legal (board s)) as Hno.
    destruct (legalmoves (board s)) as [|m0 rest]; split; try congruence.
    intros _. split; [now left|]. intros ->. apply Hno. now left. }
  wp_step; wp_step.
  - split; [exact Hb|exact Hfirst].
  - apply orb_false_iff in Heqb as [Hne Hlegal].
    apply negb_false_iff, is_move_legal_In in Hlegal.
    apply bool_decide_eq_false in Hne.
    split; [exact Hb|]. split; [auto|].
    intros Hnil. rewrite Hnil in Hlegal. contradiction.
Qed.

(** C6: for [max_depth >= 1] (and fuel for the recursion), [search] returns
    and leaves the board as it was; the move it returns is a legal move of
    the position, hence not [NO_MOVE], when there is one, and is [NO_MOVE]
    when there is none.  The [go] command then prints [bestmove] with that
    move in the first case and [bestmove 0000] in the second. *)
Theorem search_returns_legal_move `{!ChessLaws Board Move}
    (fuel : nat) (max_depth : Z) s :
  1 <= max_depth -> 2 * max_depth + 14 <= Z.of_nat fuel ->
  exists m s',
    search fuel max_depth s = Some (m, s')
    /\ board s' = board s
    /\ (legalmoves (board s) <> [] ->
        In m (legalmoves (board s)) /\ m <> NO_MOVE
        /\ uci_go fuel max_depth s
           = Some (Datatypes.tt,
                   put_cout ("bestmove " ++ moveToUci m)%string s'))
    /\ (legalmoves (board s) = [] ->
        m = NO_MOVE
        /\ uci_go fuel max_depth s
           = Some (Datatypes.tt,
                   put_cout "bestmove 0000"
                     (put_cerr "No legal moves available!"
                        (put_cerr "No legal move found!" s')))).
Proof.
  intros Hmax Hfuel.
  destruct (search_wp fuel max_depth s Hmax Hfuel)
    as (m & s' & Hrun & Hb & Hlegal & Hnone).
  exists m, s'. split; [exact Hrun|]. split; [exact Hb|]. split.
  - intros Hne. destruct (Hlegal Hne) as [Hin Hm]. repeat split; auto.
    unfold uci_go, bind. rewrite Hrun.
    rewrite (bool_decide_false (m = NO_MOVE)) by exact Hm. cbn.
    rewrite (bool_decide_true (m <> NO_MOVE)) by exact Hm. reflexivity.
  - intros Hnil. specialize (Hnone Hnil). subst m. split; [reflexivity|].
    unfold uci_go, bind. rewrite Hrun.
    rewrite (bool_decide_true (NO_MOVE = NO_MOVE)) by reflexivity. cbn.
    unfold get_first_legal_move. rewrite Hb, Hnil.
    rewrite (bool_decide_false (NO_MOVE <> NO_MOVE)) by congruence. reflexivity.
Qed.

End Search_properties.

(** ** The small instance satisfies the contract *)

Section Toy_contract.
Import Toy.

Lemma insert_by_score_perm (x : Move * Z) (l : list (Move * Z)) :
  Permutation (insert_by_score x l) (x :: l).
Proof.
  induction l as [|y l IH]; cbn; [reflexivity|].
  destruct (snd x >? snd y); [reflexivity|].
  rewrite IH. apply perm_swap.
Qed.

Lemma insertion_sort_perm (l : list (Move * Z)) : Permutation (insertion_sort l) l.
Proof.
  induction l as [|x l IH]; cbn; [reflexivity|].
  rewrite insert_by_score_perm. now constructor.
Qed.

Lemma insert_by_score_sorted (x : Move * Z) (l : list (Move * Z)) :
  Sorted (fun a b => snd a >= snd b) l ->
  Sorted (fun a b => snd a >= snd b) (insert_by_score x l).
Proof.
  induction l as [|y l IH]; cbn; intros Hs.
  - repeat constructor.
  - destruct (Z.gtb_spec (snd x) (snd y)) as [Hgt|Hle].
    + constructor; [exact Hs|]. constructor. lia.
    + inversion Hs as [|? ? Hs' Hhd]; subst.
      constructor; [now apply IH|].
      destruct l as [|z l]; cbn.
      * constructor. lia.
      * destruct (snd x >? snd z); constructor; [lia|].
        now inversion Hhd.
Qed.

Lemma insertion_sort_sorted (l : list (Move * Z)) :
  Sorted (fun a b => snd a >= snd b) (insertion_sort l).
Proof.
  induction l as [|x l IH]; cbn; [constructor|].
  now apply insert_by_score_sorted.
Qed.

#[global] Instance Toy_laws : ChessLaws Board Move.
Proof.
  split.
  - intros [cur hist] m _. reflexivity.
  - intros [cur hist]. reflexivity.
  - intros b m Hin. cbn in *. unfold captures in Hin.
    apply filter_In in Hin. tauto.
  - intros b Hin. cbn in Hin. unfold legal in Hin.
    apply filter_In in Hin as [_ Hne]. apply bool_decide_eq_true in Hne.
    congruence.
  - apply insertion_sort_perm.
  - apply insertion_sort_sorted.
Qed.

End Toy_contract.

(** ** The statements at concrete inputs *)

Section Examples.
Import Toy.

Lemma empty_table_wf : tt_wf empty_table.
Proof. exists 4. split; [lia|]. split; reflexivity. Qed.

(** A store of another key of the same slot at depth 2 leaves the table as
    it is; at depth 3 it takes the slot. *)
Lemma store_replacement_policy_witness :
  tt_wf table_with_entry
  /\ store table_with_entry 2076 (mv 60 61) 2 7 TT_ALPHA = table_with_entry
  /\ table (store table_with_entry 2076 (mv 60 61) 3 7 TT_ALPHA) !! 12%nat
     = Some {| tte_key := 2076; tte_best_move := mv 60 61; tte_depth := 3;
               tte_score := 7; tte_flag := TT_ALPHA |}.
Proof.
  assert (Hwf : tt_wf table_with_entry) by (apply tt_wf_store, empty_table_wf).
  split; [exact Hwf|]. split.
  - destruct (store_replacement_policy table_with_entry 2076 (mv 60 61) 2 7
                TT_ALPHA Hwf) as (old & Hold & _ & Hkeep & _).
    apply Hkeep. vm_compute in Hold. injection Hold as <-. cbn. lia.
  - destruct (store_replacement_policy table_with_entry 2076 (mv 60 61) 3 7
                TT_ALPHA Hwf) as (old & Hold & Hwrite & _).
    apply Hwrite. vm_compute in Hold. injection Hold as <-. cbn. lia.
Defined.

(** The default 16 MB with 24-byte entries: 699050 entries are asked for and
    the table has a power-of-two length between that and 1048576; a probe
    for a key reads the slot [key & (length - 1)], and so does a store. *)
Lemma TranspositionTable_new_length_witness :
  exists t : TranspositionTable Move,
    TranspositionTable_new 24 16 = Some t
    /\ is_pow2 (Z.of_nat (length (table t)))
    /\ 699050 <= Z.of_nat (length (table t)) <= 1048576
    /\ size_mask t = Z.of_nat (length (table t)) - 1
    /\ exists old,
         table t !! Z.to_nat (Z.land 2076 (Z.of_nat (length (table t)) - 1))
         = Some old
         /\ probe t 2076 = (if tte_key old =? 2076 then Some old else None)
         /\ table (store t 2076 (mv 60 61) 3 7 TT_ALPHA)
              !! Z.to_nat (Z.land 2076 (Z.of_nat (length (table t)) - 1))
            = Some (if store_replaces old 2076 3
                    then {| tte_key := 2076; tte_best_move := mv 60 61;
                            tte_depth := 3; tte_score := 7;
                            tte_flag := TT_ALPHA |}
                    else old).
Proof.
  destruct (@TranspositionTable_new_length Board Move lib 24 16
              ltac:(lia) ltac:(lia))
    as (t & Hnew & _ & Hpow & Hge & Hleast & Hmask & _ & _ & Hslot).
  exists t. split; [exact Hnew|]. split; [exact Hpow|].
  split; [|split; [exact Hmask|]].
  - split.
    + exact Hge.
    + apply Hleast; [exists 20; split; [lia|reflexivity]|]. vm_compute. discriminate.
  - destruct (Hslot t eq_refl eq_refl 2076) as (old & Hold & Hprobe & Hstore & _).
    exists old. split; [exact Hold|]. split; [exact Hprobe|].
    exact (proj1 (Hstore (mv 60 61) 3 7 TT_ALPHA)).
Defined.

Lemma quiescence_terminates_witness :
  quiescence 1 (-50) 50 11 (engine_on rook_check)
  = Some (evaluate (at_root rook_check), engine_on rook_check)
  /\ quiescence_body (quiescence 11) (- INF) INF 0 (engine_on en_passant_position)
     = quiescence_body
         (fun a b d => if d =? 1 then quiescence 11 a b d else out_of_fuel)
         (- INF) INF 0 (engine_on en_passant_position)
  /\ (exists r s',
        quiescence 17 (- INF) INF (-5) (engine_on en_passant_position) = Some (r, s'))
  /\ (exists r s',
        quiescence 12 (- INF) INF 0 (engine_on en_passant_position) = Some (r, s')).
Proof.
  destruct (@quiescence_terminates Board Move lib) as (Hdeep & Hext & Hfuel & Hdepth).
  split; [|split; [|split]].
  - apply (Hdeep 0%nat (-50) 50 11 (engine_on rook_check)). lia.
  - apply (Hext (quiescence 11)
             (fun a b d => if d =? 1 then quiescence 11 a b d else out_of_fuel)).
    intros a b s1. reflexivity.
  - apply (Hfuel 17%nat (- INF) INF (-5) (engine_on en_passant_position)). cbn. lia.
  - apply (Hdepth (- INF) INF 0 (engine_on en_passant_position)). lia.
Defined.

(** C1 as stated fails on each of the unclamped returns: a stored exact
    score of 50 is returned for the window (0, 10); the fifty-move draw
    returns 0 for the window (10, 20); the mated side gets -29999 for the
    window (-100, 100); and at depth 2 with the window (50, 100) the only
    move leads to a drawn position, so [best_score] = 0 is returned. *)
Lemma negamax_window_counterexample :
  (exists s', negamax 20 1 0 10 true engine_with_exact_entry = Some (50, s'))
  /\ ~ (0 <= 50 <= 10)
  /\ (exists s', negamax 20 1 10 20 true (engine_on fifty_move_draw) = Some (0, s'))
  /\ ~ (10 <= 0 <= 20)
  /\ (exists s', negamax 20 1 (-100) 100 true (engine_on back_rank_mate)
                 = Some (-29999, s'))
  /\ ~ (-100 <= -29999 <= 100)
  /\ (exists s', negamax 20 2 50 100 true (engine_on forced_capture) = Some (0, s'))
  /\ ~ (50 <= 0 <= 100).
Proof.
  repeat split; try lia; eexists; vm_compute; reflexivity.
Qed.

Lemma negamax_window_witness :
  exists ex r s',
    negamax_tagged 20 1 (- INF) INF true (engine_on en_passant_position)
    = Some ((ex, r), s')
    /\ ex = Ret_best_score /\ (r < INF \/ r = - INF).
Proof.
  destruct (negamax 20 1 (- INF) INF true (engine_on en_passant_position))
    as [[r s']|] eqn:Hrun; [|vm_compute in Hrun; discriminate].
  destruct (negamax_window 20 1 (- INF) INF true (engine_on en_passant_position)
              r s' ltac:(reflexivity) Hrun) as (ex & Htag & Hex).
  exists ex, r, s'. split; [exact Htag|].
  assert (Hbest : ex = Ret_best_score).
  { vm_compute in Htag. now injection Htag as <- _ _. }
  split; [exact Hbest|]. subst ex. exact Hex.
Defined.

Lemma negamax_restores_board_witness :
  exists r s',
    negamax 20 2 (- INF) INF true (engine_on en_passant_position) = Some (r, s')
    /\ board s' = at_root en_passant_position
    /\ hash (board s') = 3100.
Proof.
  destruct (@negamax_restores_board Board Move lib Toy_laws 20 2 (- INF) INF
              true (engine_on en_passant_position)) as (Hboard & Hreturns).
  destruct (Hreturns ltac:(cbn; lia)) as (r & s' & Hrun).
  exists r, s'. split; [exact Hrun|].
  destruct (Hboard r s' Hrun) as (Hb & Hh). split; [exact Hb|].
  rewrite Hh. reflexivity.
Defined.

Lemma negamax_stop_paths_witness :
  negamax_tagged 20 2 (- INF) INF true
    (set_stop_search true (engine_on en_passant_position))
  = Some ((Ret_stop_at_entry, - INF),
          set_stop_search true (engine_on en_passant_position))
  /\ (exists r s',
        negamax_tagged 20 2 (- INF) INF true engine_out_of_time
        = Some ((Ret_stop_after_child, r), s')
        /\ - INF <= r < INF /\ stop_search s' = true)
  /\ negamax_moves
       (fun a _ => bind (modify (set_stop_search true)) (fun _ => ret a))
       3100 2 INF [en_passant_move; mv 36 44] 0 (- INF) (- INF) NO_MOVE TT_ALPHA
       (engine_on en_passant_position)
     = Some ((Ret_stop_after_child, - INF),
             set_board (fun b => unmakeMove b en_passant_move)
               (set_stop_search true
                  (set_board (fun b => makeMove b en_passant_move)
                     (engine_on en_passant_position))))
  /\ (exists ex r s',
        negamax_body (fun a b => quiescence 12 a b 0)
          (fun _ a _ _ => bind (modify (set_stop_search true)) (fun _ => ret a))
          2 (- INF) INF true (engine_on en_passant_position)
        = Some ((ex, r), s')
        /\ storing_exit ex = false /\ tt s' = empty_table).
Proof.
  destruct (@negamax_stop_paths Board Move lib Toy_laws)
    as (Hentry & Hpaths & Hloop & Hframe).
  split; [apply (Hentry 19%nat); reflexivity|]. split; [|split].
  - destruct (negamax_tagged 20 2 (- INF) INF true engine_out_of_time)
      as [[[ex r] s']|] eqn:Hrun; [|vm_compute in Hrun; discriminate].
    assert (Hex : ex = Ret_stop_after_child).
    { vm_compute in Hrun. now injection Hrun as <- _ _. }
    subst ex. exists r, s'. split; [reflexivity|].
    destruct (Hpaths 20%nat 2 (- INF) INF true engine_out_of_time _ r s' Hrun)
      as (_ & Hchild & _).
    destruct (Hchild eq_refl) as (Hlo & Hhi & Hstop).
    split; [split; [exact Hlo|apply Hhi; reflexivity]|exact Hstop].
  - apply (Hloop _ 3100 2 INF en_passant_move [mv 36 44] 0 (- INF) (- INF) NO_MOVE
             TT_ALPHA (engine_on en_passant_position) INF); reflexivity.
  - destruct (negamax_body (fun a b => quiescence 12 a b 0)
                (fun _ a _ _ => bind (modify (set_stop_search true)) (fun _ => ret a))
                2 (- INF) INF true (engine_on en_passant_position))
      as [[[ex r] s']|] eqn:Hrun; [|vm_compute in Hrun; discriminate].
    assert (Hex : storing_exit ex = false).
    { vm_compute in Hrun. now injection Hrun as <- _ _. }
    exists ex, r, s'. split; [reflexivity|]. split; [exact Hex|].
    refine (Hframe _ _ 2 (- INF) INF true (engine_on en_passant_position) ex r s'
              _ _ Hrun Hex).
    + intros a b s1 r1 s1' Hq.
      exact (proj1 (quiescence_keeps_tt 12 a b 0 s1 r1 s1' Hq)).
    + intros d a b n1 s1 r1 s1' [= _ <-]. reflexivity.
Defined.

Lemma search_returns_legal_move_witness :
  (exists m s',
     search 20 2 (engine_on en_passant_position) = Some (m, s')
     /\ In m (legalmoves (at_root en_passant_position)) /\ m <> NO_MOVE
     /\ uci_go 20 2 (engine_on en_passant_position)
        = Some (Datatypes.tt, put_cout ("bestmove " ++ moveToUci m)%string s'))
  /\ (exists s',
        search 20 2 (engine_on stalemate) = Some (NO_MOVE, s')
        /\ uci_go 20 2 (engine_on stalemate)
           = Some (Datatypes.tt,
                   put_cout "bestmove 0000"
                     (put_cerr "No legal moves available!"
                        (put_cerr "No legal move found!" s')))).
Proof.
  split.
  - destruct (@search_returns_legal_move Board Move lib Toy_laws 20 2
                (engine_on en_passant_position) ltac:(lia) ltac:(lia))
      as (m & s' & Hrun & _ & Hlegal & _).
    destruct (Hlegal ltac:(discriminate)) as (Hin & Hm & Hgo).
    exists m, s'. auto.
  - destruct (@search_returns_legal_move Board Move lib Toy_laws 20 2
                (engine_on stalemate) ltac:(lia) ltac:(lia))
      as (m & s' & Hrun & _ & _ & Hnone).
    destruct (Hnone eq_refl) as (-> & Hgo).
    exists s'. auto.
Defined.

End Examples.

(** * Further properties *)

(** ** Transposition table: probes after stores and clears *)

Section TT_lookup.
Context {Board Move : Type} `{!ChessLib Board Move}.

Implicit Types t : TranspositionTable Move.

Lemma store_lookup_slot t key (move : Move) depth score flag (old : TTEntry Move) :
  table t !! Z.to_nat (tt_index t key) = Some old ->
  store t key move depth score flag
  = if store_replaces old key depth
    then {| table := <[Z.to_nat (tt_index t key) :=
                         {| tte_key := key; tte_best_move := move;
                            tte_depth := depth; tte_score := score;
                            tte_flag := flag |}]> (table t);
            size_mask := size_mask t |}
    else t.
Proof. intros Hold. unfold store. now rewrite Hold. Qed.

Lemma store_out_of_range t key (move : Move) depth score flag :
  table t !! Z.to_nat (tt_index t key) = None ->
  store t key move depth score flag = t.
Proof. intros Hnone. unfold store. now rewrite Hnone. Qed.

Lemma tt_index_store t key (move : Move) depth score flag key' :
  tt_index (store t key move depth score flag) key' = tt_index t key'.
Proof.
  unfold tt_index. now rewrite (proj1 (store_keeps_shape t key move depth score flag)).
Qed.


(** X2: a store for one key never makes a probe for another key hit, nor
    changes the entry such a probe returns; it leaves the probes of keys of
    other slots as they were, and can only evict a key of its own slot. *)
Theorem probe_other_key_after_store t key (move : Move) depth score flag key' :
  key' <> key ->
  let t' := store t key move depth score flag in
  (Z.to_nat (tt_index t key') <> Z.to_nat (tt_index t key) ->
   probe t' key' = probe t key')
  /\ (probe t' key' = probe t key' \/ probe t' key' = None).
Proof.
  intros Hne t'. subst t'.
  destruct (table t !! Z.to_nat (tt_index t key)) as [old|] eqn:Hold.
  2: { rewrite (store_out_of_range t key move depth score flag Hold). auto. }
  assert (Hrange : (Z.to_nat (tt_index t key) < length (table t))%nat)
    by (apply lookup_lt_is_Some_1; eauto).
  unfold probe. rewrite tt_index_store.
  rewrite (store_lookup_slot t key move depth score flag old Hold).
  destruct (store_replaces old key depth); [|auto].
  cbn [table]. split.
  - intros Hidx. rewrite list_lookup_insert_ne by congruence. reflexivity.
  - destruct (decide (Z.to_nat (tt_index t key) = Z.to_nat (tt_index t key')))
      as [Heq|Hneq].
    + right. rewrite <- Heq, list_lookup_insert_eq by exact Hrange. cbn.
      destruct (Z.eqb_spec key key'); [congruence|reflexivity].
    + left. rewrite list_lookup_insert_ne by exact Hneq. reflexivity.
Qed.

Lemma probe_default_table (n : nat) (mask key : Z) :
  key <> 0 ->
  probe {| table := replicate n (TTEntry_default (Move := Move)); size_mask := mask |} key
  = None.
Proof.
  intros Hkey. unfold probe. cbn [table].
  destruct (replicate n TTEntry_default !! _) as [e|] eqn:He; [|reflexivity].
  apply lookup_replicate_1 in He as [-> _]. cbn.
  destruct key; [congruence|reflexivity..].
Qed.

(** X3: a table that was just constructed or cleared misses every non-zero
    key, and [clear] keeps the mask and the length.  The key 0 is not
    distinguished from an empty slot: on a cleared table of the constructor's
    shape its probe hits, returning the default entry. *)
Theorem probe_empty_table :
  (forall sizeof_TTEntry size_mb t key,
     TranspositionTable_new sizeof_TTEntry size_mb = Some t ->
     key <> 0 -> probe t key = None)
  /\ (forall t key, key <> 0 -> probe (clear t) key = None)
  /\ (forall t, size_mask (clear t) = size_mask t
                /\ length (table (clear t)) = length (table t))
  /\ (forall t, tt_wf t -> probe (clear t) 0 = Some TTEntry_default).
Proof.
  repeat split.
  - intros sizeof_TTEntry size_mb t key Hnew Hkey.
    unfold TranspositionTable_new in Hnew.
    destruct (grow_actual_size _ _ _); [|discriminate].
    injection Hnew as <-. now apply probe_default_table.
  - intros t key Hkey. now apply probe_default_table.
  - cbn. apply length_replicate.
  - intros t Hwf. apply tt_wf_clear in Hwf.
    pose proof (tt_index_in_range (clear t) 0 Hwf) as Hrange.
    unfold probe. cbn [table clear] in *.
    rewrite lookup_replicate_2 by (now rewrite length_replicate in Hrange).
    reflexivity.
Qed.

(** X4: the constructor and [clear] give a table in which every entry with a
    non-zero key sits in the slot of its key, and [store] keeps it so; in
    such a table a non-zero key occurs in at most one slot. *)
Theorem tt_home_invariant :
  (forall sizeof_TTEntry size_mb t,
     TranspositionTable_new sizeof_TTEntry size_mb = Some t -> tt_home t)
  /\ (forall t, tt_home (clear t))
  /\ (forall t key (move : Move) depth score flag,
        tt_home t -> tt_home (store t key move depth score flag))
  /\ (forall t (i j : nat) e1 e2,
        tt_home t -> table t !! i = Some e1 -> table t !! j = Some e2 ->
        tte_key e1 = tte_key e2 -> tte_key e1 <> 0 -> i = j).
Proof.
  split; [|split; [|split]].
  - intros sizeof_TTEntry size_mb t Hnew i e Hi Hkey.
    unfold TranspositionTable_new in Hnew.
    destruct (grow_actual_size _ _ _); [|discriminate].
    injection Hnew as <-. cbn in Hi.
    apply lookup_replicate_1 in Hi as [-> _]. now cbn in Hkey.
  - intros t i e Hi Hkey. cbn in Hi.
    apply lookup_replicate_1 in Hi as [-> _]. now cbn in Hkey.
  - intros t key move depth score flag Hhome i e Hi Hkey.
    rewrite tt_index_store.
    destruct (table t !! Z.to_nat (tt_index t key)) as [old|] eqn:Hold.
    2: { rewrite (store_out_of_range t key move depth score flag Hold) in Hi.
         now apply Hhome. }
    rewrite (store_lookup_slot t key move depth score flag old Hold) in Hi.
    destruct (store_replaces old key depth); [|now apply Hhome].
    cbn [table] in Hi.
    destruct (decide (Z.to_nat (tt_index t key) = i)) as [<-|Hne].
    + rewrite list_lookup_insert_eq in Hi by (apply lookup_lt_is_Some_1; eauto).
      injection Hi as <-. reflexivity.
    + rewrite list_lookup_insert_ne in Hi by exact Hne. now apply Hhome.
  - intros t i j e1 e2 Hhome Hi Hj Heq Hkey.
    rewrite <- (Hhome i e1 Hi Hkey). rewrite Heq in *.
    now rewrite <- (Hhome j e2 Hj Hkey).
Qed.

End TT_lookup.

(** ** Evaluation: the terms of the score *)

Section Evaluate_terms.
Context {Board Move : Type} `{!ChessLib Board Move}.

(** X5: for kings on the board (files and ranks 0..7) the endgame king term
    is a multiple of 10 between 0 and 200. *)
Theorem king_distance_evaluation_bounds (friendly_king_sq opponent_king_sq : Square) :
  0 <= sq_file friendly_king_sq <= 7 -> 0 <= sq_rank friendly_king_sq <= 7 ->
  0 <= sq_file opponent_king_sq <= 7 -> 0 <= sq_rank opponent_king_sq <= 7 ->
  0 <= calculate_king_distance_evaluation friendly_king_sq opponent_king_sq <= 200
  /\ calculate_king_distance_evaluation friendly_king_sq opponent_king_sq mod 10 = 0.
Proof.
  intros Hff Hfr Hof Hor. unfold calculate_king_distance_evaluation. cbv zeta.
  split; [lia|]. apply Z.mod_mul. lia.
Qed.

Lemma mobility_count (b : Board) (color : Color) (moves : list Move) (acc : Z) :
  (forall m, In m moves ->
     piece_color (at_sq b (move_from m)) = Some color) ->
  fold_left
    (fun mobility move =>
       if bool_decide (piece_color (at_sq b (move_from move)) = Some color)
       then mobility + 1 else mobility) moves acc
  = acc + Z.of_nat (length moves).
Proof.
  revert acc. induction moves as [|m moves IH]; intros acc Hall; cbn [fold_left length];
    [lia|].
  rewrite bool_decide_true by (apply Hall; now left).
  rewrite IH by (intros; apply Hall; now right). lia.
Qed.

Lemma mobility_none (b : Board) (color : Color) (moves : list Move) (acc : Z) :
  (forall m, In m moves ->
     piece_color (at_sq b (move_from m)) <> Some color) ->
  fold_left
    (fun mobility move =>
       if bool_decide (piece_color (at_sq b (move_from move)) = Some color)
       then mobility + 1 else mobility) moves acc
  = acc.
Proof.
  revert acc. induction moves as [|m moves IH]; intros acc Hall; cbn [fold_left];
    [reflexivity|].
  rewrite bool_decide_false by (apply Hall; now left).
  apply IH. intros; apply Hall; now right.
Qed.

(** X6: when every legal move starts from a piece of the side to move, as
    the move generator has it, [calculate_mobility] counts all legal moves
    for the side to move and none for the other side, so the mobility term of
    [evaluate] is 5 times the number of legal moves, for or against White. *)
Theorem mobility_of_side_to_move (b : Board) :
  (forall m, In m (legalmoves b) ->
     piece_color (at_sq b (move_from m)) = Some (sideToMove b)) ->
  calculate_mobility b (sideToMove b) = Z.of_nat (length (legalmoves b))
  /\ calculate_mobility b (opposite (sideToMove b)) = 0
  /\ (calculate_mobility b WHITE - calculate_mobility b BLACK) * 5
     = match sideToMove b with
       | WHITE => 5 * Z.of_nat (length (legalmoves b))
       | BLACK => - (5 * Z.of_nat (length (legalmoves b)))
       end.
Proof.
  intros Hfrom.
  assert (Hown : calculate_mobility b (sideToMove b)
                 = Z.of_nat (length (legalmoves b))).
  { unfold calculate_mobility. now rewrite mobility_count. }
  assert (Hother : calculate_mobility b (opposite (sideToMove b)) = 0).
  { unfold calculate_mobility. apply mobility_none.
    intros m Hm. rewrite (Hfrom m Hm). destruct (sideToMove b); discriminate. }
  split; [exact Hown|]. split; [exact Hother|].
  destruct (sideToMove b); cbn [opposite] in Hother; rewrite Hown, Hother; lia.
Qed.

Lemma fold_count_bounds (f : Z -> Z -> Z) (squares : list Z) (acc : Z) :
  (forall a sq, a <= f a sq <= a + 1) ->
  acc <= fold_left f squares acc <= acc + Z.of_nat (length squares).
Proof.
  intros Hstep. revert acc.
  induction squares as [|sq squares IH]; intros acc; cbn [fold_left length]; [lia|].
  specialize (IH (f acc sq)). specialize (Hstep acc sq). lia.
Qed.

Lemma fold_count_same (f : Z -> Z -> Z) (squares : list Z) (acc : Z) :
  (forall a sq, In sq squares -> f a sq = a) ->
  fold_left f squares acc = acc.
Proof.
  revert acc. induction squares as [|sq squares IH]; intros acc Hsame;
    cbn [fold_left]; [reflexivity|].
  rewrite Hsame by now left. apply IH. intros; apply Hsame; now right.
Qed.

(** X7: [count_pieces] is between 0 and 64, and it is 0 on a board that
    holds only pawns and kings, so that [evaluate] takes such a board for an
    endgame. *)
Theorem count_pieces_bounds (b : Board) :
  0 <= count_pieces b <= 64
  /\ ((forall sq, 0 <= sq < 64 ->
         at_sq b sq = Piece_NONE \/ piece_type (at_sq b sq) = PAWN
         \/ piece_type (at_sq b sq) = KING) ->
      count_pieces b = 0 /\ (count_pieces b <=? 6) = true).
Proof.
  unfold count_pieces. split.
  - apply (fold_count_bounds _ all_squares 0).
    intros a sq. cbv zeta. destruct (_ && _); lia.
  - intros Hall. rewrite fold_count_same; [split; reflexivity|].
    intros a sq Hsq. cbv zeta.
    assert (Hrange : 0 <= sq < 64).
    { unfold all_squares in Hsq.
      apply in_map_iff in Hsq as (n & <- & Hn). apply in_seq in Hn. lia. }
    destruct (Hall sq Hrange) as [Ht|[Ht|Ht]].
    + rewrite Ht. reflexivity.
    + rewrite Ht. rewrite (bool_decide_false (PAWN <> PAWN)) by congruence.
      now rewrite andb_false_r.
    + rewrite Ht. rewrite (bool_decide_false (KING <> KING)) by congruence.
      now rewrite andb_false_r.
Qed.

(** The entries of the tables, read at any index. *)
Lemma tbl_bounds (a : list Z) (lo hi : Z) (i : Z) :
  forallb (fun x => (lo <=? x) && (x <=? hi)) a = true ->
  lo <= 0 <= hi -> lo <= tbl a i <= hi.
Proof.
  intros Hall Hzero. unfold tbl.
  destruct (nth_in_or_default (Z.to_nat i) a 0) as [Hin| ->]; [|exact Hzero].
  rewrite forallb_forall in Hall. specialize (Hall _ Hin). lia.
Qed.

Lemma evaluate_square_step (b : Board) (is_endgame : bool) (score sq : Z) :
  Z.abs (evaluate_square b is_endgame score sq - score) <= 20080.
Proof.
  unfold evaluate_square.
  destruct (at_sq b sq) as [|c t]; [lia|]. cbv zeta.
  set (i := if bool_decide (c = WHITE) then sq else 63 - sq).
  pose proof (tbl_bounds pst_pawn (-50) 80 i eq_refl ltac:(lia)).
  pose proof (tbl_bounds pst_pawn_endgame (-50) 80 i eq_refl ltac:(lia)).
  pose proof (tbl_bounds pst_knight (-50) 80 i eq_refl ltac:(lia)).
  pose proof (tbl_bounds pst_bishop (-50) 80 i eq_refl ltac:(lia)).
  pose proof (tbl_bounds pst_rook (-50) 80 i eq_refl ltac:(lia)).
  pose proof (tbl_bounds pst_queen (-50) 80 i eq_refl ltac:(lia)).
  pose proof (tbl_bounds pst_king (-50) 80 i eq_refl ltac:(lia)).
  pose proof (tbl_bounds pst_king_endgame (-50) 80 i eq_refl ltac:(lia)).
  pose proof (piece_value_bounds t) as Hpv.
  destruct t; cbn [PieceType_internal] in *;
    destruct is_endgame; destruct (bool_decide (c = WHITE)); lia.
Qed.

(** X8: whatever the board holds, each square changes the running score of
    [evaluate] by at most 20080, so the material and piece-square sum over
    the 64 squares stays within 1285120, far inside the range of [int]. *)
Theorem evaluate_squares_bound (b : Board) (is_endgame : bool) :
  Z.abs (fold_left (evaluate_square b is_endgame) all_squares 0) <= 1285120.
Proof.
  assert (Hfold : forall squares score,
            Z.abs (fold_left (evaluate_square b is_endgame) squares score)
            <= Z.abs score + 20080 * Z.of_nat (length squares)).
  { induction squares as [|sq squares IH]; intros score; cbn [fold_left length];
      [lia|].
    specialize (IH (evaluate_square b is_endgame score sq)).
    pose proof (evaluate_square_step b is_endgame score sq). lia. }
  specialize (Hfold all_squares 0).
  change (Z.of_nat (length all_squares)) with 64 in Hfold. lia.
Qed.

End Evaluate_terms.

(** ** Move ordering: what the sorted list looks like *)

Section Order_results.
Context {Board Move : Type} `{!ChessLib Board Move}.

(** X9: every ordering key lies between -19000 and 21100, inside the range
    of the 16-bit score field, so [setScore] stores each key unchanged and
    the list that is sorted carries the keys themselves. *)
Theorem order_scores_fit_int16 (b : Board) (moves : list Move) (tt_move : Move) :
  (forall move, -19000 <= order_key b tt_move move <= 21100
                /\ wrap_int16 (order_key b tt_move move) = order_key b tt_move move)
  /\ order_moves b moves tt_move
     = sort_by_score (map (fun move => (move, order_key b tt_move move)) moves).
Proof.
  split.
  - intros move. split; [apply order_key_bounds|apply wrap_int16_order_key].
  - unfold order_moves. now rewrite order_moves_keys.
Qed.

(** X10: [order_moves] returns the moves it was given, each exactly as often
    as before and next to its own key, in descending order of the keys. *)
Theorem order_moves_sorted_permutation `{!ChessLaws Board Move}
    (b : Board) (moves : list Move) (tt_move : Move) :
  Permutation (map fst (order_moves b moves tt_move)) moves
  /\ (forall x, In x (order_moves b moves tt_move) ->
        snd x = order_key b tt_move (fst x))
  /\ StronglySorted (fun x y => snd x >= snd y) (order_moves b moves tt_move).
Proof.
  destruct (order_moves_sorted b moves tt_move) as [Hperm Hsorted].
  split; [|split].
  - rewrite Hperm, map_map. cbn. now rewrite map_id.
  - intros x Hx. eapply Permutation_in in Hx; [|exact Hperm].
    apply in_map_iff in Hx as (m & <- & _). reflexivity.
  - apply Sorted_StronglySorted; [|exact Hsorted].
    intros x y z Hxy Hyz. lia.
Qed.

(** The key of a move that is not the table move and does not take a king
    is at most 2000. *)
Lemma order_key_other_move (b : Board) (tt_move move : Move) :
  move <> tt_move ->
  piece_type (at_sq b (move_to move)) <> KING ->
  promotionType move <> KING ->
  order_key b tt_move move <= 2000.
Proof.
  intros Hne Hking Hpromo. unfold order_key.
  rewrite bool_decide_false by exact Hne.
  pose proof (piece_value_bounds (piece_type (at_sq b (move_from move)))).
  assert (tbl piece_values (PieceType_internal (piece_type (at_sq b (move_to move))))
          <= 900)
    by (destruct (piece_type (at_sq b (move_to move))); vm_compute; congruence).
  assert (tbl piece_values (PieceType_internal (promotionType move)) <= 900)
    by (destruct (promotionType move); vm_compute; congruence).
  destruct (inCheck _); destruct (isCapture _ _); repeat case_bool_decide; lia.
Qed.

(** X11: when the table move is among the moves, and no move takes or
    promotes to a king, the table move comes first in the ordering, with a
    key of at least 10000. *)
Theorem order_moves_tt_move_first `{!ChessLaws Board Move}
    (b : Board) (moves : list Move) (tt_move : Move) :
  In tt_move moves ->
  (forall m, In m moves ->
     piece_type (at_sq b (move_to m)) <> KING /\ promotionType m <> KING) ->
  exists key rest,
    order_moves b moves tt_move = (tt_move, key) :: rest /\ 10000 <= key.
Proof.
  intros Hin Hking.
  destruct (order_moves_sorted b moves tt_move) as [Hperm Hsorted].
  assert (Htt : In (tt_move, order_key b tt_move tt_move)
                   (order_moves b moves tt_move)).
  { eapply Permutation_in; [symmetry; exact Hperm|].
    apply in_map_iff. now exists tt_move. }
  assert (Hkey : 10000 <= order_key b tt_move tt_move).
  { unfold order_key. rewrite bool_decide_true by reflexivity.
    destruct (inCheck _); lia. }
  apply Sorted_StronglySorted in Hsorted; [|intros x y z Hxy Hyz; lia].
  destruct (order_moves b moves tt_move) as [|[m k] rest] eqn:Hord;
    [contradiction|].
  assert (Hm : In (m, k) (map (fun move => (move, order_key b tt_move move)) moves)).
  { eapply Permutation_in; [exact Hperm|now left]. }
  apply in_map_iff in Hm as (m' & [= -> <-] & Hm').
  assert (Hge : order_key b tt_move m >= order_key b tt_move tt_move).
  { destruct Htt as [[= -> _]|Htt]; [lia|].
    apply StronglySorted_inv in Hsorted as [_ Hall].
    rewrite List.Forall_forall in Hall. exact (Hall _ Htt). }
  destruct (decide (m = tt_move)) as [->|Hne].
  - exists (order_key b tt_move tt_move), rest. split; [reflexivity|exact Hkey].
  - destruct (Hking m Hm') as [Hto Hpromo].
    pose proof (order_key_other_move b tt_move m Hne Hto Hpromo). lia.
Qed.

End Order_results.

(** ** Search: what a call leaves alone *)

Section Search_frame.
Context {Board Move : Type} `{!ChessLib Board Move}.

Implicit Types s : ChessEngine Board Move.
Implicit Types alpha beta depth key : Z.

Lemma search_frame_refl s : search_frame s s.
Proof. unfold search_frame. repeat split; auto; lia. Qed.

Lemma search_frame_trans s1 s2 s3 :
  search_frame s1 s2 -> search_frame s2 s3 -> search_frame s1 s3.
Proof.
  unfold search_frame. intros H12 H23.
  destruct H12 as (? & ? & ? & ? & ? & ? & ? & ? & ? & ? & ?).
  destruct H23 as (? & ? & ? & ? & ? & ? & ? & ? & ? & ? & ?).
  repeat split; try congruence; try lia; auto.
Qed.

Lemma search_frame_set_board (f : Board -> Board) s s' :
  search_frame s s' -> search_frame s (set_board f s').
Proof. intros H. exact H. Qed.

Lemma search_frame_store s s' key (move : Move) depth score flag :
  search_frame s s' ->
  search_frame s (set_tt (fun t => store t key move depth score flag) s').
Proof.
  unfold search_frame. intros (? & ? & ? & ? & ? & ? & ? & Hm & Hl & ? & ?).
  destruct (store_keeps_shape (tt s') key move depth score flag) as [Hm' Hl'].
  cbn. repeat split; try congruence; auto.
Qed.

Lemma poll_div (n : Z) :
  (n + 1) / 1024 = n / 1024 + (if Z.rem (n + 1) 1024 =? 0 then 1 else 0).
Proof.
  assert (Hrem : Z.rem (n + 1) 1024 = 0 <-> (n + 1) mod 1024 = 0)
    by (apply Z.rem_mod_eq_0; lia).
  pose proof (Z.div_mod n 1024 ltac:(lia)).
  pose proof (Z.mod_pos_bound n 1024 ltac:(lia)).
  pose proof (Z.div_mod (n + 1) 1024 ltac:(lia)).
  pose proof (Z.mod_pos_bound (n + 1) 1024 ltac:(lia)).
  destruct (Z.eqb_spec (Z.rem (n + 1) 1024) 0) as [Hz|Hz].
  - apply Hrem in Hz. lia.
  - assert ((n + 1) mod 1024 <> 0) by tauto. lia.
Qed.

Lemma count_node_and_poll_frame s :
  wlp count_node_and_poll s (fun _ s' =>
    search_frame s s' /\ nodes_searched s' = nodes_searched s + 1
    /\ board s' = board s).
Proof.
  unfold count_node_and_poll.
  pose proof (poll_div (nodes_searched s)) as Hdiv.
  repeat (wlp_step; cbn); rewrite ?Heqb in Hdiv;
    (split; [|split; reflexivity]);
    unfold search_frame, clock_reads_beyond_polls; cbn;
    repeat split; auto; lia.
Qed.

Lemma quiescence_moves_frame (rec : Z -> Z -> M Board Move Z) :
  (forall a b s, wlp (rec a b) s (fun _ s' => search_frame s s')) ->
  forall moves alpha beta s0 s, search_frame s0 s ->
    wlp (quiescence_moves rec moves alpha beta) s (fun _ s' => search_frame s0 s').
Proof.
  intros Hrec moves. induction moves as [|move rest IH];
    intros alpha beta s0 s H0; cbn [quiescence_moves].
  - now wlp_step.
  - do 3 wlp_step. eapply wlp_weaken; [apply Hrec|]. intros r s1 H1. cbn beta.
    assert (H01 : search_frame s0 (set_board (fun b => unmakeMove b move) s1))
      by (apply search_frame_set_board; eapply search_frame_trans;
          [exact H0|exact H1]).
    repeat (wlp_step; cbn [stop_search set_board]); try exact H01.
    now apply IH.
Qed.

Lemma quiescence_frame (fuel : nat) : forall alpha beta depth s,
  wlp (quiescence fuel alpha beta depth) s (fun _ s' => search_frame s s').
Proof.
  induction fuel as [|fuel IH]; intros alpha beta depth s; cbn [quiescence];
    [wlp_step|].
  unfold quiescence_body.
  wlp_step; [repeat wlp_step; apply search_frame_refl|].
  wlp_step. eapply wlp_weaken; [apply count_node_and_poll_frame|].
  intros expired s1 (H1 & _).
  repeat wlp_step; try exact H1.
  apply quiescence_moves_frame; [intros; apply IH|exact H1].
Qed.

Lemma negamax_child_frame (rec : Z -> Z -> M Board Move Z) i alpha beta s0 s :
  (forall a b s, wlp (rec a b) s (fun _ s' => search_frame s s')) ->
  search_frame s0 s ->
  wlp (negamax_child rec i alpha beta) s (fun _ s' => search_frame s0 s').
Proof.
  intros Hrec H0. unfold negamax_child.
  wlp_step.
  - wlp_step. eapply wlp_weaken; [apply Hrec|]. intros r s1 H1.
    wlp_step. eapply search_frame_trans; eauto.
  - wlp_step. eapply wlp_weaken; [apply Hrec|]. intros r s1 H1.
    assert (H01 : search_frame s0 s1) by (eapply search_frame_trans; eauto).
    wlp_step; [|now wlp_step].
    wlp_step. eapply wlp_weaken; [apply Hrec|]. intros r' s2 H2.
    wlp_step. eapply search_frame_trans; eauto.
Qed.

Lemma negamax_moves_frame (rec : Z -> Z -> M Board Move Z) key depth beta :
  (forall a b s, wlp (rec a b) s (fun _ s' => search_frame s s')) ->
  forall moves i alpha best_score best_move flag s0 s, search_frame s0 s ->
    wlp (negamax_moves rec key depth beta moves i alpha best_score best_move flag)
        s (fun _ s' => search_frame s0 s').
Proof.
  intros Hrec moves. induction moves as [|move rest IH];
    intros i alpha best_score best_move flag s0 s H0; cbn [negamax_moves].
  - repeat wlp_step. now apply search_frame_store.
  - do 3 wlp_step.
    eapply wlp_weaken;
      [apply (negamax_child_frame rec i alpha beta s0); [exact Hrec|exact H0]|].
    intros score s1 H1. cbn beta.
    assert (H01 : search_frame s0 (set_board (fun b => unmakeMove b move) s1))
      by exact H1.
    repeat (wlp_step; cbn [stop_search set_board]); try exact H01.
    + now apply search_frame_store.
    + now apply IH.
Qed.

Lemma negamax_body_frame (quiesce : Z -> Z -> M Board Move Z)
    (rec : Z -> Z -> Z -> bool -> M Board Move Z) depth alpha beta n s :
  (forall a b s, wlp (quiesce a b) s (fun _ s' => search_frame s s')) ->
  (forall d a b n s, wlp (rec d a b n) s (fun _ s' => search_frame s s')) ->
  wlp (negamax_body quiesce rec depth alpha beta n) s
      (fun _ s' => search_frame s s').
Proof.
  intros Hq Hrec. unfold negamax_body.
  do 3 wlp_step; [wlp_step; apply search_frame_refl|].
  wlp_step.
  { wlp_step. eapply wlp_weaken; [apply Hq|]. intros r s1 H1. now wlp_step. }
  wlp_step. eapply wlp_weaken; [apply count_node_and_poll_frame|].
  intros e s1 (H1 & _).
  wlp_step; [now wlp_step|].
  do 5 wlp_step; [now wlp_step|].
  wlp_step; [now wlp_step|].
  wlp_step; [repeat wlp_step; auto|].
  assert (Hmoves : forall s2, search_frame s s2 ->
            wlp (negamax_search_moves rec (hash (board s1)) depth alpha beta
                   match probe (tt s1) (hash (board s1)) with
                   | Some e0 => tte_best_move e0
                   | None => NO_MOVE
                   end) s2 (fun _ s' => search_frame s s')).
  { intros s2 H2. unfold negamax_search_moves.
    repeat (wlp_step; cbn [board]); try exact H2.
    apply negamax_moves_frame; [intros; apply Hrec|exact H2]. }
  wlp_step; [|now apply Hmoves].
  do 3 wlp_step. eapply wlp_weaken; [apply Hrec|]. intros r s2 H2.
  assert (H02 : search_frame s (set_board unmakeNullMove s2))
    by (apply search_frame_set_board; eapply search_frame_trans;
        [apply search_frame_set_board; exact H1|exact H2]).
  do 3 wlp_step; [now wlp_step|]. now apply Hmoves.
Qed.

Lemma negamax_tagged_frame (fuel : nat) : forall depth alpha beta n s,
  wlp (negamax_tagged fuel depth alpha beta n) s (fun _ s' => search_frame s s').
Proof.
  induction fuel as [|fuel IH]; intros depth alpha beta n s;
    cbn [negamax_tagged]; [wlp_step|].
  apply negamax_body_frame.
  - intros. apply quiescence_frame.
  - intros d a b n' s1. wlp_step.
    eapply wlp_weaken; [apply IH|]. intros r s2 H2. now wlp_step.
Qed.

Lemma negamax_frame (fuel : nat) depth alpha beta n s :
  wlp (negamax fuel depth alpha beta n) s (fun _ s' => search_frame s s').
Proof.
  unfold negamax. wlp_step.
  eapply wlp_weaken; [apply negamax_tagged_frame|]. intros r s1 H1. now wlp_step.
Qed.

(** X12: [quiescence] and [negamax] print nothing and leave the time limit,
    the start time of the search and the course of the clock as they found
    them. *)
Theorem search_keeps_output_and_timing (fuel : nat) depth alpha beta n s r s' :
  quiescence fuel alpha beta depth s = Some (r, s')
  \/ negamax fuel depth alpha beta n s = Some (r, s') ->
  cout s' = cout s /\ cerr s' = cerr s
  /\ time_limit s' = time_limit s /\ search_start s' = search_start s
  /\ steady_clock_readings s' = steady_clock_readings s.
Proof.
  intros [Hrun|Hrun].
  - pose proof (quiescence_frame fuel alpha beta depth s r s' Hrun) as H.
    unfold search_frame in H. tauto.
  - pose proof (negamax_frame fuel depth alpha beta n s r s' Hrun) as H.
    unfold search_frame in H. tauto.
Qed.

(** X13: during a call of [negamax] the node count never decreases, and the
    clock is read exactly once for each multiple of 1024 that the count
    reaches. *)
Theorem clock_read_every_1024_nodes (fuel : nat) depth alpha beta n s r s' :
  negamax fuel depth alpha beta n s = Some (r, s') ->
  nodes_searched s <= nodes_searched s'
  /\ Z.of_nat (steady_clock_calls s') - Z.of_nat (steady_clock_calls s)
     = nodes_searched s' / 1024 - nodes_searched s / 1024.
Proof.
  intros Hrun.
  pose proof (negamax_frame fuel depth alpha beta n s r s' Hrun) as H.
  unfold search_frame, clock_reads_beyond_polls in H.
  destruct H as (_ & _ & _ & _ & _ & Hn & _ & _ & _ & _ & Hclock).
  split; [exact Hn|lia].
Qed.

(** X14: [negamax] never changes the length or the mask of the table, and
    so keeps the shape the constructor gave it. *)
Theorem negamax_keeps_table_shape (fuel : nat) depth alpha beta n s r s' :
  negamax fuel depth alpha beta n s = Some (r, s') ->
  length (table (tt s')) = length (table (tt s))
  /\ size_mask (tt s') = size_mask (tt s)
  /\ (tt_wf (tt s) -> tt_wf (tt s')).
Proof.
  intros Hrun.
  pose proof (negamax_frame fuel depth alpha beta n s r s' Hrun) as H.
  unfold search_frame in H.
  destruct H as (_ & _ & _ & _ & _ & _ & _ & Hm & Hl & _).
  split; [exact Hl|]. split; [exact Hm|].
  intros (k & Hk & Hlen & Hmask). exists k. rewrite Hl, Hm. auto.
Qed.

End Search_frame.

(** ** Quiescence: the value returned *)

Section Quiescence_results.
Context {Board Move : Type} `{!ChessLib Board Move}.

Implicit Types s : ChessEngine Board Move.
Implicit Types alpha beta depth : Z.

(** X15: a call of [quiescence] at depth at most 10 with [alpha < beta]
    returns a score inside the window, with the board and the table as they
    were and at least one node counted.  Unless the search was stopped, the
    score is at least the static evaluation clamped to the window, and it is
    [beta], after exactly one node, when the static evaluation reaches
    [beta]. *)
Theorem quiescence_fail_hard `{!ChessLaws Board Move}
    (fuel : nat) alpha beta depth s r s' :
  alpha < beta -> depth <= 10 ->
  quiescence fuel alpha beta depth s = Some (r, s') ->
  alpha <= r <= beta
  /\ board s' = board s
  /\ tt s' = tt s
  /\ nodes_searched s < nodes_searched s'
  /\ (stop_search s' = false ->
      Z.min beta (Z.max alpha (evaluate (board s))) <= r)
  /\ (stop_search s' = false -> beta <= evaluate (board s) ->
      r = beta /\ nodes_searched s' = nodes_searched s + 1).
Proof.
  intros Hab Hd Hrun.
  split; [exact (quiescence_bounds fuel alpha beta depth s Hab Hd r s' Hrun)|].
  split; [exact (quiescence_board fuel alpha beta depth s r s' Hrun)|].
  split; [exact (proj1 (quiescence_keeps_tt fuel alpha beta depth s r s' Hrun))|].
  revert r s' Hrun. change (wlp (quiescence fuel alpha beta depth) s (fun r s' =>
    nodes_searched s < nodes_searched s'
    /\ (stop_search s' = false ->
        Z.min beta (Z.max alpha (evaluate (board s))) <= r)
    /\ (stop_search s' = false -> beta <= evaluate (board s) ->
        r = beta /\ nodes_searched s' = nodes_searched s + 1))).
  destruct fuel as [|fuel]; cbn [quiescence]; [wlp_step|].
  unfold quiescence_body.
  wlp_step; [lia|].
  wlp_step. eapply wlp_weaken; [apply count_node_and_poll_wlp|].
  intros expired s1 (Hb & Htt & Hn & Hstop).
  wlp_step.
  { wlp_step. rewrite Hstop. cbn. split; [lia|]. split; discriminate. }
  do 2 wlp_step. rewrite Hb in *. wlp_step.
  { wlp_step. rewrite Hn. split; [lia|]. split; intros; [lia|split; lia]. }
  intros r s2 Hrun.
  assert (Hwin : (if evaluate (board s) >? alpha then evaluate (board s) else alpha)
                 < beta) by arith.
  pose proof (quiescence_moves_bounds _ _ _ _ s1 Hwin r s2 Hrun) as Hr.
  cbn beta in Hr.
  assert (Hframe : search_frame s1 s2).
  { refine (quiescence_moves_frame _ _ _ _ _ s1 s1 (search_frame_refl s1) r s2 Hrun).
    intros. apply quiescence_frame. }
  assert (Hnodes : nodes_searched s1 <= nodes_searched s2)
    by (unfold search_frame in Hframe; tauto).
  split; [lia|]. split; intros; [arith|lia].
Qed.

(** X16: in a position without captures [quiescence] needs no recursive
    call: it returns with one frame, counts one node, leaves board and table
    alone and, unless the time ran out at that node, returns the static
    evaluation clamped to the window. *)
Theorem quiescence_quiet_position `{!ChessLaws Board Move}
    (fuel : nat) alpha beta depth s :
  alpha <= beta -> depth <= 10 -> (0 < fuel)%nat ->
  legalmoves_CAPTURE (board s) = [] ->
  exists r s',
    quiescence fuel alpha beta depth s = Some (r, s')
    /\ board s' = board s /\ tt s' = tt s
    /\ nodes_searched s' = nodes_searched s + 1
    /\ (stop_search s' = false ->
        r = Z.min beta (Z.max alpha (evaluate (board s)))).
Proof.
  intros Hab Hd Hfuel Hquiet.
  destruct fuel as [|fuel]; [lia|].
  change (wp (quiescence (S fuel) alpha beta depth) s
            (fun r s' => board s' = board s /\ tt s' = tt s
               /\ nodes_searched s' = nodes_searched s + 1
               /\ (stop_search s' = false ->
                   r = Z.min beta (Z.max alpha (evaluate (board s)))))).
  cbn [quiescence]. unfold quiescence_body.
  wp_step; [lia|].
  wp_step. eapply wp_weaken; [apply count_node_and_poll_wp|].
  intros expired s1 (Hb & Htt & Hn & Hstop).
  wp_step.
  { wp_step. rewrite Hstop. cbn. repeat split; auto. discriminate. }
  do 2 wp_step. rewrite Hb in *. rewrite Hquiet.
  assert (Hnil : map fst (order_moves (board s) [] NO_MOVE) = []).
  { destruct (map fst (order_moves (board s) [] NO_MOVE)) as [|m l] eqn:Hl;
      [reflexivity|].
    assert (Hin : In m (map fst (order_moves (board s) [] NO_MOVE)))
      by (rewrite Hl; now left).
    apply order_moves_In in Hin. destruct Hin. }
  rewrite Hnil. cbn [quiescence_moves].
  repeat wp_step; (split; [exact Hb|split; [exact Htt|split; [exact Hn|intros _; arith]]]).
Qed.

End Quiescence_results.

(** ** Negamax: the entry written before a storing return *)

Section Negamax_store.
Context {Board Move : Type} `{!ChessLib Board Move}.

Implicit Types s : ChessEngine Board Move.
Implicit Types alpha beta depth key : Z.

Lemma negamax_moves_stored (rec : Z -> Z -> M Board Move Z) key depth beta
    alpha0 (b : Board) :
  - INF <= alpha0 -> alpha0 < beta ->
  forall moves i alpha best_score best_move flag s,
    (forall m, In m moves -> In m (legalmoves b)) ->
    best_score <= alpha -> alpha < beta ->
    (flag = TT_ALPHA /\ alpha = alpha0
     \/ flag = TT_EXACT /\ alpha = best_score /\ alpha0 < alpha) ->
    (best_move = NO_MOVE /\ best_score = - INF \/ In best_move (legalmoves b)) ->
    wlp (negamax_moves rec key depth beta moves i alpha best_score best_move flag)
        s (fun x s' => storing_exit (fst x) = true ->
             exists t1 bm fl,
               tt s' = store t1 key bm depth (snd x) fl
               /\ stored_entry_spec b alpha0 beta (fst x) (snd x) bm fl).
Proof.
  intros Hinf Hwin moves. induction moves as [|move rest IH];
    intros i alpha best_score best_move flag s Hlegal Hbest Hab Hflag Hmove;
    cbn [negamax_moves].
  - repeat wlp_step. cbn. intros _. exists (tt s), best_move, flag.
    split; [reflexivity|].
    destruct Hflag as [[-> ->]|(-> & -> & Hraised)].
    + right. repeat split; auto.
    + left. repeat split; try lia.
      destruct Hmove as [[_ ->]|Hin]; [lia|exact Hin].
  - assert (Hin : In move (legalmoves b)) by (apply Hlegal; now left).
    do 3 wlp_step. intros score s1 _.
    repeat (wlp_step; cbn [fst snd storing_exit tt set_tt set_board]);
      try discriminate.
    + intros _. eexists _, _, _. split; [reflexivity|]. cbn.
      split; [reflexivity|]. split; [reflexivity|].
      destruct (score >? best_score) eqn:Hgt; [exact Hin|].
      destruct Hmove as [[_ ->]|Hm]; [lia|exact Hm].
    + apply IH.
      * intros m Hm. apply Hlegal. now right.
      * arith.
      * arith.
      * destruct (score >? alpha) eqn:Hgt.
        -- right. split; [reflexivity|]. split; arith.
        -- destruct Hflag as [[-> ->]|(-> & -> & Hraised)]; [now left|].
           right. split; [reflexivity|]. split; arith.
      * destruct (score >? best_score) eqn:Hgt; [now right|exact Hmove].
Qed.

Lemma negamax_search_moves_stored `{!ChessLaws Board Move}
    (rec : Z -> Z -> Z -> bool -> M Board Move Z) key depth alpha beta tt_move s :
  - INF <= alpha -> alpha < beta ->
  wlp (negamax_search_moves rec key depth alpha beta tt_move) s
      (fun x s' => storing_exit (fst x) = true ->
         exists t1 bm fl,
           tt s' = store t1 key bm depth (snd x) fl
           /\ stored_entry_spec (board s) alpha beta (fst x) (snd x) bm fl).
Proof.
  intros Hinf Hwin. unfold negamax_search_moves.
  wlp_step. wlp_step. destruct (legalmoves (board s)) as [|m0 rest] eqn:Hmoves.
  - repeat wlp_step; discriminate.
  - apply negamax_moves_stored; try lia; auto.
    intros m Hm. apply order_moves_In in Hm. now rewrite Hmoves.
Qed.

Lemma negamax_body_stored `{!ChessLaws Board Move}
    (quiesce : Z -> Z -> M Board Move Z)
    (rec : Z -> Z -> Z -> bool -> M Board Move Z) depth alpha beta n s :
  - INF <= alpha -> alpha < beta ->
  (forall d a b n s, wlp (rec d a b n) s (fun _ s' => board s' = board s)) ->
  wlp (negamax_body quiesce rec depth alpha beta n) s
      (fun x s' => storing_exit (fst x) = true ->
         exists t1 bm fl,
           tt s' = store t1 (hash (board s)) bm depth (snd x) fl
           /\ stored_entry_spec (board s) alpha beta (fst x) (snd x) bm fl).
Proof.
  intros Hinf Hwin Hrec. unfold negamax_body.
  do 3 wlp_step; [wlp_step; discriminate|].
  wlp_step.
  { wlp_step. intros r s1 _. wlp_step. discriminate. }
  wlp_step. eapply wlp_weaken; [apply count_node_and_poll_wlp|].
  intros e s1 (Hb & _).
  wlp_step; [wlp_step; discriminate|].
  do 5 wlp_step.
  { wlp_step. destruct p as [ex r].
    match goal with H : tt_cutoff _ _ _ _ = Some _ |- _ =>
      apply tt_cutoff_spec in H end.
    cbn. intros Hst. destruct ex; try discriminate; tauto. }
  wlp_step; [wlp_step; discriminate|].
  wlp_step; [repeat wlp_step; discriminate|].
  assert (Hmoves : forall s2, board s2 = board s ->
            wlp (negamax_search_moves rec (hash (board s1)) depth alpha beta
                   match probe (tt s1) (hash (board s1)) with
                   | Some e0 => tte_best_move e0
                   | None => NO_MOVE
                   end) s2
                (fun x s' => storing_exit (fst x) = true ->
                   exists t1 bm fl,
                     tt s' = store t1 (hash (board s)) bm depth (snd x) fl
                     /\ stored_entry_spec (board s) alpha beta (fst x) (snd x)
                          bm fl)).
  { intros s2 Hb2. rewrite Hb, <- Hb2.
    now apply negamax_search_moves_stored. }
  wlp_step; [|now apply Hmoves].
  do 3 wlp_step. eapply wlp_weaken; [apply Hrec|]. intros r s2 Hb2. cbn in Hb2.
  assert (Hnull : board (set_board unmakeNullMove s2) = board s).
  { cbn. rewrite Hb2, unmake_make_null. exact Hb. }
  do 3 wlp_step; [wlp_step; discriminate|]. now apply Hmoves.
Qed.

Lemma probe_store_same_key (t : TranspositionTable Move) key (move : Move)
    depth score flag :
  probe (store t key move depth score flag) key
  = Some {| tte_key := key; tte_best_move := move; tte_depth := depth;
            tte_score := score; tte_flag := flag |}
  \/ probe (store t key move depth score flag) key = None.
Proof.
  unfold probe. rewrite tt_index_store.
  destruct (table t !! Z.to_nat (tt_index t key)) as [old|] eqn:Hold.
  - rewrite (store_lookup_slot t key move depth score flag old Hold).
    destruct (store_replaces old key depth) eqn:Hrep; cbn [table].
    + rewrite list_lookup_insert_eq by (now apply lookup_lt_Some in Hold).
      cbn [tte_key]. rewrite Z.eqb_refl. now left.
    + rewrite Hold. unfold store_replaces in Hrep.
      apply orb_false_elim in Hrep as [_ ->]. now right.
  - rewrite store_out_of_range by exact Hold. rewrite Hold. now right.
Qed.

(** X17: a call of [negamax] on a window [- INF <= alpha < beta] that leaves
    through one of its two storing returns has handed [tt.store] the hash of
    its position, its depth and the score it returns, with the flag
    [TT_BETA] and a legal best move at a beta cut-off ([r = beta]), the flag
    [TT_EXACT] and a legal best move when the score lies strictly inside the
    window, and the flag [TT_ALPHA] when the score is at most [alpha] (the
    best move is then legal, or [NO_MOVE] with the score [- INF]).  A probe
    for the position afterwards finds exactly that entry, or misses. *)
Theorem negamax_stored_entry `{!ChessLaws Board Move}
    (fuel : nat) depth alpha beta n s ex r s' :
  - INF <= alpha -> alpha < beta ->
  negamax_tagged fuel depth alpha beta n s = Some ((ex, r), s') ->
  storing_exit ex = true ->
  exists (t1 : TranspositionTable Move) (bm : Move) (fl : TTFlag),
    let new := {| tte_key := hash (board s); tte_best_move := bm;
                  tte_depth := depth; tte_score := r; tte_flag := fl |} in
    tt s' = store t1 (hash (board s)) bm depth r fl
    /\ (probe (tt s') (hash (board s')) = Some new
        \/ probe (tt s') (hash (board s')) = None)
    /\ (ex = Ret_beta_cutoff /\ fl = TT_BETA /\ r = beta
          /\ In bm (legalmoves (board s))
        \/ ex = Ret_best_score /\ fl = TT_EXACT /\ alpha < r < beta
          /\ In bm (legalmoves (board s))
        \/ ex = Ret_best_score /\ fl = TT_ALPHA /\ r <= alpha
          /\ (bm = NO_MOVE /\ r = - INF \/ In bm (legalmoves (board s)))).
Proof.
  intros Hinf Hwin Hrun Hst.
  pose proof (negamax_tagged_board fuel depth alpha beta n s _ _ Hrun) as Hboard.
  cbn beta in Hboard.
  destruct fuel as [|fuel]; [discriminate|]. cbn [negamax_tagged] in Hrun.
  eapply negamax_body_stored in Hrun; [|exact Hinf|exact Hwin|].
  - cbn [fst snd] in Hrun. destruct (Hrun Hst) as (t1 & bm & fl & Htt & Hspec).
    exists t1, bm, fl. cbv zeta. split; [exact Htt|]. split.
    + rewrite Hboard, Htt. apply probe_store_same_key.
    + unfold stored_entry_spec in Hspec. destruct ex; try discriminate; tauto.
  - intros d a b n' s1. wlp_step.
    eapply wlp_weaken; [apply negamax_tagged_board|]. intros x s2 Hb.
    now wlp_step.
Qed.

End Negamax_store.

(** ** Search driver: output and edge cases *)

Section Search_output.
Context {Board Move : Type} `{!ChessLib Board Move}.

Implicit Types s : ChessEngine Board Move.




(** X19: with a depth of zero or less [search] runs no iteration: it prints
    no [info] line and returns the first legal move, or [NO_MOVE] when there
    is none; the [go] command then answers [bestmove] with that move, or
    [bestmove 0000] after its two messages on [cerr]. *)
Theorem go_depth_zero `{!ChessLaws Board Move} (fuel : nat) (max_depth : Z) s :
  max_depth <= 0 -> (0 < fuel)%nat ->
  let s1 := set_search_start (steady_clock_readings s (steady_clock_calls s))
              (tick_clock (set_nodes_searched (fun _ => 0)
                             (set_stop_search false s))) in
  search fuel max_depth s = Some (get_first_legal_move (board s), s1)
  /\ uci_go fuel max_depth s
     = Some (Datatypes.tt,
             match legalmoves (board s) with
             | first :: _ => put_cout ("bestmove " ++ moveToUci first)%string s1
             | [] => put_cout "bestmove 0000"
                       (put_cerr "No legal moves available!"
                          (put_cerr "No legal move found!" s1))
             end).
Proof.
  intros Hmax Hfuel s1. destruct fuel as [|fuel]; [lia|].
  assert (Hsearch : search (S fuel) max_depth s
                    = Some (get_first_legal_move (board s), s1)).
  { unfold search, bind, modify, now, gets. cbn.
    destruct (Z.leb_spec 1 max_depth) as [Hle|_]; [lia|]. cbn.
    rewrite (bool_decide_true (NO_MOVE = NO_MOVE)) by reflexivity. reflexivity. }
  split; [exact Hsearch|].
  unfold uci_go, bind. rewrite Hsearch. unfold get_first_legal_move.
  pose proof (NO_MOVE_not_legal (board s)) as Hno.
  destruct (legalmoves (board s)) as [|first rest] eqn:Hmoves.
  - rewrite (bool_decide_true (NO_MOVE = NO_MOVE)) by reflexivity. cbn.
    rewrite Hmoves.
    rewrite (bool_decide_false (NO_MOVE <> NO_MOVE)) by congruence. reflexivity.
  - assert (Hfirst : first <> NO_MOVE) by (intros ->; apply Hno; now left).
    rewrite (bool_decide_false (first = NO_MOVE)) by exact Hfirst. cbn.
    rewrite (bool_decide_true (first <> NO_MOVE)) by exact Hfirst. reflexivity.
Qed.

End Search_output.

(** ** Position set-up: [make_move] and the [moves] loop *)

Section Make_move.
Context {Board Move : Type} `{!ChessLib Board Move} `{!UciLib Board Move}.

Implicit Types s : ChessEngine Board Move.

Lemma make_move_cases (move_str : string) s :
  (exists m, uciToMove (board s) move_str = inl m /\ m <> NO_MOVE
             /\ In m (legalmoves (board s))
             /\ make_move move_str s = set_board (fun b => makeMove b m) s)
  \/ (exists line, make_move move_str s = put_cerr line s
                   /\ forall m, uciToMove (board s) move_str = inl m ->
                                m = NO_MOVE \/ ~ In m (legalmoves (board s))).
Proof.
  unfold make_move.
  destruct (uciToMove (board s) move_str) as [m|what] eqn:Hparse.
  - case_bool_decide as Hm.
    + fold (is_move_legal (board s) m).
      destruct (is_move_legal (board s) m) eqn:Hlegal.
      * left. exists m. apply is_move_legal_In in Hlegal. auto.
      * right. eexists. split; [reflexivity|]. intros m' [= <-]. right.
        rewrite <- is_move_legal_In, Hlegal. discriminate.
    + right. eexists. split; [reflexivity|]. intros m' [= <-]. left.
      destruct (decide (m = NO_MOVE)); tauto.
  - right. eexists. split; [reflexivity|]. discriminate.
Qed.

(** X20: [make_move] plays the move that the library reads from the string
    when it is not [NO_MOVE] and is a legal move of the position, and then
    prints nothing; in every other case the board is unchanged and exactly
    one line goes to [cerr].  The table, the stop flag, the node count, the
    time limit and [cout] are never touched. *)
Theorem make_move_accepts_legal_moves (move_str : string) s :
  let s' := make_move move_str s in
  (tt s' = tt s /\ stop_search s' = stop_search s
   /\ nodes_searched s' = nodes_searched s /\ time_limit s' = time_limit s
   /\ cout s' = cout s)
  /\ (forall m, uciToMove (board s) move_str = inl m -> m <> NO_MOVE ->
                In m (legalmoves (board s)) ->
                board s' = makeMove (board s) m /\ cerr s' = cerr s)
  /\ ((forall m, uciToMove (board s) move_str = inl m ->
                 m = NO_MOVE \/ ~ In m (legalmoves (board s))) ->
      board s' = board s /\ exists line, cerr s' = cerr s ++ [line]).
Proof.
  cbv zeta.
  destruct (make_move_cases move_str s)
    as [(m & Hparse & Hm & Hin & ->)|(line & -> & Hbad)].
  - split; [cbn; auto|]. split.
    + intros m' Hparse' _ _. rewrite Hparse in Hparse'. injection Hparse' as <-.
      cbn. auto.
    + intros Hbad. destruct (Hbad m Hparse) as [?|?]; contradiction.
  - split; [cbn; auto|]. split.
    + intros m Hparse Hm Hin. destruct (Hbad m Hparse) as [?|?]; contradiction.
    + intros _. cbn. split; [reflexivity|]. now exists line.
Qed.

Lemma make_moves_cons (move_str : string) (moves : list string) s :
  make_moves (move_str :: moves) s = make_moves moves (make_move move_str s).
Proof. reflexivity. Qed.

(** X21: the [moves] loop of the [position] command reaches only positions
    along a line of legal moves from where it starts: every token either
    plays one legal move or adds one line to [cerr], a rejected token does
    not end the loop, and nothing but the board and [cerr] changes. *)
Theorem make_moves_legal_line (moves : list string) s :
  let s' := make_moves moves s in
  exists (played : list Move) (errors : list string),
    legal_line (board s) played (board s')
    /\ cerr s' = cerr s ++ errors
    /\ (length played + length errors = length moves)%nat
    /\ tt s' = tt s /\ stop_search s' = stop_search s
    /\ nodes_searched s' = nodes_searched s /\ cout s' = cout s.
Proof.
  cbv zeta. revert s. induction moves as [|move_str moves IH]; intros s.
  - exists [], []. cbn. rewrite app_nil_r. repeat split; auto. constructor.
  - rewrite make_moves_cons.
    destruct (IH (make_move move_str s))
      as (played & errors & Hline & Hcerr & Hcount & Htt & Hstop & Hnodes & Hcout).
    destruct (make_move_cases move_str s)
      as [(m & Hparse & Hm & Hin & Heq)|(line & Heq & Hbad)];
      rewrite Heq in *; cbn in *.
    + exists (m :: played), errors. repeat split; auto.
      * now constructor.
      * cbn. lia.
    + exists played, (line :: errors). repeat split; auto.
      * rewrite Hcerr, <- app_assoc. reflexivity.
      * cbn. lia.
Qed.

End Make_move.

(** ** A new game *)

Section New_game.
Context {Board Move : Type} `{!ChessLib Board Move}.

Implicit Types s : ChessEngine Board Move.

(** X22: after [new_game] the board is the start position and the table,
    of the same length and mask, finds none of the positions stored before;
    the first store for any key then takes its slot, so that the probe for
    it returns the entry stored.  Nothing else of the engine changes. *)
Theorem store_after_new_game (startpos : Board) s key (move : Move)
    depth score flag :
  tt_wf (tt s) ->
  let s0 := new_game startpos s in
  board s0 = startpos
  /\ tt_wf (tt s0)
  /\ length (table (tt s0)) = length (table (tt s))
  /\ size_mask (tt s0) = size_mask (tt s)
  /\ (forall k, k <> 0 -> probe (tt s0) k = None)
  /\ probe (store (tt s0) key move depth score flag) key
     = Some {| tte_key := key; tte_best_move := move; tte_depth := depth;
               tte_score := score; tte_flag := flag |}
  /\ stop_search s0 = stop_search s /\ nodes_searched s0 = nodes_searched s
  /\ time_limit s0 = time_limit s /\ cout s0 = cout s /\ cerr s0 = cerr s.
Proof.
  intros Hwf s0. subst s0. unfold new_game. cbn [board tt set_tt set_board
    stop_search nodes_searched time_limit cout cerr].
  pose proof (tt_wf_clear (tt s) Hwf) as Hwf'.
  split; [reflexivity|]. split; [exact Hwf'|].
  split; [cbn; apply length_replicate|]. split; [reflexivity|].
  split; [intros k Hk; now apply probe_default_table|].
  split; [|repeat split].
  pose proof (tt_index_in_range (clear (tt s)) key Hwf') as Hrange.
  assert (Hold : table (clear (tt s)) !! Z.to_nat (tt_index (clear (tt s)) key)
                 = Some TTEntry_default).
  { cbn [clear table] in *. apply lookup_replicate_2.
    now rewrite length_replicate in Hrange. }
  unfold probe. rewrite tt_index_store.
  rewrite (store_lookup_slot _ key move depth score flag _ Hold).
  assert (Hrep : store_replaces (TTEntry_default (Move := Move)) key depth = true)
    by reflexivity.
  rewrite Hrep. cbn [table].
  rewrite list_lookup_insert_eq by exact Hrange.
  cbn [tte_key]. now rewrite Z.eqb_refl.
Qed.

End New_game.

(** ** The further statements at concrete inputs *)

Section Further_examples.
Import Toy.

Lemma table_with_entry_wf : tt_wf table_with_entry.
Proof. apply tt_wf_store, empty_table_wf. Qed.


(** A store of key 2061, of slot 13, leaves the probe of key 2060 alone. *)
Lemma probe_other_key_after_store_witness :
  2060 <> 2061
  /\ probe (store table_with_entry 2061 (mv 60 61) 9 7 TT_BETA) 2060
     = probe table_with_entry 2060.
Proof.
  assert (Hne : 2060 <> 2061) by lia.
  split; [exact Hne|].
  apply (proj1 (probe_other_key_after_store table_with_entry 2061 (mv 60 61) 9 7
                  TT_BETA 2060 Hne)).
  vm_compute. lia.
Defined.

Lemma probe_empty_table_witness :
  probe (clear table_with_entry) 2060 = None
  /\ probe (clear table_with_entry) 0 = Some TTEntry_default.
Proof.
  destruct (@probe_empty_table Board Move lib) as (_ & Hclear & _ & Hzero).
  split; [apply Hclear; lia|apply Hzero, table_with_entry_wf].
Defined.

Lemma tt_home_invariant_witness :
  tt_home table_with_entry
  /\ forall (i : nat) e, table table_with_entry !! i = Some e ->
       tte_key e = 2060 -> i = 12%nat.
Proof.
  destruct (@tt_home_invariant Board Move lib) as (_ & Hclear & Hstore & Hunique).
  assert (Hhome : tt_home table_with_entry).
  { apply Hstore. change empty_table with (clear empty_table). apply Hclear. }
  split; [exact Hhome|].
  intros i e Hi Hkey.
  apply (Hunique table_with_entry i 12%nat e
           {| tte_key := 2060; tte_best_move := mv 60 59; tte_depth := 3;
              tte_score := 50; tte_flag := TT_EXACT |} Hhome Hi);
    [reflexivity|exact Hkey|rewrite Hkey; lia].
Defined.

(** Kings on e1 and e8: files 4 and 4, ranks 0 and 7. *)
Lemma king_distance_evaluation_bounds_witness :
  0 <= calculate_king_distance_evaluation 4 60 <= 200
  /\ calculate_king_distance_evaluation 4 60 mod 10 = 0.
Proof.
  apply (king_distance_evaluation_bounds 4 60); vm_compute; split; discriminate.
Defined.

(** The four king moves of the position with the rook check. *)
Lemma mobility_of_side_to_move_witness :
  calculate_mobility (at_root rook_check) BLACK = 4
  /\ calculate_mobility (at_root rook_check) WHITE = 0.
Proof.
  destruct (mobility_of_side_to_move (at_root rook_check)) as (Hown & Hother & _).
  - intros m Hin. vm_compute in Hin.
    destruct Hin as [<-|[<-|[<-|[<-|[]]]]]; reflexivity.
  - split; [exact Hown|exact Hother].
Defined.

(** Bare kings: no piece counts. *)
Lemma count_pieces_bounds_witness :
  count_pieces (at_root bare_kings) = 0.
Proof.
  destruct (count_pieces_bounds (at_root bare_kings)) as [_ Hnone].
  apply Hnone. intros sq _.
  change (at_sq (at_root bare_kings) sq) with (piece_at (at_root bare_kings) sq).
  unfold piece_at, at_root, bare_kings, leaf.
  cbn [current info i_pieces find fst snd].
  destruct (63 =? sq); [right; right; reflexivity|].
  destruct (9 =? sq); [right; right; reflexivity|left; reflexivity].
Defined.

Lemma order_moves_sorted_permutation_witness :
  Permutation
    (map fst (order_moves (at_root en_passant_position)
                (legalmoves (at_root en_passant_position)) NO_MOVE))
    (legalmoves (at_root en_passant_position)).
Proof.
  exact (proj1 (@order_moves_sorted_permutation Board Move lib Toy_laws
                  (at_root en_passant_position)
                  (legalmoves (at_root en_passant_position)) NO_MOVE)).
Defined.

(** The pawn push e5-e6 as table move is searched first. *)
Lemma order_moves_tt_move_first_witness :
  exists key rest,
    order_moves (at_root en_passant_position)
      (legalmoves (at_root en_passant_position)) (mv 36 44)
    = (mv 36 44, key) :: rest
    /\ 10000 <= key.
Proof.
  apply (@order_moves_tt_move_first Board Move lib Toy_laws).
  - vm_compute. repeat first [left; reflexivity | right].
  - intros m Hin. vm_compute in Hin.
    repeat (destruct Hin as [<-|Hin]; [split; vm_compute; discriminate|]).
    destruct Hin.
Defined.

Lemma search_keeps_output_and_timing_witness :
  exists r s',
    negamax 20 2 (- INF) INF true (engine_on en_passant_position) = Some (r, s')
    /\ cout s' = [] /\ cerr s' = [] /\ time_limit s' = 5000.
Proof.
  destruct (negamax 20 2 (- INF) INF true (engine_on en_passant_position))
    as [[r s']|] eqn:Hrun; [|vm_compute in Hrun; discriminate].
  exists r, s'. split; [reflexivity|].
  destruct (search_keeps_output_and_timing 20 2 (- INF) INF true
              (engine_on en_passant_position) r s' (or_intror Hrun))
    as (Hcout & Hcerr & Hlimit & _).
  split; [exact Hcout|]. split; [exact Hcerr|exact Hlimit].
Defined.

(** Started four nodes before a poll, the search reads the clock once for
    every 1024 nodes it has reached. *)
Lemma clock_read_every_1024_nodes_witness :
  exists r s',
    negamax 20 2 (- INF) INF true engine_out_of_time = Some (r, s')
    /\ 1020 <= nodes_searched s'
    /\ Z.of_nat (steady_clock_calls s') = nodes_searched s' / 1024.
Proof.
  destruct (negamax 20 2 (- INF) INF true engine_out_of_time)
    as [[r s']|] eqn:Hrun; [|vm_compute in Hrun; discriminate].
  exists r, s'. split; [reflexivity|].
  destruct (clock_read_every_1024_nodes 20 2 (- INF) INF true engine_out_of_time
              r s' Hrun) as [Hnodes Hclock].
  split; [exact Hnodes|].
  change (Z.of_nat (steady_clock_calls s') - 0 = nodes_searched s' / 1024 - 0)
    in Hclock.
  now rewrite !Z.sub_0_r in Hclock.
Defined.

Lemma negamax_keeps_table_shape_witness :
  exists r s',
    negamax 20 2 (- INF) INF true (engine_on en_passant_position) = Some (r, s')
    /\ length (table (tt s')) = 16%nat /\ size_mask (tt s') = 15
    /\ tt_wf (tt s').
Proof.
  destruct (negamax 20 2 (- INF) INF true (engine_on en_passant_position))
    as [[r s']|] eqn:Hrun; [|vm_compute in Hrun; discriminate].
  exists r, s'. split; [reflexivity|].
  destruct (negamax_keeps_table_shape 20 2 (- INF) INF true
              (engine_on en_passant_position) r s' Hrun) as (Hlen & Hmask & Hwf).
  split; [exact Hlen|]. split; [exact Hmask|apply Hwf, empty_table_wf].
Defined.

Lemma quiescence_fail_hard_witness :
  exists r s',
    quiescence 12 (-50) 50 0 (engine_on en_passant_position) = Some (r, s')
    /\ -50 <= r <= 50
    /\ board s' = at_root en_passant_position
    /\ tt s' = empty_table.
Proof.
  destruct (quiescence 12 (-50) 50 0 (engine_on en_passant_position))
    as [[r s']|] eqn:Hrun; [|vm_compute in Hrun; discriminate].
  exists r, s'. split; [reflexivity|].
  destruct (@quiescence_fail_hard Board Move lib Toy_laws 12 (-50) 50 0
              (engine_on en_passant_position) r s' ltac:(lia) ltac:(lia) Hrun)
    as (Hr & Hb & Htt & _).
  split; [exact Hr|]. split; [exact Hb|exact Htt].
Defined.

(** The king in check from the rook has no capture. *)
Lemma quiescence_quiet_position_witness :
  exists r s',
    quiescence 1 (- INF) INF 0 (engine_on rook_check) = Some (r, s')
    /\ nodes_searched s' = 1
    /\ (stop_search s' = false ->
        r = Z.min INF (Z.max (- INF) (evaluate (at_root rook_check)))).
Proof.
  destruct (@quiescence_quiet_position Board Move lib Toy_laws 1 (- INF) INF 0
              (engine_on rook_check) ltac:(vm_compute; discriminate) ltac:(lia)
              ltac:(lia) eq_refl)
    as (r & s' & Hrun & _ & _ & Hnodes & Hr).
  exists r, s'. split; [exact Hrun|]. split; [exact Hnodes|exact Hr].
Defined.

Lemma negamax_stored_entry_witness :
  exists r s' t1 bm fl,
    negamax_tagged 20 1 (- INF) INF true (engine_on en_passant_position)
    = Some ((Ret_best_score, r), s')
    /\ tt s' = store t1 3100 bm 1 r fl
    /\ (probe (tt s') (hash (board s'))
        = Some {| tte_key := 3100; tte_best_move := bm; tte_depth := 1;
                  tte_score := r; tte_flag := fl |}
        \/ probe (tt s') (hash (board s')) = None).
Proof.
  destruct (negamax_tagged 20 1 (- INF) INF true (engine_on en_passant_position))
    as [[[ex r] s']|] eqn:Hrun; [|vm_compute in Hrun; discriminate].
  assert (Hex : ex = Ret_best_score).
  { vm_compute in Hrun. now injection Hrun as <- _ _. }
  subst ex.
  destruct (@negamax_stored_entry Board Move lib Toy_laws 20 1 (- INF) INF true
              (engine_on en_passant_position) Ret_best_score r s'
              ltac:(lia) ltac:(vm_compute; reflexivity) Hrun eq_refl)
    as (t1 & bm & fl & Htt & Hprobe & _).
  exists r, s', t1, bm, fl. split; [reflexivity|].
  split; [exact Htt|exact Hprobe].
Defined.


Lemma go_depth_zero_witness :
  exists s',
    search 20 0 (engine_on en_passant_position) = Some (mv 4 3, s')
    /\ uci_go 20 0 (engine_on en_passant_position)
       = Some (Datatypes.tt, put_cout "bestmove e1d1" s').
Proof.
  destruct (@go_depth_zero Board Move lib Toy_laws 20 0
              (engine_on en_passant_position) ltac:(lia) ltac:(lia))
    as [Hsearch Hgo].
  eexists. split; [exact Hsearch|exact Hgo].
Defined.

(** The en-passant capture is played; a move that is not legal in the
    position is refused with a message. *)
Lemma make_move_accepts_legal_moves_witness :
  board (make_move "e5d6" (engine_on en_passant_position))
  = makeMove (at_root en_passant_position) en_passant_move
  /\ board (make_move "e5e7" (engine_on en_passant_position))
     = at_root en_passant_position
  /\ exists line,
       cerr (make_move "e5e7" (engine_on en_passant_position)) = [line].
Proof.
  destruct (make_move_accepts_legal_moves "e5d6" (engine_on en_passant_position))
    as (_ & Hplay & _).
  destruct (make_move_accepts_legal_moves "e5e7" (engine_on en_passant_position))
    as (_ & _ & Hrefuse).
  split.
  - apply (Hplay en_passant_move); [reflexivity|discriminate|].
    vm_compute. repeat first [left; reflexivity | right].
  - apply Hrefuse. intros m Hparse. vm_compute in Hparse.
    injection Hparse as <-. left. reflexivity.
Defined.

Lemma store_after_new_game_witness :
  probe (tt (new_game (at_root rook_check) engine_with_exact_entry)) 3100 = None
  /\ probe (store (tt (new_game (at_root rook_check) engine_with_exact_entry))
              2060 (mv 60 59) 3 50 TT_EXACT) 2060
     = Some {| tte_key := 2060; tte_best_move := mv 60 59; tte_depth := 3;
               tte_score := 50; tte_flag := TT_EXACT |}.
Proof.
  destruct (store_after_new_game (at_root rook_check) engine_with_exact_entry
              2060 (mv 60 59) 3 50 TT_EXACT
              ltac:(apply tt_wf_store, empty_table_wf))
    as (_ & _ & _ & _ & Hmiss & Hhit & _).
  split; [apply Hmiss; lia|exact Hhit].
Defined.

End Further_examples.
